(** * Bull game backend: lobby registry, round state machine, rotation
      selector and scoring, embedded from the TypeScript sources.

    Conventions of the embedding.
    - JavaScript numbers that only ever hold integers (round numbers,
      scores, points) are [Z]; the selector's probability factors are exact
      rationals [Q] (IEEE rounding is not modelled).
    - A JavaScript object used as a dictionary, and a [Map], is an
      insertion-ordered association list ([obj]): all keys in this program
      are UUIDs or lobby codes produced by the program itself, so iteration
      order is insertion order.
    - [Player] objects are shared between [lobby.players], the team lists
      and [round.selectedPlayers]; they live in a store ([heap]) and the
      containers hold references ([loc]).
    - [Math.random] and [generateUUID] are read from caller-supplied streams.
    - A thrown exception is the [Throw] outcome of [result].
    - [Date] stamps ([createdAt], [lastActivity], [startedAt], [finishedAt])
      and the display-only [suggestedFormat] are left out. *)

From Stdlib Require Import ZArith QArith Qround Qminmax Lia Lqa.
From stdpp Require Import base strings functions list.

Local Open Scope Z_scope.

(* ================================================================== *)
(** ** Insertion-ordered dictionaries *)

Abbreviation obj V := (list (string * V)).

Fixpoint obj_get {V} (o : obj V) (k : string) : option V :=
  match o with
  | [] => None
  | (k', v) :: o' => if bool_decide (k' = k) then Some v else obj_get o' k
  end.

(** [o[k] = v]: overwrite in place when the key exists, append otherwise. *)
Fixpoint obj_set {V} (o : obj V) (k : string) (v : V) : obj V :=
  match o with
  | [] => [(k, v)]
  | (k', v') :: o' =>
      if bool_decide (k' = k) then (k, v) :: o' else (k', v') :: obj_set o' k v
  end.

Definition obj_delete {V} (o : obj V) (k : string) : obj V :=
  filter (λ e, e.1 ≠ k) o.

Definition obj_keys {V} (o : obj V) : list string := o.*1.
Definition obj_values {V} (o : obj V) : list V := o.*2.

(** Truthiness of [o[k]] for string values: present and non-empty. *)
Definition truthy_string (s : option string) : bool :=
  match s with
  | Some s => negb (bool_decide (s = ""%string))
  | None => false
  end.

(** [a[i]] on an array, [undefined] (here [None]) out of range. *)
Definition js_index {A} (a : list A) (i : Z) : option A :=
  if bool_decide (0 ≤ i) then a !! Z.to_nat i else None.

(* ================================================================== *)
(** ** Errors *)

Inductive ErrorCode :=
| LOBBY_NOT_FOUND | LOBBY_FULL | PLAYER_NOT_FOUND | GAME_ALREADY_STARTED
| NOT_HOST | INVALID_TEAM | INVALID_PHASE | ANSWER_TOO_LONG | ANSWER_TOO_SHORT
| ALREADY_SUBMITTED | TIME_EXPIRED | VALIDATION_ERROR | SERVER_FULL.

Inductive Exception :=
| GameError (message : string) (code : ErrorCode)
| LobbyError (message : string) (code : ErrorCode) (statusCode : Z)
| Error (message : string).

Inductive result (A : Type) :=
| Ok (a : A)
| Throw (e : Exception).
Arguments Ok {A} a.
Arguments Throw {A} e.

(** Sequencing stops at the first exception ([x ← r; k] below). *)
Global Instance result_bind : MBind result := λ A B k r,
  match r with
  | Ok a => k a
  | Throw e => Throw e
  end.

Definition is_Ok {A} (r : result A) : Prop :=
  match r with Ok _ => True | Throw _ => False end.

(* ================================================================== *)
(** ** Types ([types/index.ts]) *)

Inductive LobbyStatus := LobbyWaiting | LobbyPlaying | LobbyFinished.
Module Team.
Inductive t := blue | red.
Definition other (tm : t) : t :=
  match tm with blue => red | red => blue end.
End Team.
Inductive RoundStatus := answering | RoundVoting | RoundFinished.
Inductive GamePhase := waiting | writing | voting | results | finished.

Global Instance Team_eq_dec : EqDecision Team.t.
Proof. solve_decision. Defined.
Global Instance LobbyStatus_eq_dec : EqDecision LobbyStatus.
Proof. solve_decision. Defined.
Global Instance RoundStatus_eq_dec : EqDecision RoundStatus.
Proof. solve_decision. Defined.
Global Instance GamePhase_eq_dec : EqDecision GamePhase.
Proof. solve_decision. Defined.

Definition loc := nat.

Module Player.
Record t := mk {
  id : string;
  name : string;
  team : option Team.t;
  isHost : bool;
  socketId : string;
  score : Z;
  isReady : bool;
  isConnected : bool;
}.
Definition set_team (v : option Team.t) (p : t) : t :=
  mk (id p) (name p) v (isHost p) (socketId p) (score p) (isReady p)
     (isConnected p).
Definition set_isHost (v : bool) (p : t) : t :=
  mk (id p) (name p) (team p) v (socketId p) (score p) (isReady p)
     (isConnected p).
Definition set_socketId (v : string) (p : t) : t :=
  mk (id p) (name p) (team p) (isHost p) v (score p) (isReady p)
     (isConnected p).
Definition set_score (v : Z) (p : t) : t :=
  mk (id p) (name p) (team p) (isHost p) (socketId p) v (isReady p)
     (isConnected p).
Definition set_isReady (v : bool) (p : t) : t :=
  mk (id p) (name p) (team p) (isHost p) (socketId p) (score p) v
     (isConnected p).
Definition set_isConnected (v : bool) (p : t) : t :=
  mk (id p) (name p) (team p) (isHost p) (socketId p) (score p)
     (isReady p) v.
End Player.

(** The store of [Player] objects.  Objects are never freed; a fresh object
    is written at the allocation pointer kept by the service state. *)
Abbreviation heap := (loc → Player.t).

Module GameSettings.
Record t := mk {
  maxRounds : Z;
  answerTimeSeconds : Z;
  voteTimeSeconds : Z;
  pointsCorrectAnswer : Z;
  pointsConfuseOpponent : Z;
}.
End GameSettings.

Inductive OptionOrigin :=
| OriginCorrect
| OriginIncorrect
| OriginPlayer (playerId : string).

Module RoundOption.
Record t := mk {
  id : string;
  text : string;
  origin : OptionOrigin;
  position : Z;
}.
Definition set_position (v : Z) (o : t) : t :=
  mk (id o) (text o) (origin o) v.
End RoundOption.

Module Scores.
Record t := mk { blue : Z; red : Z }.
Definition get (s : t) (tm : Team.t) : Z :=
  match tm with Team.blue => blue s | Team.red => red s end.
Definition add (s : t) (tm : Team.t) (n : Z) : t :=
  match tm with
  | Team.blue => mk (blue s + n) (red s)
  | Team.red => mk (blue s) (red s + n)
  end.
End Scores.

Module BullRound.
Record t := mk {
  number : Z;
  question : string;
  correctAnswer : string;
  incorrectAnswer : string;
  selectedPlayers_blue : loc;
  selectedPlayers_red : loc;
  playerAnswers : obj string;
  playersReady : obj bool;
  options : list RoundOption.t;
  votes : obj string;
  status : RoundStatus;
  pointsAwarded : obj Z;
}.
Definition set_playerAnswers (v : obj string) (r : t) : t :=
  mk (number r) (question r) (correctAnswer r) (incorrectAnswer r)
     (selectedPlayers_blue r) (selectedPlayers_red r) v (playersReady r)
     (options r) (votes r) (status r) (pointsAwarded r).
Definition set_playersReady (v : obj bool) (r : t) : t :=
  mk (number r) (question r) (correctAnswer r) (incorrectAnswer r)
     (selectedPlayers_blue r) (selectedPlayers_red r) (playerAnswers r) v
     (options r) (votes r) (status r) (pointsAwarded r).
Definition set_options (v : list RoundOption.t) (r : t) : t :=
  mk (number r) (question r) (correctAnswer r) (incorrectAnswer r)
     (selectedPlayers_blue r) (selectedPlayers_red r) (playerAnswers r)
     (playersReady r) v (votes r) (status r) (pointsAwarded r).
Definition set_votes (v : obj string) (r : t) : t :=
  mk (number r) (question r) (correctAnswer r) (incorrectAnswer r)
     (selectedPlayers_blue r) (selectedPlayers_red r) (playerAnswers r)
     (playersReady r) (options r) v (status r) (pointsAwarded r).
Definition set_status (v : RoundStatus) (r : t) : t :=
  mk (number r) (question r) (correctAnswer r) (incorrectAnswer r)
     (selectedPlayers_blue r) (selectedPlayers_red r) (playerAnswers r)
     (playersReady r) (options r) (votes r) v (pointsAwarded r).
Definition set_pointsAwarded (v : obj Z) (r : t) : t :=
  mk (number r) (question r) (correctAnswer r) (incorrectAnswer r)
     (selectedPlayers_blue r) (selectedPlayers_red r) (playerAnswers r)
     (playersReady r) (options r) (votes r) (status r) v.
End BullRound.

Module BullGameState.
Record t := mk {
  currentRound : Z;
  totalRounds : Z;
  phase : GamePhase;
  rounds : list BullRound.t;
  scores : Scores.t;
  winner : option Team.t;
}.
Definition set_currentRound (v : Z) (g : t) : t :=
  mk v (totalRounds g) (phase g) (rounds g) (scores g) (winner g).
Definition set_phase (v : GamePhase) (g : t) : t :=
  mk (currentRound g) (totalRounds g) v (rounds g) (scores g) (winner g).
Definition set_rounds (v : list BullRound.t) (g : t) : t :=
  mk (currentRound g) (totalRounds g) (phase g) v (scores g) (winner g).
Definition set_scores (v : Scores.t) (g : t) : t :=
  mk (currentRound g) (totalRounds g) (phase g) (rounds g) v (winner g).
Definition set_winner (v : option Team.t) (g : t) : t :=
  mk (currentRound g) (totalRounds g) (phase g) (rounds g) (scores g) v.
End BullGameState.

Module Lobby.
Record t := mk {
  code : string;
  hostId : string;
  hostSocketId : string;
  players : list loc;
  teams_blue : list loc;
  teams_red : list loc;
  status : LobbyStatus;
  gameState : option BullGameState.t;
  settings : GameSettings.t;
}.
Definition teams (l : t) (tm : Team.t) : list loc :=
  match tm with Team.blue => teams_blue l | Team.red => teams_red l end.
Definition set_hostId (v : string) (l : t) : t :=
  mk (code l) v (hostSocketId l) (players l) (teams_blue l) (teams_red l)
     (status l) (gameState l) (settings l).
Definition set_players (v : list loc) (l : t) : t :=
  mk (code l) (hostId l) (hostSocketId l) v (teams_blue l) (teams_red l)
     (status l) (gameState l) (settings l).
Definition set_teams (tm : Team.t) (v : list loc) (l : t) : t :=
  match tm with
  | Team.blue =>
      mk (code l) (hostId l) (hostSocketId l) (players l) v (teams_red l)
         (status l) (gameState l) (settings l)
  | Team.red =>
      mk (code l) (hostId l) (hostSocketId l) (players l) (teams_blue l) v
         (status l) (gameState l) (settings l)
  end.
Definition set_status (v : LobbyStatus) (l : t) : t :=
  mk (code l) (hostId l) (hostSocketId l) (players l) (teams_blue l)
     (teams_red l) v (gameState l) (settings l).
Definition set_gameState (v : option BullGameState.t) (l : t) : t :=
  mk (code l) (hostId l) (hostSocketId l) (players l) (teams_blue l)
     (teams_red l) (status l) v (settings l).
Definition set_settings (v : GameSettings.t) (l : t) : t :=
  mk (code l) (hostId l) (hostSocketId l) (players l) (teams_blue l)
     (teams_red l) (status l) (gameState l) v.
End Lobby.

Module VoteResult.
Record t := mk { optionId : string; isCorrect : bool }.
End VoteResult.

Module RoundResult.
Record t := mk {
  roundNumber : Z;
  question : string;
  correctOptionId : string;
  votes : obj VoteResult.t;
  pointsAwarded : obj Z;
  newScores : Scores.t;
  confusionResults : obj (list string);
}.
End RoundResult.

(* ================================================================== *)
(** ** String primitives of the host language

    [String.prototype.trim], [toLowerCase] and [toUpperCase] are Unicode
    aware; the development is parametric in them. *)

Class JsString := {
  trim : string → string;
  toLowerCase : string → string;
  toUpperCase : string → string;
}.

(* ================================================================== *)
(** ** Constants ([utils/constants.ts]) *)

Definition MAX_PLAYERS_PER_LOBBY : Z := 8.
Definition MIN_PLAYERS_TO_START : Z := 2.
Definition MAX_LOBBIES : Z := 100.
Definition LOBBY_CODE_LENGTH : nat := 6.
Definition LOBBY_CODE_CHARS : string := "ABCDEFGHIJKLMNOPQRSTUVWXYZ0123456789".
Definition ROUND_OPTIONS_COUNT : nat := 4.

Definition DEFAULT_GAME_SETTINGS : GameSettings.t :=
  GameSettings.mk 5 30 20 100 150.

(* ================================================================== *)
(** ** Helpers ([utils/helpers.ts]) *)

(** [[a[i], a[j]] = [a[j], a[i]]].  Both indices are in range whenever the
    draws come from [Math.random] (see [shuffle_index_le]); outside that
    the array is left as it is. *)
Definition swap {A} (a : list A) (i j : nat) : list A :=
  match a !! i, a !! j with
  | Some x, Some y => <[j := x]> (<[i := y]> a)
  | _, _ => a
  end.

(** [Math.floor(Math.random() * (i + 1))] for the draw [r]. *)
Definition shuffle_index (r : Q) (i : nat) : nat :=
  Z.to_nat (Qfloor (r * inject_Z (Z.of_nat i + 1))).

(** The loop [for (i = n; i > 0; i--)] of [shuffleArray]; the [k]-th call
    of [Math.random] returns [rnd k]. *)
Fixpoint shuffle_loop {A} (rnd : nat → Q) (k : nat) (i : nat) (shuffled : list A)
  : list A :=
  match i with
  | O => shuffled
  | S i' =>
      let j := shuffle_index (rnd k) i in
      shuffle_loop rnd (S k) i' (swap shuffled i j)
  end.

Definition shuffleArray {A} (rnd : nat → Q) (array : list A) : list A :=
  shuffle_loop rnd 0 (length array - 1) array.

(* ================================================================== *)
(** ** Rotation selector ([utils/playerSelector.ts]) *)

Module PlayerParticipation.
Record t := mk {
  playerId : string;
  lastRoundPlayed : Z;
  timesPlayed : Z;
  factor : Q;
}.
Definition set_factor (v : Q) (p : t) : t :=
  mk (playerId p) (lastRoundPlayed p) (timesPlayed p) v.
End PlayerParticipation.

Module PlayerSelector.
Record t := mk {
  participationHistory : obj PlayerParticipation.t;
  currentRound : Z;
}.
Definition new : t := mk [] 0.
End PlayerSelector.

Definition Qlt_bool (a b : Q) : bool := negb (Qle_bool b a).

Definition obj_map_values {V W} (f : V → W) (o : obj V) : obj W :=
  prod_map id f <$> o.

Definition Qsum (l : list Q) : Q := fold_left Qplus l 0%Q.

Definition getAverageTimesPlayed (s : PlayerSelector.t) : Q :=
  let allParticipations := obj_values (PlayerSelector.participationHistory s) in
  let totalTimes :=
    fold_left (λ sum p, sum + PlayerParticipation.timesPlayed p)
      allParticipations 0 in
  (inject_Z totalTimes / inject_Z (Z.of_nat (length allParticipations)))%Q.

Definition calculatePlayerFactor (s : PlayerSelector.t)
    (participation : PlayerParticipation.t) : Q :=
  if bool_decide (PlayerParticipation.lastRoundPlayed participation = -1)
  then 2%Q
  else
    let roundsSinceLastPlay :=
      PlayerSelector.currentRound s
      - PlayerParticipation.lastRoundPlayed participation in
    let recencyFactor :=
      Qmin 2 (1 + inject_Z roundsSinceLastPlay * (2 # 10))%Q in
    let avgTimesPlayed := getAverageTimesPlayed s in
    let frequencyRatio :=
      (inject_Z (PlayerParticipation.timesPlayed participation)
       / Qmax avgTimesPlayed 1)%Q in
    let frequencyFactor :=
      Qmax (1 # 10) (1 - (frequencyRatio - 1) * (3 # 10))%Q in
    (recencyFactor * frequencyFactor)%Q.

Definition normalizeFactors (s : PlayerSelector.t) : PlayerSelector.t :=
  let history := PlayerSelector.participationHistory s in
  let allParticipations := obj_values history in
  let totalFactor := Qsum (PlayerParticipation.factor <$> allParticipations) in
  if Qlt_bool 0 totalFactor then
    let normalizer :=
      (inject_Z (Z.of_nat (length allParticipations)) / totalFactor)%Q in
    PlayerSelector.mk
      (obj_map_values
         (λ p, PlayerParticipation.set_factor
                 (Qmax (1 # 10) (PlayerParticipation.factor p * normalizer)%Q) p)
         history)
      (PlayerSelector.currentRound s)
  else s.

(** [calculatePlayerFactor] reads the round counter and the play counts
    only, which the factor assignments of the [forEach] leave alone; so
    every participation is recomputed against the state on entry. *)
Definition updateFactors (s : PlayerSelector.t) : PlayerSelector.t :=
  let history := PlayerSelector.participationHistory s in
  if bool_decide (PlayerSelector.currentRound s = 0) then
    PlayerSelector.mk
      (obj_map_values (PlayerParticipation.set_factor 1%Q) history)
      (PlayerSelector.currentRound s)
  else
    normalizeFactors
      (PlayerSelector.mk
         (obj_map_values
            (λ p, PlayerParticipation.set_factor (calculatePlayerFactor s p) p)
            history)
         (PlayerSelector.currentRound s)).

Definition initialize (h : heap) (bluePlayers redPlayers : list loc)
  : PlayerSelector.t :=
  let history :=
    fold_left
      (λ hist l,
         obj_set hist (Player.id (h l))
           (PlayerParticipation.mk (Player.id (h l)) (-1) 0 1%Q))
      (bluePlayers ++ redPlayers) [] in
  updateFactors (PlayerSelector.mk history 0).

Definition reset (s : PlayerSelector.t) : PlayerSelector.t :=
  PlayerSelector.mk [] 0.

Definition updatePlayerParticipation (s : PlayerSelector.t) (playerId : string)
  : PlayerSelector.t :=
  match obj_get (PlayerSelector.participationHistory s) playerId with
  | Some participation =>
      PlayerSelector.mk
        (obj_set (PlayerSelector.participationHistory s) playerId
           (PlayerParticipation.mk
              (PlayerParticipation.playerId participation)
              (PlayerSelector.currentRound s)
              (PlayerParticipation.timesPlayed participation + 1)
              (PlayerParticipation.factor participation)))
        (PlayerSelector.currentRound s)
  | None => s
  end.

(** The roulette loop: the first player whose cumulative probability
    reaches the draw. *)
Fixpoint roulette (probabilities : list (loc * Q * Q)) (random accumulator : Q)
  : option loc :=
  match probabilities with
  | [] => None
  | (player, _, probability) :: rest =>
      let accumulator := (accumulator + probability)%Q in
      if Qle_bool random accumulator then Some player
      else roulette rest random accumulator
  end.

Definition team_name (tm : Team.t) : string :=
  match tm with Team.blue => "blue" | Team.red => "red" end.

(** Returns the chosen player and the index of the next unused draw. *)
Definition selectPlayerFromTeam (s : PlayerSelector.t) (h : heap)
    (players : list loc) (tm : Team.t) (rnd : nat → Q) (k : nat)
  : result (loc * nat) :=
  match players with
  | [] => Throw (Error ("No hay jugadores en el equipo " +:+ team_name tm))
  | [player] => Ok (player, k)
  | first :: _ =>
      let playerFactors :=
        (λ player,
           (player,
            match obj_get (PlayerSelector.participationHistory s)
                    (Player.id (h player)) with
            | Some participation =>
                let f := PlayerParticipation.factor participation in
                if Qeq_bool f 0 then 1%Q else f
            | None => 1%Q
            end)) <$> players in
      let totalFactor := Qsum (snd <$> playerFactors) in
      let probabilities :=
        (λ pf : loc * Q, (pf.1, pf.2, (pf.2 / totalFactor)%Q)) <$> playerFactors in
      let random := rnd k in
      match roulette probabilities random 0%Q with
      | Some player => Ok (player, S k)
      | None => Ok (List.last players first, S k)
      end
  end.

(** Truthiness of an optional string argument. *)
Definition truthy_arg (s : option string) : bool := truthy_string s.

(** The selector is mutated before the eligibility checks, so the state is
    returned next to the outcome, also when the call throws. *)
Definition selectPlayersForRound (s : PlayerSelector.t) (h : heap)
    (bluePlayers redPlayers : list loc) (hostId : option string)
    (rnd : nat → Q)
  : PlayerSelector.t * result (loc * loc) :=
  let s :=
    PlayerSelector.mk (PlayerSelector.participationHistory s)
      (PlayerSelector.currentRound s + 1) in
  let eligible (players : list loc) :=
    match hostId with
    | Some host =>
        if truthy_arg hostId
        then filter (λ p, Player.id (h p) ≠ host) players
        else players
    | None => players
    end in
  let eligibleBluePlayers := eligible bluePlayers in
  let eligibleRedPlayers := eligible redPlayers in
  if bool_decide (length eligibleBluePlayers = 0%nat) then
    (s, Throw (Error
       "No hay jugadores elegibles en el equipo azul (excluyendo host)"))
  else if bool_decide (length eligibleRedPlayers = 0%nat) then
    (s, Throw (Error
       "No hay jugadores elegibles en el equipo rojo (excluyendo host)"))
  else
    match selectPlayerFromTeam s h eligibleBluePlayers Team.blue rnd 0 with
    | Throw e => (s, Throw e)
    | Ok (bluePlayer, k) =>
        match selectPlayerFromTeam s h eligibleRedPlayers Team.red rnd k with
        | Throw e => (s, Throw e)
        | Ok (redPlayer, _) =>
            let s := updatePlayerParticipation s (Player.id (h bluePlayer)) in
            let s := updatePlayerParticipation s (Player.id (h redPlayer)) in
            let s := updateFactors s in
            (s, Ok (bluePlayer, redPlayer))
        end
    end.

(* ================================================================== *)
(** ** Game service ([services/gameService.ts]) *)

Module QuestionData.
Record t := mk {
  question : string;
  correctAnswer : string;
  incorrectAnswer : string;
}.
End QuestionData.

Definition SAMPLE_QUESTIONS : list QuestionData.t := [
  QuestionData.mk "¿Qué apodo tenía Fabrizio cuando chico?" "Fay" "Caballero";
  QuestionData.mk "¿A qué edad tomó por primera vez Fabrizio?" "18" "16";
  QuestionData.mk "¿Cuál es el segundo nombre de Fabrizio?" "Giordano" "Lorenzo";
  QuestionData.mk "¿Cómo se llama el abuelo de Fabrizio?" "Francisco" "Giordano";
  QuestionData.mk "¿A qué edad sacó la licencia de conducir Fabrizio?" "24" "19";
  QuestionData.mk "¿Cuál es la comida favorita de Fabrizio?" "Lasaña"
    "Pastel de choclo";
  QuestionData.mk "¿En qué comuna nació Fabrizio?" "Providencia" "Recoleta";
  QuestionData.mk "¿Cuántas veces ha viajado en avión Fabrizio?" "0" "2"
].

Definition lastQuestion : QuestionData.t :=
  QuestionData.mk "¿Cuántas veces ha viajado en avión Fabrizio?" "0" "2".

(** [lobby.players.find((p) => p.id === playerId)]: a reference to the
    first player object of the roster with that id. *)
Definition findPlayer (h : heap) (players : list loc) (playerId : string)
  : option loc :=
  snd <$> list_find (λ p, Player.id (h p) = playerId) players.

Definition findOption (options : list RoundOption.t) (optionId : string)
  : option RoundOption.t :=
  snd <$> list_find (λ o, RoundOption.id o = optionId) options.

Definition getCurrentRound (gameState : BullGameState.t) : option BullRound.t :=
  snd <$> list_find
    (λ r, BullRound.number r = BullGameState.currentRound gameState)
    (BullGameState.rounds gameState).

(** A write through the reference that [getCurrentRound] returned: the
    first round of the history with the current number is replaced. *)
Definition setCurrentRound (gameState : BullGameState.t) (r : BullRound.t)
  : BullGameState.t :=
  match list_find
          (λ r, BullRound.number r = BullGameState.currentRound gameState)
          (BullGameState.rounds gameState) with
  | Some (i, _) =>
      BullGameState.set_rounds (<[i := r]> (BullGameState.rounds gameState))
        gameState
  | None => gameState
  end.

Definition startGame (sel : PlayerSelector.t) (h : heap) (lobby : Lobby.t)
  : result (BullGameState.t * PlayerSelector.t * Lobby.t) :=
  if bool_decide (Lobby.status lobby ≠ LobbyWaiting) then
    Throw (GameError "El juego ya ha comenzado" GAME_ALREADY_STARTED)
  else if bool_decide (length (Lobby.teams_blue lobby) = 0%nat
                       ∨ length (Lobby.teams_red lobby) = 0%nat) then
    Throw (GameError "Ambos equipos deben tener al menos un jugador"
             VALIDATION_ERROR)
  else
    let gameState :=
      BullGameState.mk 1 (GameSettings.maxRounds (Lobby.settings lobby))
        waiting [] (Scores.mk 0 0) None in
    let sel := initialize h (Lobby.teams_blue lobby) (Lobby.teams_red lobby) in
    let lobby := Lobby.set_gameState (Some gameState) lobby in
    let lobby := Lobby.set_status LobbyPlaying lobby in
    Ok (gameState, sel, lobby).

(** [startRound] returns the selector next to the outcome: the selection
    call mutates it before it can throw. *)
Definition startRound (sel : PlayerSelector.t) (h : heap) (lobby : Lobby.t)
    (roundNumber : Z) (rnd : nat → Q)
  : PlayerSelector.t * result (BullRound.t * Lobby.t) :=
  match Lobby.gameState lobby with
  | None => (sel, Throw (GameError "El juego no ha sido iniciado" INVALID_PHASE))
  | Some gameState =>
      if bool_decide (roundNumber > GameSettings.maxRounds (Lobby.settings lobby))
      then (sel, Throw (GameError "Número de ronda inválido" VALIDATION_ERROR))
      else
        let questionIndex := roundNumber - 1 in
        let questionData :=
          default lastQuestion (js_index SAMPLE_QUESTIONS questionIndex) in
        let hostId := Lobby.hostId lobby in
        match selectPlayersForRound sel h (Lobby.teams_blue lobby)
                (Lobby.teams_red lobby) (Some hostId) rnd with
        | (sel, Throw e) => (sel, Throw e)
        | (sel, Ok (bluePlayer, redPlayer)) =>
            let round :=
              BullRound.mk roundNumber
                (QuestionData.question questionData)
                (QuestionData.correctAnswer questionData)
                (QuestionData.incorrectAnswer questionData)
                bluePlayer redPlayer [] [] [] [] answering [] in
            let gameState :=
              BullGameState.set_rounds
                (BullGameState.rounds gameState ++ [round]) gameState in
            let gameState := BullGameState.set_currentRound roundNumber gameState in
            let gameState := BullGameState.set_phase writing gameState in
            (sel, Ok (round, Lobby.set_gameState (Some gameState) lobby))
        end
  end.

Section GameServiceStrings.
Context `{JsString}.

Definition submitAnswer (h : heap) (lobby : Lobby.t)
    (playerId answer : string) : result Lobby.t :=
  match Lobby.gameState lobby with
  | None => Throw (GameError "El juego no ha sido iniciado" INVALID_PHASE)
  | Some gameState =>
      if bool_decide (BullGameState.phase gameState ≠ writing) then
        Throw (GameError "No es momento de escribir respuestas" INVALID_PHASE)
      else
        match getCurrentRound gameState with
        | None => Throw (GameError "No hay ronda activa" INVALID_PHASE)
        | Some currentRound =>
            if truthy_string
                 (obj_get (BullRound.playerAnswers currentRound) playerId)
            then
              Throw (GameError "Ya has enviado tu respuesta" ALREADY_SUBMITTED)
            else
              let isSelectedPlayer :=
                bool_decide
                  (Player.id (h (BullRound.selectedPlayers_blue currentRound))
                   = playerId)
                || bool_decide
                     (Player.id (h (BullRound.selectedPlayers_red currentRound))
                      = playerId) in
              if negb isSelectedPlayer then
                Throw (GameError
                  "Solo los jugadores seleccionados pueden responder en esta ronda"
                  INVALID_PHASE)
              else
                let trimmedAnswer := trim answer in
                let correctAnswer :=
                  toLowerCase (BullRound.correctAnswer currentRound) in
                let incorrectAnswer :=
                  toLowerCase (BullRound.incorrectAnswer currentRound) in
                let userAnswer := toLowerCase trimmedAnswer in
                if bool_decide (userAnswer = correctAnswer) then
                  Throw (GameError
                    "Tu respuesta no puede ser igual a la respuesta correcta"
                    VALIDATION_ERROR)
                else if bool_decide (userAnswer = incorrectAnswer) then
                  Throw (GameError
                    "Tu respuesta no puede ser igual a la respuesta incorrecta predefinida"
                    VALIDATION_ERROR)
                else if bool_decide (String.length trimmedAnswer = 0%nat) then
                  Throw (GameError "La respuesta no puede estar vacía"
                           VALIDATION_ERROR)
                else
                  let currentRound :=
                    BullRound.set_playerAnswers
                      (obj_set (BullRound.playerAnswers currentRound) playerId
                         trimmedAnswer)
                      currentRound in
                  Ok (Lobby.set_gameState
                        (Some (setCurrentRound gameState currentRound)) lobby)
        end
  end.
End GameServiceStrings.

Definition markPlayerReady (h : heap) (lobby : Lobby.t) (playerId : string)
  : result Lobby.t :=
  match Lobby.gameState lobby with
  | None => Throw (GameError "El juego no ha sido iniciado" INVALID_PHASE)
  | Some gameState =>
      match getCurrentRound gameState with
      | None => Throw (GameError "No hay ronda activa" INVALID_PHASE)
      | Some currentRound =>
          let isSelectedPlayer :=
            bool_decide
              (Player.id (h (BullRound.selectedPlayers_blue currentRound))
               = playerId)
            || bool_decide
                 (Player.id (h (BullRound.selectedPlayers_red currentRound))
                  = playerId) in
          if negb isSelectedPlayer then
            Throw (GameError
              "Solo los jugadores seleccionados pueden marcar listo"
              INVALID_PHASE)
          else if negb (truthy_string
                          (obj_get (BullRound.playerAnswers currentRound)
                             playerId)) then
            Throw (GameError
              "Debes enviar una respuesta antes de marcar listo"
              VALIDATION_ERROR)
          else
            let currentRound :=
              BullRound.set_playersReady
                (obj_set (BullRound.playersReady currentRound) playerId true)
                currentRound in
            Ok (Lobby.set_gameState
                  (Some (setCurrentRound gameState currentRound)) lobby)
      end
  end.

Definition allPlayersReady (h : heap) (lobby : Lobby.t) : bool :=
  match Lobby.gameState lobby with
  | None => false
  | Some gameState =>
      match getCurrentRound gameState with
      | None => false
      | Some currentRound =>
          let blueReady :=
            default false
              (obj_get (BullRound.playersReady currentRound)
                 (Player.id (h (BullRound.selectedPlayers_blue currentRound)))) in
          let redReady :=
            default false
              (obj_get (BullRound.playersReady currentRound)
                 (Player.id (h (BullRound.selectedPlayers_red currentRound)))) in
          blueReady && redReady
      end
  end.

Definition allAnswersSubmitted (lobby : Lobby.t) : bool :=
  match Lobby.gameState lobby with
  | None => false
  | Some gameState =>
      match getCurrentRound gameState with
      | None => false
      | Some currentRound =>
          let expectedAnswers := 2%nat in
          let submittedCount :=
            length (obj_keys (BullRound.playerAnswers currentRound)) in
          bool_decide (expectedAnswers ≤ submittedCount)%nat
      end
  end.

Global Instance OptionOrigin_eq_dec : EqDecision OptionOrigin.
Proof. solve_decision. Defined.

Definition dummyAnswers : list string :=
  ["Respuesta placeholder 1"; "Respuesta placeholder 2";
   "Respuesta placeholder 3"].

(** [for (const [playerId, answer] of Object.entries(playerAnswers))]; the
    [k]-th call of [generateUUID] returns [uuid k]. *)
Fixpoint pushPlayerAnswers (uuid : nat → string) (k : nat)
    (entries : list (string * string)) (options : list RoundOption.t)
  : list RoundOption.t * nat :=
  match entries with
  | [] => (options, k)
  | (playerId, answer) :: rest =>
      pushPlayerAnswers uuid (S k) rest
        (options ++ [RoundOption.mk (uuid k) answer (OriginPlayer playerId) 0])
  end.

(** [while (options.length < ROUND_OPTIONS_COUNT)]: every turn adds one
    option, so [ROUND_OPTIONS_COUNT] turns always reach the exit
    ([fillDummy_length]). *)
Fixpoint fillDummy (fuel : nat) (uuid : nat → string) (k : nat)
    (options : list RoundOption.t) : list RoundOption.t :=
  match fuel with
  | O => options
  | S fuel =>
      if bool_decide (length options < ROUND_OPTIONS_COUNT)%nat then
        fillDummy fuel uuid (S k)
          (options ++
           [RoundOption.mk (uuid k)
              (default "Respuesta placeholder"%string
                 (js_index dummyAnswers (Z.of_nat (length options) - 2)))
              OriginIncorrect 0])
      else options
  end.

(** The option list before [slice] and shuffle. *)
Definition assembleOptions (uuid : nat → string) (currentRound : BullRound.t)
  : list RoundOption.t :=
  let options :=
    [RoundOption.mk (uuid 0%nat) (BullRound.correctAnswer currentRound)
       OriginCorrect 0;
     RoundOption.mk (uuid 1%nat) (BullRound.incorrectAnswer currentRound)
       OriginIncorrect 0] in
  let '(options, k) :=
    pushPlayerAnswers uuid 2 (BullRound.playerAnswers currentRound) options in
  fillDummy ROUND_OPTIONS_COUNT uuid k options.

Definition assignPositions (finalOptions : list RoundOption.t)
  : list RoundOption.t :=
  imap (λ index option, RoundOption.set_position (Z.of_nat index + 1) option)
    finalOptions.

Definition prepareVotingOptions (uuid : nat → string) (rnd : nat → Q)
    (lobby : Lobby.t) : result (list RoundOption.t * Lobby.t) :=
  match Lobby.gameState lobby with
  | None => Throw (GameError "El juego no ha sido iniciado" INVALID_PHASE)
  | Some gameState =>
      match getCurrentRound gameState with
      | None => Throw (GameError "No hay ronda activa" INVALID_PHASE)
      | Some currentRound =>
          let options := assembleOptions uuid currentRound in
          let finalOptions :=
            assignPositions
              (shuffleArray rnd (take ROUND_OPTIONS_COUNT options)) in
          let currentRound := BullRound.set_options finalOptions currentRound in
          let gameState := setCurrentRound gameState currentRound in
          let gameState := BullGameState.set_phase voting gameState in
          Ok (finalOptions, Lobby.set_gameState (Some gameState) lobby)
      end
  end.

Definition submitVote (lobby : Lobby.t) (playerId optionId : string)
  : result Lobby.t :=
  match Lobby.gameState lobby with
  | None => Throw (GameError "El juego no ha sido iniciado" INVALID_PHASE)
  | Some gameState =>
      if bool_decide (BullGameState.phase gameState ≠ voting) then
        Throw (GameError "No es momento de votar" INVALID_PHASE)
      else
        match getCurrentRound gameState with
        | None => Throw (GameError "No hay ronda activa" INVALID_PHASE)
        | Some currentRound =>
            match findOption (BullRound.options currentRound) optionId with
            | None =>
                Throw (GameError "Opción de voto inválida" VALIDATION_ERROR)
            | Some _ =>
                if truthy_string (obj_get (BullRound.votes currentRound) playerId)
                then Throw (GameError "Ya has votado" ALREADY_SUBMITTED)
                else
                  let currentRound :=
                    BullRound.set_votes
                      (obj_set (BullRound.votes currentRound) playerId optionId)
                      currentRound in
                  Ok (Lobby.set_gameState
                        (Some (setCurrentRound gameState currentRound)) lobby)
            end
        end
  end.

Definition allVotesSubmitted (h : heap) (lobby : Lobby.t) : bool :=
  match Lobby.gameState lobby with
  | None => false
  | Some gameState =>
      match getCurrentRound gameState with
      | None => false
      | Some currentRound =>
          let connectedPlayers :=
            filter (λ p, Player.isConnected (h p) = true) (Lobby.players lobby) in
          let eligibleVoters := connectedPlayers in
          let votedCount := length (obj_keys (BullRound.votes currentRound)) in
          bool_decide (length eligibleVoters ≤ votedCount)%nat
      end
  end.

(** What the two loops of [calculateRoundResults] write to: the result
    being built, the round's [pointsAwarded] and the player objects. *)
Module Calc.
Record t := mk {
  votes : obj VoteResult.t;
  pointsAwarded : obj Z;
  newScores : Scores.t;
  confusionResults : obj (list string);
  roundPoints : obj Z;
  store : heap;
}.
End Calc.

Definition addTeamScore (s : Scores.t) (tm : option Team.t) (n : Z) : Scores.t :=
  match tm with
  | Some tm => Scores.add s tm n
  | None => s
  end.

Definition addPlayerScore (h : heap) (p : loc) (n : Z) : heap :=
  <[p := Player.set_score (Player.score (h p) + n) (h p)]> h.

(** Body of [for (const [playerId, optionId] of Object.entries(votes))]. *)
Definition processVote (lobby : Lobby.t) (currentRound : BullRound.t)
    (correctOption : RoundOption.t) (st : Calc.t) (vote : string * string)
  : Calc.t :=
  let '(playerId, optionId) := vote in
  match findPlayer (Calc.store st) (Lobby.players lobby) playerId with
  | None => st
  | Some player =>
      match findOption (BullRound.options currentRound) optionId with
      | None => st
      | Some votedOption =>
          let isCorrect := bool_decide (optionId = RoundOption.id correctOption) in
          let pointsEarned :=
            if isCorrect
            then 0 + GameSettings.pointsCorrectAnswer (Lobby.settings lobby)
            else 0 in
          Calc.mk
            (obj_set (Calc.votes st) playerId (VoteResult.mk optionId isCorrect))
            (obj_set (Calc.pointsAwarded st) playerId pointsEarned)
            (addTeamScore (Calc.newScores st)
               (Player.team (Calc.store st player)) pointsEarned)
            (Calc.confusionResults st)
            (obj_set (Calc.roundPoints st) playerId pointsEarned)
            (addPlayerScore (Calc.store st) player pointsEarned)
      end
  end.

(** The callback of the last [filter]: not the author's own vote, and the
    voter is on the roster with a team that differs from the author's. *)
Definition isConfusedOpponent (h : heap) (lobby : Lobby.t)
    (authorId : string) (author : loc) (voterId : string) : bool :=
  if bool_decide (voterId = authorId) then false
  else
    match findPlayer h (Lobby.players lobby) voterId with
    | Some voter =>
        match Player.team (h voter) with
        | Some tm => bool_decide (Some tm ≠ Player.team (h author))
        | None => false
        end
    | None => false
    end.

Definition votersForThisOption (h : heap) (lobby : Lobby.t)
    (currentRound : BullRound.t) (option : RoundOption.t)
    (authorId : string) (author : loc) : list string :=
  filter (λ voterId, isConfusedOpponent h lobby authorId author voterId = true)
    (fst <$>
     filter (λ vote : string * string, vote.2 = RoundOption.id option)
       (BullRound.votes currentRound)).

(** Body of [for (const option of currentRound.options)]. *)
Definition processOption (lobby : Lobby.t) (currentRound : BullRound.t)
    (st : Calc.t) (option : RoundOption.t) : Calc.t :=
  match RoundOption.origin option with
  | OriginPlayer authorId =>
      match findPlayer (Calc.store st) (Lobby.players lobby) authorId with
      | None => st
      | Some author =>
          let voters :=
            votersForThisOption (Calc.store st) lobby currentRound option
              authorId author in
          if bool_decide (0 < length voters)%nat then
            let confusionPoints :=
              Z.of_nat (length voters)
              * GameSettings.pointsConfuseOpponent (Lobby.settings lobby) in
            Calc.mk
              (Calc.votes st)
              (obj_set (Calc.pointsAwarded st) authorId
                 (default 0 (obj_get (Calc.pointsAwarded st) authorId)
                  + confusionPoints))
              (addTeamScore (Calc.newScores st)
                 (Player.team (Calc.store st author)) confusionPoints)
              (obj_set (Calc.confusionResults st) authorId voters)
              (obj_set (Calc.roundPoints st) authorId
                 (default 0 (obj_get (Calc.roundPoints st) authorId)
                  + confusionPoints))
              (addPlayerScore (Calc.store st) author confusionPoints)
          else st
      end
  | _ => st
  end.

Definition findCorrectOption (options : list RoundOption.t)
  : option RoundOption.t :=
  snd <$> list_find (λ o, RoundOption.origin o = OriginCorrect) options.

Definition calculateRoundResults (h : heap) (lobby : Lobby.t)
  : result (RoundResult.t * heap * Lobby.t) :=
  match Lobby.gameState lobby with
  | None => Throw (GameError "El juego no ha sido iniciado" INVALID_PHASE)
  | Some gameState =>
      match getCurrentRound gameState with
      | None => Throw (GameError "No hay ronda activa" INVALID_PHASE)
      | Some currentRound =>
          match findCorrectOption (BullRound.options currentRound) with
          | None =>
              Throw (GameError "No se encontró la respuesta correcta"
                       VALIDATION_ERROR)
          | Some correctOption =>
              let st :=
                Calc.mk [] [] (BullGameState.scores gameState) []
                  (BullRound.pointsAwarded currentRound) h in
              let st :=
                fold_left (processVote lobby currentRound correctOption)
                  (BullRound.votes currentRound) st in
              let st :=
                fold_left (processOption lobby currentRound)
                  (BullRound.options currentRound) st in
              let result :=
                RoundResult.mk (BullRound.number currentRound)
                  (BullRound.question currentRound)
                  (RoundOption.id correctOption)
                  (Calc.votes st) (Calc.pointsAwarded st) (Calc.newScores st)
                  (Calc.confusionResults st) in
              let currentRound :=
                BullRound.set_status RoundFinished
                  (BullRound.set_pointsAwarded (Calc.roundPoints st) currentRound) in
              let gameState := setCurrentRound gameState currentRound in
              let gameState :=
                BullGameState.set_scores (RoundResult.newScores result) gameState in
              let gameState := BullGameState.set_phase results gameState in
              Ok (result, Calc.store st,
                  Lobby.set_gameState (Some gameState) lobby)
          end
      end
  end.

Definition isGameFinished (lobby : Lobby.t) : bool :=
  match Lobby.gameState lobby with
  | None => false
  | Some gameState =>
      bool_decide (BullGameState.currentRound gameState
                   >= GameSettings.maxRounds (Lobby.settings lobby))
  end.

Definition finishGame (lobby : Lobby.t)
  : result (Team.t * Scores.t * Lobby.t) :=
  match Lobby.gameState lobby with
  | None => Throw (GameError "El juego no ha sido iniciado" INVALID_PHASE)
  | Some gameState =>
      let gameState := BullGameState.set_phase finished gameState in
      let lobby := Lobby.set_status LobbyFinished lobby in
      let blue := Scores.blue (BullGameState.scores gameState) in
      let red := Scores.red (BullGameState.scores gameState) in
      let winner :=
        if bool_decide (blue > red) then Team.blue
        else if bool_decide (red > blue) then Team.red
        else Team.blue in
      let gameState := BullGameState.set_winner (Some winner) gameState in
      Ok (winner, BullGameState.scores gameState,
          Lobby.set_gameState (Some gameState) lobby)
  end.

Definition resetGame (h : heap) (lobby : Lobby.t) : heap * Lobby.t :=
  let lobby := Lobby.set_gameState None lobby in
  let lobby := Lobby.set_status LobbyWaiting lobby in
  (fold_left
     (λ h player,
        <[player := Player.set_isReady false (Player.set_score 0 (h player))]> h)
     (Lobby.players lobby) h,
   lobby).

Definition getGameStateForPlayer (lobby : Lobby.t) (playerId : string)
  : option BullGameState.t :=
  Lobby.gameState lobby.

(* ================================================================== *)
(** ** Lobby code generation ([utils/codeGenerator.ts]) *)

(** The [do ... while] of [generateUniqueLobbyCode]; the [k]-th call of
    [generateLobbyCode] returns [codes k].  The attempt counter throws on
    turn 101 at the latest, before the fuel runs out. *)
Fixpoint generateUniqueLobbyCode_loop (fuel : nat) (codes : nat → string)
    (attempts : nat) (existingCodes : list string) : result string :=
  match fuel with
  | O =>
      Throw (Error
        "No se pudo generar un código único después de múltiples intentos")
  | S fuel =>
      let code := codes attempts in
      let attempts := S attempts in
      if bool_decide (100 < attempts)%nat then
        Throw (Error
          "No se pudo generar un código único después de múltiples intentos")
      else if bool_decide (code ∈ existingCodes) then
        generateUniqueLobbyCode_loop fuel codes attempts existingCodes
      else Ok code
  end.

Definition generateUniqueLobbyCode (codes : nat → string)
    (existingCodes : list string) : result string :=
  generateUniqueLobbyCode_loop 101 codes 0 existingCodes.

Definition isValidLobbyCode (code : string) : bool :=
  if bool_decide (String.length code ≠ LOBBY_CODE_LENGTH) then false
  else
    forallb
      (λ char, existsb (Ascii.eqb char) (String.list_ascii_of_string LOBBY_CODE_CHARS))
      (String.list_ascii_of_string code).

Definition normalizeLobbyCode `{JsString} (code : string) : string :=
  trim (toUpperCase code).

(* ================================================================== *)
(** ** Lobby service ([services/lobbyService.ts]) and the process state *)

(** The process state: the object store with its allocation pointer, the
    lobby service's [lobbies] map and the game service's one selector. *)
Module World.
Record t := mk {
  store : heap;
  next : loc;
  lobbies : obj Lobby.t;
  playerSelector : PlayerSelector.t;
}.
Definition set_store (v : heap) (w : t) : t :=
  mk v (next w) (lobbies w) (playerSelector w).
Definition set_lobbies (v : obj Lobby.t) (w : t) : t :=
  mk (store w) (next w) v (playerSelector w).
Definition set_playerSelector (v : PlayerSelector.t) (w : t) : t :=
  mk (store w) (next w) (lobbies w) v.
(** A lobby object mutated in place stays under the key it was found
    under. *)
Definition put_lobby (code : string) (l : Lobby.t) (w : t) : t :=
  set_lobbies (obj_set (lobbies w) code l) w.
End World.

Definition emptyPlayer : Player.t :=
  Player.mk "" "" None false "" 0 false false.

Definition World_init : World.t :=
  World.mk (λ _, emptyPlayer) 0%nat [] PlayerSelector.new.

(** [Partial<GameSettings>] *)
Module PartialSettings.
Record t := mk {
  maxRounds : option Z;
  answerTimeSeconds : option Z;
  voteTimeSeconds : option Z;
  pointsCorrectAnswer : option Z;
  pointsConfuseOpponent : option Z;
}.
(** [{ ...settings, ...partial }] *)
Definition merge (s : GameSettings.t) (p : t) : GameSettings.t :=
  GameSettings.mk
    (default (GameSettings.maxRounds s) (maxRounds p))
    (default (GameSettings.answerTimeSeconds s) (answerTimeSeconds p))
    (default (GameSettings.voteTimeSeconds s) (voteTimeSeconds p))
    (default (GameSettings.pointsCorrectAnswer s) (pointsCorrectAnswer p))
    (default (GameSettings.pointsConfuseOpponent s) (pointsConfuseOpponent p)).
End PartialSettings.

Definition getLobby (w : World.t) (code : string) : result Lobby.t :=
  match obj_get (World.lobbies w) code with
  | None => Throw (LobbyError "Lobby no encontrado" LOBBY_NOT_FOUND 404)
  | Some lobby => Ok lobby
  end.

Definition getPlayer (w : World.t) (lobby : Lobby.t) (playerId : string)
  : result loc :=
  match findPlayer (World.store w) (Lobby.players lobby) playerId with
  | None => Throw (LobbyError "Jugador no encontrado" PLAYER_NOT_FOUND 404)
  | Some player => Ok player
  end.

Definition createLobby (w : World.t) (hostName socketId : string)
    (codes : nat → string) (uuid : string)
  : result (Lobby.t * string * World.t) :=
  if bool_decide (100 ≤ length (World.lobbies w))%nat then
    Throw (LobbyError "El servidor está lleno. Intenta más tarde."
             SERVER_FULL 503)
  else
    lobbyCode ← generateUniqueLobbyCode codes (obj_keys (World.lobbies w));
    let hostId := uuid in
    let lobby :=
      Lobby.mk lobbyCode hostId socketId [] [] [] LobbyWaiting None
        DEFAULT_GAME_SETTINGS in
    Ok (lobby, hostId,
        World.set_lobbies (obj_set (World.lobbies w) lobbyCode lobby) w).

Section LobbyServiceStrings.
Context `{JsString}.

Definition joinLobby (w : World.t) (code playerName socketId : string)
    (uuid : string) : result (Lobby.t * string * World.t) :=
  let normalizedCode := normalizeLobbyCode code in
  if negb (isValidLobbyCode normalizedCode) then
    Throw (LobbyError "Código de lobby inválido" VALIDATION_ERROR 400)
  else
    match obj_get (World.lobbies w) normalizedCode with
    | None => Throw (LobbyError "Lobby no encontrado" LOBBY_NOT_FOUND 404)
    | Some lobby =>
        if bool_decide (Lobby.status lobby ≠ LobbyWaiting) then
          Throw (LobbyError "El juego ya ha comenzado" GAME_ALREADY_STARTED 400)
        else if bool_decide (MAX_PLAYERS_PER_LOBBY
                             ≤ Z.of_nat (length (Lobby.players lobby))) then
          Throw (LobbyError "El lobby está lleno" LOBBY_FULL 400)
        else
          let existingNames :=
            (λ p, toLowerCase (Player.name (World.store w p)))
              <$> Lobby.players lobby in
          if bool_decide (toLowerCase playerName ∈ existingNames) then
            Throw (LobbyError "Ya hay un jugador con ese nombre"
                     VALIDATION_ERROR 400)
          else
            let playerId := uuid in
            let newPlayer :=
              Player.mk playerId playerName None false socketId 0 false true in
            let p := World.next w in
            let lobby :=
              Lobby.set_players (Lobby.players lobby ++ [p]) lobby in
            Ok (lobby, playerId,
                World.mk (<[p := newPlayer]> (World.store w)) (S p)
                  (obj_set (World.lobbies w) normalizedCode lobby)
                  (World.playerSelector w))
    end.
End LobbyServiceStrings.

(** Returns [{ lobby, wasHost }] and the state; never throws. *)
Definition leaveLobby (w : World.t) (code playerId : string)
  : option Lobby.t * bool * World.t :=
  match obj_get (World.lobbies w) code with
  | None => (None, false, w)
  | Some lobby =>
      let h := World.store w in
      match list_find (λ p, Player.id (h p) = playerId) (Lobby.players lobby) with
      | None => (Some lobby, false, w)
      | Some (playerIndex, leavingPlayer) =>
          let wasHost := Player.isHost (h leavingPlayer) in
          let lobby :=
            match Player.team (h leavingPlayer) with
            | Some tm =>
                Lobby.set_teams tm
                  (filter (λ p, Player.id (h p) ≠ playerId) (Lobby.teams lobby tm))
                  lobby
            | None => lobby
            end in
          let lobby :=
            Lobby.set_players (delete playerIndex (Lobby.players lobby)) lobby in
          let '(h, lobby) :=
            match Lobby.players lobby with
            | newHost :: _ =>
                if wasHost then
                  (<[newHost := Player.set_isHost true (h newHost)]> h,
                   Lobby.set_hostId (Player.id (h newHost)) lobby)
                else (h, lobby)
            | [] => (h, lobby)
            end in
          if bool_decide (length (Lobby.players lobby) = 0%nat) then
            (None, wasHost,
             World.set_store h
               (World.set_lobbies (obj_delete (World.lobbies w) code) w))
          else
            (Some lobby, wasHost,
             World.set_store h
               (World.set_lobbies (obj_set (World.lobbies w) code lobby) w))
      end
  end.

Definition selectTeam (w : World.t) (code playerId : string) (tm : Team.t)
  : result (Lobby.t * World.t) :=
  lobby ← getLobby w code;
  player ← getPlayer w lobby playerId;
  let h := World.store w in
  if bool_decide (Lobby.status lobby ≠ LobbyWaiting) then
    Throw (LobbyError
      "No se puede cambiar de equipo después de que el juego haya comenzado"
      GAME_ALREADY_STARTED 400)
  else if bool_decide (4 ≤ length (Lobby.teams lobby tm))%nat then
    Throw (LobbyError ("El equipo " +:+ team_name tm +:+ " está lleno")
             LOBBY_FULL 400)
  else
    let lobby :=
      match Player.team (h player) with
      | Some old =>
          Lobby.set_teams old
            (filter (λ p, Player.id (h p) ≠ playerId) (Lobby.teams lobby old))
            lobby
      | None => lobby
      end in
    let h := <[player := Player.set_team (Some tm) (h player)]> h in
    let lobby := Lobby.set_teams tm (Lobby.teams lobby tm ++ [player]) lobby in
    Ok (lobby,
        World.set_store h
          (World.set_lobbies (obj_set (World.lobbies w) code lobby) w)).

Definition toggleReady (w : World.t) (code playerId : string)
  : result (Lobby.t * World.t) :=
  lobby ← getLobby w code;
  player ← getPlayer w lobby playerId;
  let h := World.store w in
  if bool_decide (Lobby.status lobby ≠ LobbyWaiting) then
    Throw (LobbyError
      "No se puede cambiar el estado ready después de que el juego haya comenzado"
      GAME_ALREADY_STARTED 400)
  else
    let h :=
      <[player := Player.set_isReady (negb (Player.isReady (h player))) (h player)]>
        h in
    Ok (lobby, World.set_store h w).

Definition updateGameSettings (w : World.t) (code hostId : string)
    (settings : PartialSettings.t) : result (Lobby.t * World.t) :=
  lobby ← getLobby w code;
  if bool_decide (Lobby.hostId lobby ≠ hostId) then
    Throw (LobbyError "Solo el host puede cambiar la configuración" NOT_HOST 403)
  else if bool_decide (Lobby.status lobby ≠ LobbyWaiting) then
    Throw (LobbyError
      "No se puede cambiar la configuración después de que el juego haya comenzado"
      GAME_ALREADY_STARTED 400)
  else
    let lobby :=
      Lobby.set_settings (PartialSettings.merge (Lobby.settings lobby) settings)
        lobby in
    Ok (lobby, World.set_lobbies (obj_set (World.lobbies w) code lobby) w).

Definition canStartGame (w : World.t) (code : string) : bool :=
  match obj_get (World.lobbies w) code with
  | None => false
  | Some lobby =>
      if bool_decide (Lobby.status lobby ≠ LobbyWaiting) then false
      else if bool_decide (Z.of_nat (length (Lobby.players lobby))
                           < MIN_PLAYERS_TO_START) then false
      else if bool_decide (length (Lobby.teams_blue lobby) = 0%nat
                           ∨ length (Lobby.teams_red lobby) = 0%nat) then false
      else
        let notReadyPlayers :=
          filter (λ p, Player.isReady (World.store w p) = false)
            (Lobby.players lobby) in
        if bool_decide (0 < length notReadyPlayers)%nat then false else true
  end.

Definition updatePlayerSocket (w : World.t) (code playerId socketId : string)
  : World.t :=
  match obj_get (World.lobbies w) code with
  | None => w
  | Some lobby =>
      let h := World.store w in
      match findPlayer h (Lobby.players lobby) playerId with
      | Some player =>
          World.set_store
            (<[player := Player.set_isConnected true
                           (Player.set_socketId socketId (h player))]> h) w
      | None => w
      end
  end.

(** [for (const lobby of this.lobbies.values())]: the first lobby, in
    insertion order, that holds a player with this socket. *)
Fixpoint markPlayerDisconnected_loop (h : heap) (lobbies : list Lobby.t)
    (socketId : string) : option (Lobby.t * loc) :=
  match lobbies with
  | [] => None
  | lobby :: rest =>
      match list_find (λ p, Player.socketId (h p) = socketId)
              (Lobby.players lobby) with
      | Some (_, player) => Some (lobby, player)
      | None => markPlayerDisconnected_loop h rest socketId
      end
  end.

Definition markPlayerDisconnected (w : World.t) (socketId : string)
  : option (Lobby.t * loc) * World.t :=
  let h := World.store w in
  match markPlayerDisconnected_loop h (obj_values (World.lobbies w)) socketId with
  | Some (lobby, player) =>
      (Some (lobby, player),
       World.set_store (<[player := Player.set_isConnected false (h player)]> h) w)
  | None => (None, w)
  end.

Definition getAllLobbies (w : World.t) : list Lobby.t :=
  obj_values (World.lobbies w).

(* ================================================================== *)
(** ** The operations as actions on the process state

    One action per public operation of the two services, applied to the
    lobby found under [code] the way the socket handlers do; plus the one
    direct write of the socket layer to a lobby, [currentRound++] in
    [startNextRound].  [perform] gives the state the action leaves, also
    when the operation throws. *)

Inductive Action :=
| CreateLobby (hostName socketId : string) (codes : nat → string) (uuid : string)
| JoinLobby (code playerName socketId uuid : string)
| LeaveLobby (code playerId : string)
| SelectTeam (code playerId : string) (tm : Team.t)
| ToggleReady (code playerId : string)
| UpdateGameSettings (code hostId : string) (settings : PartialSettings.t)
| UpdatePlayerSocket (code playerId socketId : string)
| MarkPlayerDisconnected (socketId : string)
| StartGame (code : string)
| StartRound (code : string) (roundNumber : Z) (rnd : nat → Q)
| SubmitAnswer (code playerId answer : string)
| MarkPlayerReady (code playerId : string)
| PrepareVotingOptions (code : string) (uuid : nat → string) (rnd : nat → Q)
| SubmitVote (code playerId optionId : string)
| CalculateRoundResults (code : string)
| FinishGame (code : string)
| ResetGame (code : string)
| IncrementCurrentRound (code : string).

Section Perform.
Context `{JsString}.

Definition onLobby (w : World.t) (code : string)
    (f : Lobby.t → World.t) : World.t :=
  match getLobby w code with
  | Ok lobby => f lobby
  | Throw _ => w
  end.

Definition perform (w : World.t) (a : Action) : World.t :=
  match a with
  | CreateLobby hostName socketId codes uuid =>
      match createLobby w hostName socketId codes uuid with
      | Ok (_, _, w') => w'
      | Throw _ => w
      end
  | JoinLobby code playerName socketId uuid =>
      match joinLobby w code playerName socketId uuid with
      | Ok (_, _, w') => w'
      | Throw _ => w
      end
  | LeaveLobby code playerId => (leaveLobby w code playerId).2
  | SelectTeam code playerId tm =>
      match selectTeam w code playerId tm with
      | Ok (_, w') => w'
      | Throw _ => w
      end
  | ToggleReady code playerId =>
      match toggleReady w code playerId with
      | Ok (_, w') => w'
      | Throw _ => w
      end
  | UpdateGameSettings code hostId settings =>
      match updateGameSettings w code hostId settings with
      | Ok (_, w') => w'
      | Throw _ => w
      end
  | UpdatePlayerSocket code playerId socketId =>
      updatePlayerSocket w code playerId socketId
  | MarkPlayerDisconnected socketId => (markPlayerDisconnected w socketId).2
  | StartGame code =>
      onLobby w code (λ lobby,
        match startGame (World.playerSelector w) (World.store w) lobby with
        | Ok (_, sel, lobby) =>
            World.put_lobby code lobby (World.set_playerSelector sel w)
        | Throw _ => w
        end)
  | StartRound code roundNumber rnd =>
      onLobby w code (λ lobby,
        match startRound (World.playerSelector w) (World.store w) lobby
                roundNumber rnd with
        | (sel, Ok (_, lobby)) =>
            World.put_lobby code lobby (World.set_playerSelector sel w)
        | (sel, Throw _) => World.set_playerSelector sel w
        end)
  | SubmitAnswer code playerId answer =>
      onLobby w code (λ lobby,
        match submitAnswer (World.store w) lobby playerId answer with
        | Ok lobby => World.put_lobby code lobby w
        | Throw _ => w
        end)
  | MarkPlayerReady code playerId =>
      onLobby w code (λ lobby,
        match markPlayerReady (World.store w) lobby playerId with
        | Ok lobby => World.put_lobby code lobby w
        | Throw _ => w
        end)
  | PrepareVotingOptions code uuid rnd =>
      onLobby w code (λ lobby,
        match prepareVotingOptions uuid rnd lobby with
        | Ok (_, lobby) => World.put_lobby code lobby w
        | Throw _ => w
        end)
  | SubmitVote code playerId optionId =>
      onLobby w code (λ lobby,
        match submitVote lobby playerId optionId with
        | Ok lobby => World.put_lobby code lobby w
        | Throw _ => w
        end)
  | CalculateRoundResults code =>
      onLobby w code (λ lobby,
        match calculateRoundResults (World.store w) lobby with
        | Ok (_, h, lobby) => World.put_lobby code lobby (World.set_store h w)
        | Throw _ => w
        end)
  | FinishGame code =>
      onLobby w code (λ lobby,
        match finishGame lobby with
        | Ok (_, _, lobby) => World.put_lobby code lobby w
        | Throw _ => w
        end)
  | ResetGame code =>
      onLobby w code (λ lobby,
        let '(h, lobby) := resetGame (World.store w) lobby in
        World.put_lobby code lobby (World.set_store h w))
  | IncrementCurrentRound code =>
      onLobby w code (λ lobby,
        match Lobby.gameState lobby with
        | Some gameState =>
            World.put_lobby code
              (Lobby.set_gameState
                 (Some (BullGameState.set_currentRound
                          (BullGameState.currentRound gameState + 1) gameState))
                 lobby) w
        | None => w
        end)
  end.

Definition run (actions : list Action) : World.t :=
  fold_left perform actions World_init.
End Perform.

(* ================================================================== *)
(** ** The string primitives on ASCII text, and a sample session

    Used to run the operations on concrete inputs. *)

Definition ascii_toLower (c : Ascii.ascii) : Ascii.ascii :=
  let n := Ascii.nat_of_ascii c in
  if (65 <=? n)%nat && (n <=? 90)%nat then Ascii.ascii_of_nat (n + 32) else c.

Definition ascii_toUpper (c : Ascii.ascii) : Ascii.ascii :=
  let n := Ascii.nat_of_ascii c in
  if (97 <=? n)%nat && (n <=? 122)%nat then Ascii.ascii_of_nat (n - 32) else c.

Definition ascii_isSpace (c : Ascii.ascii) : bool :=
  let n := Ascii.nat_of_ascii c in
  (n =? 32)%nat || ((9 <=? n)%nat && (n <=? 13)%nat).

Fixpoint string_map (f : Ascii.ascii → Ascii.ascii) (s : string) : string :=
  match s with
  | EmptyString => EmptyString
  | String c s => String (f c) (string_map f s)
  end.

Fixpoint trimStart (s : string) : string :=
  match s with
  | EmptyString => EmptyString
  | String c s' => if ascii_isSpace c then trimStart s' else s
  end.

Definition ascii_trim (s : string) : string :=
  String.rev (trimStart (String.rev (trimStart s))).

Definition AsciiStrings : JsString :=
  {| trim := ascii_trim;
     toLowerCase := string_map ascii_toLower;
     toUpperCase := string_map ascii_toUpper |}.

Definition sample_rnd : nat → Q := λ _, (1 # 2)%Q.
Definition sample_uuid : nat → string :=
  λ k, nth k ["o-0"; "o-1"; "o-2"; "o-3"; "o-4"; "o-5"]%string "o-x"%string.

(** Ana opens a lobby; Beto and Caro join, take opposite teams and get
    ready; the host starts the game. *)
Definition sample_lobby_actions : list Action := [
  CreateLobby "Ana" "s0" (λ _, "ABC123"%string) "host-0";
  JoinLobby "abc123" "Beto" "s1" "p-1";
  JoinLobby "ABC123" "Caro" "s2" "p-2";
  SelectTeam "ABC123" "p-1" Team.blue;
  SelectTeam "ABC123" "p-2" Team.red;
  ToggleReady "ABC123" "p-1";
  ToggleReady "ABC123" "p-2"
].

Definition sample_started : World.t :=
  @run AsciiStrings (sample_lobby_actions ++ [StartGame "ABC123"]).

(** Round 1 is open and Beto has sent his answer. *)
Definition sample_writing : World.t :=
  fold_left (@perform AsciiStrings)
    [StartRound "ABC123" 1 sample_rnd;
     SubmitAnswer "ABC123" "p-1" "  Fabri "]
    sample_started.

(** Options are prepared and both players have voted. *)
Definition sample_voted (blueVote redVote : string) : World.t :=
  fold_left (@perform AsciiStrings)
    [PrepareVotingOptions "ABC123" sample_uuid sample_rnd;
     SubmitVote "ABC123" "p-1" blueVote;
     SubmitVote "ABC123" "p-2" redVote]
    sample_writing.

(** Beto, the only blue player, leaves after the game has started. *)
Definition sample_blue_left : World.t :=
  @perform AsciiStrings sample_started (LeaveLobby "ABC123" "p-1").

Definition emptyLobby : Lobby.t :=
  Lobby.mk "" "" "" [] [] [] LobbyWaiting None DEFAULT_GAME_SETTINGS.

Definition lobbyOf (w : World.t) (code : string) : Lobby.t :=
  default emptyLobby (obj_get (World.lobbies w) code).

Definition emptyGameState : BullGameState.t :=
  BullGameState.mk 0 0 waiting [] (Scores.mk 0 0) None.

Definition emptyRound : BullRound.t :=
  BullRound.mk 0 "" "" "" 0%nat 0%nat [] [] [] [] answering [].

Definition emptyResult : RoundResult.t :=
  RoundResult.mk 0 "" "" [] [] (Scores.mk 0 0) [].

(** The lobby [ABC123] of a state, its game state and its current round. *)
Definition sampleLobby (w : World.t) : Lobby.t := lobbyOf w "ABC123".
Definition gameOf (lobby : Lobby.t) : BullGameState.t :=
  default emptyGameState (Lobby.gameState lobby).
Definition roundOf (lobby : Lobby.t) : BullRound.t :=
  default emptyRound (getCurrentRound (gameOf lobby)).

Definition unOk {A} (d : A) (r : result A) : A :=
  match r with Ok a => a | Throw _ => d end.

(** Caro has voted for Beto's answer and then left the lobby. *)
Definition sample_orphan : World.t :=
  @perform AsciiStrings (sample_voted "o-0" "o-2") (LeaveLobby "ABC123" "p-2").

(** The outcome of closing the round in a state. *)
Definition sampleResults (w : World.t) : RoundResult.t * heap * Lobby.t :=
  unOk (emptyResult, λ _, emptyPlayer, emptyLobby)
    (calculateRoundResults (World.store w) (sampleLobby w)).

(* ================================================================== *)
(** ** Vocabulary of the properties

    Definitions that follow the wording of the specification, to be
    compared below with what the code computes. *)

(** The candidate built from the [i]-th submitted answer. *)
Definition playerOption (uuid : nat → string) (i : nat) (e : string * string)
  : RoundOption.t :=
  RoundOption.mk (uuid (2 + i)%nat) e.2 (OriginPlayer e.1) 0.

(** The pool [selectPlayersForRound] draws from. *)
Definition eligiblePlayers (h : heap) (hostId : string) (players : list loc)
  : list loc :=
  if truthy_string (Some hostId)
  then filter (λ p, Player.id (h p) ≠ hostId) players
  else players.

(** The reading of C6 as it is worded: finished exactly when the round
    counter has reached [totalRounds] and the current round is closed. *)
Definition isGameFinished_when_round_closed (lobby : Lobby.t) : Prop :=
  ∀ gs,
    Lobby.gameState lobby = Some gs →
    (isGameFinished lobby = true
     ↔ BullGameState.currentRound gs >= BullGameState.totalRounds gs
       ∧ ∃ rd, getCurrentRound gs = Some rd
               ∧ BullRound.status rd = RoundFinished).

(** The conditions under which C5 says an answer is recorded. *)
Definition answerAccepted `{JsString} (h : heap) (lobby : Lobby.t)
    (playerId answer : string) (gs : BullGameState.t) (rd : BullRound.t)
  : Prop :=
  Lobby.gameState lobby = Some gs
  ∧ BullGameState.phase gs = writing
  ∧ getCurrentRound gs = Some rd
  ∧ (Player.id (h (BullRound.selectedPlayers_blue rd)) = playerId
     ∨ Player.id (h (BullRound.selectedPlayers_red rd)) = playerId)
  ∧ truthy_string (obj_get (BullRound.playerAnswers rd) playerId) = false
  ∧ trim answer ≠ ""%string
  ∧ toLowerCase (trim answer) ≠ toLowerCase (BullRound.correctAnswer rd)
  ∧ toLowerCase (trim answer) ≠ toLowerCase (BullRound.incorrectAnswer rd).

(** *** The participation factor, as the specification words it *)

Definition Zsum (l : list Z) : Z := foldr Z.add 0 l.


(** [2.0] if never played; otherwise
    [min(2.0, 1.0 + 0.2·(r − lastRoundPlayed))
     × max(0.1, 1.0 − 0.3·(timesPlayed / max(average, 1) − 1))]. *)
Definition participationFactor (r : Z) (average : Q)
    (p : PlayerParticipation.t) : Q :=
  if bool_decide (PlayerParticipation.lastRoundPlayed p = -1) then 2%Q
  else
    (Qmin 2 (1 + (2 # 10) * inject_Z (r - PlayerParticipation.lastRoundPlayed p))
     * Qmax (1 # 10)
         (1 - (3 # 10)
              * (inject_Z (PlayerParticipation.timesPlayed p) / Qmax average 1
                 - 1)))%Q.


(** What holds of every selector state the game service can build: the
    counter is not negative and nobody has played in a later round. *)
Definition selector_wf (s : PlayerSelector.t) : Prop :=
  0 ≤ PlayerSelector.currentRound s
  ∧ Forall
      (λ p, PlayerParticipation.lastRoundPlayed p ≤ PlayerSelector.currentRound s)
      (obj_values (PlayerSelector.participationHistory s)).

(** *** Scoring *)

(** Two stores that agree on every player's id and team; scoring only
    writes scores. *)
Definition same_identity (h h' : heap) : Prop :=
  ∀ l, Player.id (h' l) = Player.id (h l)
       ∧ Player.team (h' l) = Player.team (h l).

(** The points a vote for [optionId] earns its voter: the correct-answer
    points for the correct option, nothing otherwise (and nothing for an id
    that is not among the round's options). *)
Definition votePoints (lobby : Lobby.t) (rd : BullRound.t)
    (correctOption : RoundOption.t) (optionId : string) : Z :=
  match findOption (BullRound.options rd) optionId with
  | Some _ =>
      if bool_decide (optionId = RoundOption.id correctOption)
      then GameSettings.pointsCorrectAnswer (Lobby.settings lobby)
      else 0
  | None => 0
  end.

(** The correct-answer points a player earned with their own vote. *)
Definition ownVotePoints (lobby : Lobby.t) (rd : BullRound.t)
    (correctOption : RoundOption.t) (playerId : string) : Z :=
  match obj_get (BullRound.votes rd) playerId with
  | Some optionId => votePoints lobby rd correctOption optionId
  | None => 0
  end.

(** votersCount × settings.pointsConfuseOpponent *)
Definition confusionBonus (h : heap) (lobby : Lobby.t) (rd : BullRound.t)
    (o : RoundOption.t) (authorId : string) (author : loc) : Z :=
  Z.of_nat (length (votersForThisOption h lobby rd o authorId author))
  * GameSettings.pointsConfuseOpponent (Lobby.settings lobby).

(** What one vote adds to the total of team [tm]. *)
Definition teamVotePoints (h : heap) (lobby : Lobby.t) (rd : BullRound.t)
    (correctOption : RoundOption.t) (tm : Team.t) (vote : string * string) : Z :=
  match findPlayer h (Lobby.players lobby) vote.1 with
  | Some voter =>
      if bool_decide (Player.team (h voter) = Some tm)
      then votePoints lobby rd correctOption vote.2
      else 0
  | None => 0
  end.

(** What one option adds, as confusion bonus, to the total of team [tm]. *)
Definition teamConfusionBonus (h : heap) (lobby : Lobby.t) (rd : BullRound.t)
    (tm : Team.t) (o : RoundOption.t) : Z :=
  match RoundOption.origin o with
  | OriginPlayer authorId =>
      match findPlayer h (Lobby.players lobby) authorId with
      | Some author =>
          if bool_decide (Player.team (h author) = Some tm)
          then confusionBonus h lobby rd o authorId author
          else 0
      | None => 0
      end
  | _ => 0
  end.

(** A vote whose voter id matches a player of the roster. *)
Definition knownVoter (h : heap) (lobby : Lobby.t) (vote : string * string)
  : Prop :=
  is_Some (findPlayer h (Lobby.players lobby) vote.1).

Global Instance knownVoter_dec h lobby vote : Decision (knownVoter h lobby vote).
Proof. unfold knownVoter. apply _. Defined.

(** The lobby with the votes of the current round replaced. *)
Definition withVotes (lobby : Lobby.t) (votes : obj string) : Lobby.t :=
  match Lobby.gameState lobby with
  | Some gs =>
      match getCurrentRound gs with
      | Some rd =>
          Lobby.set_gameState
            (Some (setCurrentRound gs (BullRound.set_votes votes rd))) lobby
      | None => lobby
      end
  | None => lobby
  end.

(** Every key of the result maps is the id of a player of the roster, and
    every recorded confusion list holds such ids only. *)
Definition keys_known (h : heap) (lobby : Lobby.t) (st : Calc.t) : Prop :=
  (∀ k, k ∈ obj_keys (Calc.votes st) ∨ k ∈ obj_keys (Calc.pointsAwarded st)
        ∨ k ∈ obj_keys (Calc.confusionResults st) →
        is_Some (findPlayer h (Lobby.players lobby) k))
  ∧ (∀ a vs, (a, vs) ∈ Calc.confusionResults st →
             Forall (λ v, is_Some (findPlayer h (Lobby.players lobby) v)) vs).


(** The state the two loops of [calculateRoundResults] end in. *)
Definition scoringLoops (h : heap) (lobby : Lobby.t) (gs : BullGameState.t)
    (rd : BullRound.t) (correctOption : RoundOption.t) : Calc.t :=
  fold_left (processOption lobby rd) (BullRound.options rd)
    (fold_left (processVote lobby rd correctOption) (BullRound.votes rd)
       (Calc.mk [] [] (BullGameState.scores gs) []
          (BullRound.pointsAwarded rd) h)).

(** The score of the player object [la], and the points of the round and
    the confusion record under the id [a]. *)
Definition authorView (a : string) (la : loc) (st : Calc.t)
  : Z * option Z * option (list string) :=
  (Player.score (Calc.store st la),
   obj_get (Calc.pointsAwarded st) a,
   obj_get (Calc.confusionResults st) a).

(** *** Team lists *)

(** What holds of a lobby and the store it points into: its roster is
    allocated, and every object in a team list is the first object of the
    roster with its id and carries that team. *)
Definition lobby_teams_ok (h : heap) (next : loc) (lobby : Lobby.t) : Prop :=
  (∀ p, p ∈ Lobby.players lobby → (p < next)%nat)
  ∧ (∀ tm p, p ∈ Lobby.teams lobby tm →
       findPlayer h (Lobby.players lobby) (Player.id (h p)) = Some p
       ∧ Player.team (h p) = Some tm).

(** The invariant of the process state: every lobby of the registry is
    well formed, and no player object is on the roster of two lobbies. *)
Definition world_ok (w : World.t) : Prop :=
  (∀ code lobby, obj_get (World.lobbies w) code = Some lobby →
     lobby_teams_ok (World.store w) (World.next w) lobby)
  ∧ (∀ code1 lobby1 code2 lobby2 p,
       obj_get (World.lobbies w) code1 = Some lobby1 →
       obj_get (World.lobbies w) code2 = Some lobby2 →
       p ∈ Lobby.players lobby1 → p ∈ Lobby.players lobby2 → code1 = code2).

(** Two lobbies with the same roster and team lists. *)
Definition same_members (l l' : Lobby.t) : Prop :=
  Lobby.players l' = Lobby.players l
  ∧ Lobby.teams_blue l' = Lobby.teams_blue l
  ∧ Lobby.teams_red l' = Lobby.teams_red l.

(* ================================================================== *)
(** ** More of the utilities

    [getRandomElement] and [truncate] of [utils/helpers.ts],
    [generateLobbyCode] of [utils/codeGenerator.ts] and [sanitizeText] of
    [utils/validation.ts]. *)

Delimit Scope char_scope with char.
Import Ascii.AsciiSyntax.

(** [array[Math.floor(Math.random() * array.length)]] for the draw [r]. *)
Definition getRandomElement {A} (r : Q) (array : list A) : option A :=
  if bool_decide (length array = 0%nat) then None
  else js_index array (Qfloor (r * inject_Z (Z.of_nat (length array)))).

(** [str.substring(0, end)]: a negative [end] counts as 0, an [end] past
    the last character as the length. *)
Definition substring_to (str : string) (end_ : Z) : string :=
  String.substring 0 (Z.to_nat end_) str.

Definition truncate (str : string) (maxLength : Z) : string :=
  if bool_decide (Z.of_nat (String.length str) ≤ maxLength) then str
  else substring_to str (maxLength - 3) +:+ "...".

(** [s.charAt(i)]: the empty string out of range. *)
Definition charAt (s : string) (i : Z) : string :=
  match js_index (String.list_ascii_of_string s) i with
  | Some c => String c EmptyString
  | None => EmptyString
  end.

(** The loop of [generateLobbyCode] with [n] turns left; the [k]-th call of
    [Math.random] returns [rnd k]. *)
Fixpoint generateLobbyCode_loop (rnd : nat → Q) (k n : nat) (code : string)
  : string :=
  match n with
  | O => code
  | S n =>
      let randomIndex :=
        Qfloor (rnd k * inject_Z (Z.of_nat (String.length LOBBY_CODE_CHARS))) in
      generateLobbyCode_loop rnd (S k) n
        (code +:+ charAt LOBBY_CODE_CHARS randomIndex)
  end.

Definition generateLobbyCode (rnd : nat → Q) (k : nat) : string :=
  generateLobbyCode_loop rnd k LOBBY_CODE_LENGTH "".

Definition MAX_ANSWER_LENGTH : Z := 120.

Section SanitizeText.
Context `{JsString}.
(** The character class [\s]. *)
Variable isSpace : Ascii.ascii → bool.

(** [replace(/\s+/g, ' ')]; [inRun] tells that the previous character was
    part of the run being replaced. *)
Fixpoint collapseSpaces (inRun : bool) (s : string) : string :=
  match s with
  | EmptyString => EmptyString
  | String c s' =>
      if isSpace c then
        if inRun then collapseSpaces true s'
        else String " "%char (collapseSpaces true s')
      else String c (collapseSpaces false s')
  end.

(** [replace(/[<>]/g, '')] *)
Fixpoint removeAngles (s : string) : string :=
  match s with
  | EmptyString => EmptyString
  | String c s' =>
      if bool_decide (c = "<"%char ∨ c = ">"%char) then removeAngles s'
      else String c (removeAngles s')
  end.

Definition sanitizeText (text : string) : string :=
  substring_to (removeAngles (collapseSpaces false (trim text)))
    MAX_ANSWER_LENGTH.
End SanitizeText.

(** Two participation records that differ in the factor only. *)
Definition same_record (p p' : PlayerParticipation.t) : Prop :=
  PlayerParticipation.playerId p' = PlayerParticipation.playerId p
  ∧ PlayerParticipation.lastRoundPlayed p' = PlayerParticipation.lastRoundPlayed p
  ∧ PlayerParticipation.timesPlayed p' = PlayerParticipation.timesPlayed p.

(** The question a round was opened with. *)
Definition questionOf (r : BullRound.t) : QuestionData.t :=
  QuestionData.mk (BullRound.question r) (BullRound.correctAnswer r)
    (BullRound.incorrectAnswer r).


(** Two lobbies with the same code, host, roster and team lists. *)
Definition same_shell (l l' : Lobby.t) : Prop :=
  Lobby.code l' = Lobby.code l
  ∧ Lobby.hostId l' = Lobby.hostId l
  ∧ same_members l l'.

(** The size limits of a lobby: [MAX_PLAYERS_PER_LOBBY] players, four per
    team. *)
Definition lobby_sizes_ok (lobby : Lobby.t) : Prop :=
  (length (Lobby.players lobby) ≤ 8)%nat
  ∧ (length (Lobby.teams_blue lobby) ≤ 4)%nat
  ∧ (length (Lobby.teams_red lobby) ≤ 4)%nat.

(** What holds of the registry: at most [MAX_LOBBIES] lobbies, under
    distinct codes, each under its own code and within the size limits. *)
Definition registry_ok (o : obj Lobby.t) : Prop :=
  (length o ≤ 100)%nat
  ∧ NoDup (obj_keys o)
  ∧ ∀ c l, obj_get o c = Some l → Lobby.code l = c ∧ lobby_sizes_ok l.

(** How one operation changes the registry: not at all; or a lobby is
    replaced by one with its code and host; or a lobby is registered under
    a code that was free, while there are fewer than a hundred; or a lobby
    is removed. *)
Definition lobbies_step (o o' : obj Lobby.t) : Prop :=
  o' = o
  ∨ (∃ c l l',
       obj_get o c = Some l ∧ o' = obj_set o c l'
       ∧ Lobby.code l' = Lobby.code l ∧ Lobby.hostId l' = Lobby.hostId l
       ∧ (lobby_sizes_ok l → lobby_sizes_ok l'))
  ∨ (∃ c l',
       (c ∉ obj_keys o) ∧ (length o < 100)%nat ∧ o' = obj_set o c l'
       ∧ Lobby.code l' = c ∧ lobby_sizes_ok l')
  ∨ (∃ c, o' = obj_delete o c).

(** No player object is marked as host. *)
Definition no_host_player (h : heap) : Prop :=
  ∀ p, Player.isHost (h p) = false.

(** Two stores that differ in the players' scores only. *)
Definition same_but_score (h h' : heap) : Prop :=
  ∀ p, Player.set_score 0 (h' p) = Player.set_score 0 (h p).

(* ================================================================== *)
(** ** Phase progression ([services/socketService.ts])

    The three steps behind the host's [next_phase] event, on the process
    state.  Each runs inside [try ... catch]: what was written before a
    throw stays written.  The events sent to the clients are left out. *)

(** [handleStartGame] for a session of [playerId] in the lobby
    [lobbyCode]; [updateGameSettings] and [startGame] work on the one lobby
    object. *)
Definition handleStartGame (w : World.t) (lobbyCode playerId : string)
    (settings : option PartialSettings.t) : World.t :=
  match getLobby w lobbyCode with
  | Throw _ => w
  | Ok lobby =>
      if bool_decide (Lobby.hostId lobby ≠ playerId) then w
      else if negb (canStartGame w lobbyCode) then w
      else
        match
          match settings with
          | Some settings => updateGameSettings w lobbyCode playerId settings
          | None => Ok (lobby, w)
          end
        with
        | Throw _ => w
        | Ok (lobby, w) =>
            match startGame (World.playerSelector w) (World.store w) lobby with
            | Ok (_, sel, lobby) =>
                World.put_lobby lobbyCode lobby (World.set_playerSelector sel w)
            | Throw _ => w
            end
        end
  end.

(** The round number [startNextRound] works with: one more than the
    counter when the phase is [results]. *)
Definition nextRoundNumber (gs : BullGameState.t) : Z :=
  if bool_decide (BullGameState.phase gs = results)
  then BullGameState.currentRound gs + 1
  else BullGameState.currentRound gs.

Definition startNextRound (w : World.t) (lobbyCode : string) (rnd : nat → Q)
  : World.t :=
  match getLobby w lobbyCode with
  | Throw _ => w
  | Ok lobby =>
      match Lobby.gameState lobby with
      | None => w
      | Some gameState =>
          let gameState :=
            if bool_decide (BullGameState.phase gameState = results) then
              BullGameState.set_currentRound
                (BullGameState.currentRound gameState + 1) gameState
            else gameState in
          let lobby := Lobby.set_gameState (Some gameState) lobby in
          let w := World.put_lobby lobbyCode lobby w in
          if isGameFinished lobby then
            match finishGame lobby with
            | Ok (_, _, lobby) => World.put_lobby lobbyCode lobby w
            | Throw _ => w
            end
          else
            match startRound (World.playerSelector w) (World.store w) lobby
                    (BullGameState.currentRound gameState) rnd with
            | (sel, Ok (_, lobby)) =>
                World.put_lobby lobbyCode lobby (World.set_playerSelector sel w)
            | (sel, Throw _) => World.set_playerSelector sel w
            end
      end
  end.

Definition startVotingPhase (w : World.t) (lobbyCode : string)
    (uuid : nat → string) (rnd : nat → Q) : World.t :=
  match getLobby w lobbyCode with
  | Throw _ => w
  | Ok lobby =>
      match prepareVotingOptions uuid rnd lobby with
      | Ok (_, lobby) => World.put_lobby lobbyCode lobby w
      | Throw _ => w
      end
  end.

Definition showRoundResults (w : World.t) (lobbyCode : string) : World.t :=
  match getLobby w lobbyCode with
  | Throw _ => w
  | Ok lobby =>
      match calculateRoundResults (World.store w) lobby with
      | Ok (_, h, lobby) =>
          World.put_lobby lobbyCode lobby (World.set_store h w)
      | Throw _ => w
      end
  end.

Definition progressGamePhase (w : World.t) (lobbyCode : string)
    (uuid : nat → string) (rnd : nat → Q) : World.t :=
  match getLobby w lobbyCode with
  | Throw _ => w
  | Ok lobby =>
      match Lobby.gameState lobby with
      | None => w
      | Some gameState =>
          match BullGameState.phase gameState with
          | waiting | results => startNextRound w lobbyCode rnd
          | writing => startVotingPhase w lobbyCode uuid rnd
          | voting => showRoundResults w lobbyCode
          | finished => w
          end
      end
  end.

(* ================================================================== *)
(** ** More states of the sample session *)

(** The lobby with Beto and Caro in their teams and ready. *)
Definition sample_ready : World.t := @run AsciiStrings sample_lobby_actions.

(** Round 1 is open and nobody has answered. *)
Definition sample_round_open : World.t :=
  @perform AsciiStrings sample_started (StartRound "ABC123" 1 sample_rnd).

(** Both selected players have answered. *)
Definition sample_answered : World.t :=
  fold_left (@perform AsciiStrings)
    [SubmitAnswer "ABC123" "p-1" "  Fabri ";
     SubmitAnswer "ABC123" "p-2" "Gio"]
    sample_round_open.

(** The options of round 1 are prepared and nobody has voted. *)
Definition sample_voting : World.t :=
  @perform AsciiStrings sample_writing
    (PrepareVotingOptions "ABC123" sample_uuid sample_rnd).

(** Ana has opened the lobby and nobody has joined. *)
Definition sample_created : World.t :=
  @run AsciiStrings
    [CreateLobby "Ana" "s0" (λ _, "ABC123"%string) "host-0"].

(** Settings that ask for a single round. *)
Definition sample_one_round : PartialSettings.t :=
  PartialSettings.mk (Some 1) None None None None.

(** Settings that ask for two rounds. *)
Definition sample_two_rounds : PartialSettings.t :=
  PartialSettings.mk (Some 2) None None None None.

(** A two-round game played through the handlers: the host starts it with
    [sample_two_rounds] and opens round 1, both selected players answer,
    the host moves on to the vote, both players vote, and the host asks for
    the results.  Round 1 is closed and the phase is [results]. *)
Definition sample_first_of_two_closed : World.t :=
  let next w := progressGamePhase w "ABC123" sample_uuid sample_rnd in
  let w :=
    handleStartGame sample_ready "ABC123" "host-0" (Some sample_two_rounds) in
  let w := next w in
  let w :=
    fold_left (@perform AsciiStrings)
      [SubmitAnswer "ABC123" "p-1" "  Fabri ";
       SubmitAnswer "ABC123" "p-2" "Gio"] w in
  let w := next w in
  let w :=
    fold_left (@perform AsciiStrings)
      [SubmitVote "ABC123" "p-1" "o-0";
       SubmitVote "ABC123" "p-2" "o-2"] w in
  next w.

(** The lobby as [startNextRound] hands it to [isGameFinished] when the
    host then asks for the next phase: the round counter has been
    incremented. *)
Definition sample_second_of_two_due : World.t :=
  @perform AsciiStrings sample_first_of_two_closed
    (IncrementCurrentRound "ABC123").

(** A one-round game as the host's start leaves it: no round has been
    opened. *)
Definition sample_one_round_started : World.t :=
  handleStartGame sample_ready "ABC123" "host-0" (Some sample_one_round).

(* ================================================================== *)
(** * Properties *)

(** ** The current round *)

Lemma getCurrentRound_setCurrentRound gs r r' :
  getCurrentRound gs = Some r →
  BullRound.number r' = BullRound.number r →
  getCurrentRound (setCurrentRound gs r') = Some r'.
Proof.
  unfold getCurrentRound, setCurrentRound.
  destruct (list_find _ _) as [[i r0]|] eqn:Hf; [|done].
  intros [= ->] Hnum.
  pose proof Hf as (Hi & HP & Hleast)%list_find_Some.
  destruct gs as [cr tr ph rs sc wn]; simpl in *.
  assert (list_find (λ x, BullRound.number x = cr) (<[i:=r']> rs) = Some (i, r'))
    as ->; [|done].
  apply list_find_insert_Some. right; left.
  split_and!; [done..|by eapply lookup_lt_Some|congruence|done].
Qed.

Lemma getCurrentRound_set_phase gs ph :
  getCurrentRound (BullGameState.set_phase ph gs) = getCurrentRound gs.
Proof. done. Qed.

Lemma getCurrentRound_set_scores gs sc :
  getCurrentRound (BullGameState.set_scores sc gs) = getCurrentRound gs.
Proof. done. Qed.

(** ** [shuffleArray] returns a permutation *)

Lemma swap_Permutation {A} (a : list A) i j : swap a i j ≡ₚ a.
Proof.
  unfold swap.
  destruct (a !! i) as [x|] eqn:Hi; [|done].
  destruct (a !! j) as [y|] eqn:Hj; [|done].
  by apply Permutation_insert_swap.
Qed.

Lemma shuffle_loop_Permutation {A} rnd k i (a : list A) :
  shuffle_loop rnd k i a ≡ₚ a.
Proof.
  revert k a. induction i as [|i IH]; intros k a; simpl; [done|].
  by rewrite IH, swap_Permutation.
Qed.

Lemma shuffleArray_Permutation {A} rnd (a : list A) : shuffleArray rnd a ≡ₚ a.
Proof. apply shuffle_loop_Permutation. Qed.

(** A draw in [[0, 1)] gives an index between [0] and [i]: the two reads of
    the swap are in range at every turn of the loop. *)
Lemma shuffle_index_le (r : Q) (i : nat) :
  (0 <= r)%Q → (r < 1)%Q → (shuffle_index r i ≤ i)%nat.
Proof.
  intros H0 H1. unfold shuffle_index.
  set (n := Z.of_nat i + 1).
  assert (inject_Z (Qfloor (r * inject_Z n)) < inject_Z n)%Q as Hlt.
  { eapply Qle_lt_trans; [apply Qfloor_le|].
    assert (0 < inject_Z n)%Q as Hn.
    { change 0%Q with (inject_Z 0). rewrite <- Zlt_Qlt. lia. }
    eapply Qlt_le_trans; [apply Qmult_lt_compat_r; [exact Hn|exact H1]|].
    rewrite Qmult_1_l. apply Qle_refl. }
  rewrite <- Zlt_Qlt in Hlt. lia.
Qed.

Lemma swap_in_range {A} (a : list A) i j :
  (j ≤ i)%nat → (i < length a)%nat →
  ∃ x y, a !! i = Some x ∧ a !! j = Some y
         ∧ swap a i j = <[j := x]> (<[i := y]> a).
Proof.
  intros Hj Hi.
  destruct (lookup_lt_is_Some_2 a i) as [x Hx]; [done|].
  destruct (lookup_lt_is_Some_2 a j) as [y Hy]; [lia|].
  exists x, y. unfold swap. by rewrite Hx, Hy.
Qed.

(** ** Voting options *)

Lemma length_assignPositions l : length (assignPositions l) = length l.
Proof. apply length_imap. Qed.

Lemma assignPositions_position l i o :
  assignPositions l !! i = Some o → RoundOption.position o = Z.of_nat i + 1.
Proof.
  unfold assignPositions. rewrite list_lookup_imap.
  destruct (l !! i); intros [= <-]; done.
Qed.

Lemma assignPositions_clear l :
  RoundOption.set_position 0 <$> assignPositions l
  = RoundOption.set_position 0 <$> l.
Proof.
  unfold assignPositions. rewrite fmap_imap.
  rewrite <- (imap_const (RoundOption.set_position 0)).
  by apply imap_ext.
Qed.

Lemma filter_correct_clear l :
  length (filter (λ o, RoundOption.origin o = OriginCorrect)
            (RoundOption.set_position 0 <$> l))
  = length (filter (λ o, RoundOption.origin o = OriginCorrect) l).
Proof.
  induction l as [|o l IH]; [done|]. csimpl.
  rewrite !filter_cons. simpl.
  destruct (decide (RoundOption.origin o = OriginCorrect)); simpl; by rewrite IH.
Qed.

(** The [while] loop leaves with its condition false: the fuel of
    [assembleOptions] is never what stops it. *)
Lemma fillDummy_length fuel uuid k options :
  (ROUND_OPTIONS_COUNT ≤ fuel + length options)%nat →
  (ROUND_OPTIONS_COUNT ≤ length (fillDummy fuel uuid k options))%nat.
Proof.
  revert k options. induction fuel as [|fuel IH]; intros k options Hlen; simpl.
  - lia.
  - case_bool_decide; [|lia].
    apply IH. rewrite length_app. simpl. lia.
Qed.

Lemma assembleOptions_shape uuid rd :
  (length (BullRound.playerAnswers rd) ≤ 2)%nat →
  ∃ fillers,
    length fillers = (2 - length (BullRound.playerAnswers rd))%nat
    ∧ Forall (λ o, RoundOption.origin o = OriginIncorrect
                   ∧ RoundOption.position o = 0) fillers
    ∧ assembleOptions uuid rd =
        [RoundOption.mk (uuid 0%nat) (BullRound.correctAnswer rd) OriginCorrect 0;
         RoundOption.mk (uuid 1%nat) (BullRound.incorrectAnswer rd)
           OriginIncorrect 0]
        ++ imap (playerOption uuid) (BullRound.playerAnswers rd) ++ fillers.
Proof.
  unfold assembleOptions.
  destruct (BullRound.playerAnswers rd) as [|[p1 a1] [|[p2 a2] [|? ?]]];
    simpl; intros Hlen; [| | |lia].
  - eexists [_; _]. split_and!; [done| |reflexivity].
    repeat constructor.
  - eexists [_]. split_and!; [done| |reflexivity].
    repeat constructor.
  - exists []. split_and!; [done|constructor|reflexivity].
Qed.

Lemma set_position_id (l : list RoundOption.t) :
  Forall (λ o, RoundOption.position o = 0) l →
  RoundOption.set_position 0 <$> l = l.
Proof.
  induction 1 as [|o l Hx _ IH]; [done|]. csimpl. rewrite IH.
  destruct o; simpl in *; by subst.
Qed.

Lemma filter_correct_nil (l : list RoundOption.t) :
  Forall (λ o, RoundOption.origin o ≠ OriginCorrect) l →
  filter (λ o, RoundOption.origin o = OriginCorrect) l = [].
Proof.
  induction 1 as [|o l Hx _ IH]; [done|].
  rewrite filter_cons. by destruct (decide _).
Qed.

(** C1.  On a round with at most two submitted answers,
    [prepareVotingOptions] stores on the current round a list of exactly
    four options, exactly one of them of origin [correct]; up to the
    positions, the list is a permutation of the first four of: the correct
    answer, the seed incorrect answer, the submitted answers in order, and
    [2 - n] placeholder fillers ([n] the number of submitted answers, so
    none once four candidates exist); every option's position is its index
    in the stored list plus one, and the phase becomes [voting].  The draws
    of [Math.random] are any values in [[0, 1)]. *)
Theorem C1_prepareVotingOptions_four_options uuid rnd lobby gs rd :
  (∀ k, (0 <= rnd k)%Q ∧ (rnd k < 1)%Q) →
  Lobby.gameState lobby = Some gs →
  getCurrentRound gs = Some rd →
  (length (BullRound.playerAnswers rd) ≤ 2)%nat →
  ∃ opts lobby' gs' rd' fillers,
    prepareVotingOptions uuid rnd lobby = Ok (opts, lobby')
    ∧ Lobby.gameState lobby' = Some gs'
    ∧ BullGameState.phase gs' = voting
    ∧ getCurrentRound gs' = Some rd'
    ∧ BullRound.options rd' = opts
    ∧ length opts = 4%nat
    ∧ length (filter (λ o, RoundOption.origin o = OriginCorrect) opts) = 1%nat
    ∧ length fillers = (2 - length (BullRound.playerAnswers rd))%nat
    ∧ Forall (λ o, RoundOption.origin o = OriginIncorrect
                   ∧ RoundOption.position o = 0) fillers
    ∧ RoundOption.set_position 0 <$> opts
      ≡ₚ take 4
           ([RoundOption.mk (uuid 0%nat) (BullRound.correctAnswer rd)
               OriginCorrect 0;
             RoundOption.mk (uuid 1%nat) (BullRound.incorrectAnswer rd)
               OriginIncorrect 0]
            ++ imap (playerOption uuid) (BullRound.playerAnswers rd)
            ++ fillers)
    ∧ ∀ i o, opts !! i = Some o → RoundOption.position o = Z.of_nat i + 1.
Proof.
  intros _ Hgs Hrd Hlen.
  destruct (assembleOptions_shape uuid rd Hlen) as (fillers & Hfl & Hfo & Hshape).
  unfold prepareVotingOptions. rewrite Hgs, Hrd.
  set (cands := assembleOptions uuid rd) in *.
  set (opts := assignPositions (shuffleArray rnd (take ROUND_OPTIONS_COUNT cands))).
  assert (Forall (λ o, RoundOption.position o = 0) cands) as Hzero.
  { rewrite Hshape. cbn [app]. do 2 (constructor; [done|]).
    apply Forall_app; split.
    - apply List.Forall_forall. intros o [i [e [-> _]]]%list_elem_of_In%elem_of_lookup_imap. done.
    - eapply List.Forall_impl; [|exact Hfo]. by intros ? [_ ?]. }
  assert (RoundOption.set_position 0 <$> opts ≡ₚ take 4 cands) as Hperm.
  { unfold opts. rewrite assignPositions_clear, shuffleArray_Permutation.
    rewrite set_position_id; [done|]. by apply Forall_take. }
  assert (length cands = 4%nat) as Hc4.
  { rewrite Hshape. simpl. rewrite length_app, length_imap. lia. }
  eexists opts, _, _, _, fillers. split_and!; try done.
  - simpl. rewrite getCurrentRound_set_phase.
    eapply getCurrentRound_setCurrentRound; [exact Hrd|done].
  - done.
  - rewrite <- (length_fmap (RoundOption.set_position 0)), Hperm.
    rewrite length_take. lia.
  - rewrite <- filter_correct_clear, Hperm.
    rewrite take_ge by lia. rewrite Hshape.
    change ([?a; ?b] ++ ?l) with (a :: b :: l).
    rewrite !filter_cons. simpl.
    rewrite filter_correct_nil; [done|].
    apply Forall_app; split.
    + apply List.Forall_forall. intros o [i [e [-> _]]]%list_elem_of_In%elem_of_lookup_imap. done.
    + eapply List.Forall_impl; [|exact Hfo]. intros ? [-> _]. done.
  - by rewrite Hshape in Hperm.
  - intros i o. apply assignPositions_position.
Qed.

(** ** End of game *)

(** C3.  On a lobby with a game state, [finishGame] sets the phase and the
    lobby status to [finished] and records the winner: blue when
    [scores.blue > scores.red], red when [scores.red > scores.blue], and
    blue when the two scores are equal. *)
Theorem C3_finishGame_winner lobby gs :
  Lobby.gameState lobby = Some gs →
  ∃ w lobby' gs',
    finishGame lobby = Ok (w, BullGameState.scores gs, lobby')
    ∧ Lobby.status lobby' = LobbyFinished
    ∧ Lobby.gameState lobby' = Some gs'
    ∧ BullGameState.phase gs' = finished
    ∧ BullGameState.winner gs' = Some w
    ∧ BullGameState.scores gs' = BullGameState.scores gs
    ∧ (Scores.blue (BullGameState.scores gs) > Scores.red (BullGameState.scores gs)
       → w = Team.blue)
    ∧ (Scores.red (BullGameState.scores gs) > Scores.blue (BullGameState.scores gs)
       → w = Team.red)
    ∧ (Scores.blue (BullGameState.scores gs) = Scores.red (BullGameState.scores gs)
       → w = Team.blue).
Proof.
  intros Hgs. unfold finishGame. rewrite Hgs. simpl.
  eexists _, _, _. split_and!; try reflexivity.
  - intros Hgt. by rewrite bool_decide_eq_true_2.
  - intros Hgt. rewrite bool_decide_eq_false_2 by lia.
    by rewrite bool_decide_eq_true_2.
  - intros Heq. rewrite !bool_decide_eq_false_2 by lia. done.
Qed.

(** [isGameFinished] compares the round counter with [settings.maxRounds]
    and reads nothing else: with [totalRounds] equal to [maxRounds], as
    [startGame] sets it, it is true exactly when the counter has reached
    [totalRounds]. *)
Lemma isGameFinished_iff_counter lobby gs :
  Lobby.gameState lobby = Some gs →
  BullGameState.totalRounds gs = GameSettings.maxRounds (Lobby.settings lobby) →
  (isGameFinished lobby = true
   ↔ BullGameState.currentRound gs >= BullGameState.totalRounds gs).
Proof.
  intros Hgs Htot. unfold isGameFinished. rewrite Hgs, Htot.
  apply bool_decide_eq_true.
Qed.

(** C6, evaluated on a two-round game played through the handlers.  After
    the results of round 1 (counter 1, below [maxRounds = 2]) the host asks
    for the next phase: [startNextRound] increments the counter to 2 and
    calls [isGameFinished], which answers true although round 2 has not
    closed: it was never opened, the only round in the history is round 1.
    So the property as worded fails on this lobby, and the game is finished
    after one round of two.  In a one-round game [isGameFinished] is true
    as soon as the host has started the game, with no round in the
    history. *)
Theorem C6_isGameFinished_true_before_last_round :
  let w := sample_first_of_two_closed in
  let lobby := sampleLobby sample_second_of_two_due in
  let gs := gameOf lobby in
  let w' := progressGamePhase w "ABC123" sample_uuid sample_rnd in
  BullGameState.phase (gameOf (sampleLobby w)) = results
  ∧ BullGameState.currentRound (gameOf (sampleLobby w)) = 1
  ∧ GameSettings.maxRounds (Lobby.settings (sampleLobby w)) = 2
  ∧ Lobby.gameState lobby = Some gs
  ∧ BullGameState.currentRound gs = 2
  ∧ BullGameState.totalRounds gs = 2
  ∧ BullRound.number <$> BullGameState.rounds gs = [1]
  ∧ getCurrentRound gs = None
  ∧ isGameFinished lobby = true
  ∧ ¬ isGameFinished_when_round_closed lobby
  ∧ w' = @perform AsciiStrings sample_second_of_two_due (FinishGame "ABC123")
  ∧ Lobby.status (sampleLobby w') = LobbyFinished
  ∧ BullGameState.phase (gameOf (sampleLobby w')) = finished
  ∧ BullRound.number <$> BullGameState.rounds (gameOf (sampleLobby w')) = [1]
  ∧ isGameFinished (sampleLobby sample_one_round_started) = true
  ∧ BullGameState.rounds (gameOf (sampleLobby sample_one_round_started)) = [].
Proof.
  intros w lobby gs w'.
  assert (Lobby.gameState lobby = Some gs) as Hgs by (vm_compute; reflexivity).
  assert (getCurrentRound gs = None) as Hrd by (vm_compute; reflexivity).
  assert (isGameFinished lobby = true) as Htrue by (vm_compute; reflexivity).
  split_and!; try (vm_compute; reflexivity); try assumption.
  intros Hclaim. destruct (Hclaim gs Hgs) as [Hfin _].
  destruct (Hfin Htrue) as (_ & rd & Hsome & _).
  rewrite Hrd in Hsome. discriminate Hsome.
Qed.

Lemma isGameFinished_no_game lobby :
  Lobby.gameState lobby = None → isGameFinished lobby = false.
Proof. intros Hgs. unfold isGameFinished. by rewrite Hgs. Qed.

(** ** Vote quorum *)

(** C7.  [allVotesSubmitted] is true exactly when there is a game state
    with a current round whose recorded votes are at least as many as the
    roster players marked connected; in particular it is false without a
    game state and without a current round. *)
Theorem C7_allVotesSubmitted_quorum h lobby :
  (allVotesSubmitted h lobby = true
   ↔ ∃ gs rd,
       Lobby.gameState lobby = Some gs
       ∧ getCurrentRound gs = Some rd
       ∧ (length (filter (λ p, Player.isConnected (h p) = true)
                    (Lobby.players lobby))
          ≤ length (obj_keys (BullRound.votes rd)))%nat)
  ∧ (Lobby.gameState lobby = None → allVotesSubmitted h lobby = false)
  ∧ (∀ gs, Lobby.gameState lobby = Some gs → getCurrentRound gs = None →
           allVotesSubmitted h lobby = false).
Proof.
  unfold allVotesSubmitted. split_and!.
  - destruct (Lobby.gameState lobby) as [gs|]; [|naive_solver].
    destruct (getCurrentRound gs) as [rd|] eqn:Hrd; [|naive_solver].
    rewrite bool_decide_eq_true. split.
    + intros Hle. by exists gs, rd.
    + intros (gs' & rd' & [= <-] & Hrd' & Hle). by simplify_eq.
  - by intros ->.
  - by intros gs -> ->.
Qed.

(** ** Answer submission *)

Section SubmitAnswer.
Context `{JsString}.




End SubmitAnswer.

(** ** A failed [startRound] *)

(** When a team has no eligible player, [startRound] throws after the
    selector's round counter has been incremented: the participation
    records are as before, the counter is one more. *)
Lemma startRound_no_eligible_player sel h lobby gs roundNumber rnd :
  Lobby.gameState lobby = Some gs →
  roundNumber ≤ GameSettings.maxRounds (Lobby.settings lobby) →
  eligiblePlayers h (Lobby.hostId lobby) (Lobby.teams_blue lobby) = []
  ∨ eligiblePlayers h (Lobby.hostId lobby) (Lobby.teams_red lobby) = [] →
  ∃ message,
    startRound sel h lobby roundNumber rnd
    = (PlayerSelector.mk (PlayerSelector.participationHistory sel)
         (PlayerSelector.currentRound sel + 1),
       Throw (Error message)).
Proof.
  intros Hgs Hn Hel. unfold startRound. rewrite Hgs.
  rewrite bool_decide_eq_false_2 by lia.
  unfold selectPlayersForRound, truthy_arg.
  fold (eligiblePlayers h (Lobby.hostId lobby) (Lobby.teams_blue lobby)).
  fold (eligiblePlayers h (Lobby.hostId lobby) (Lobby.teams_red lobby)).
  destruct (eligiblePlayers h (Lobby.hostId lobby) (Lobby.teams_blue lobby))
    as [|b bs] eqn:Hb; simpl; [by eexists|].
  destruct Hel as [?|Hr]; [done|]. rewrite Hr. simpl. by eexists.
Qed.

(** C9, evaluated.  After the only blue player has left a started game,
    [startRound] throws for lack of an eligible blue player; the lobby is
    not written to, the participation records are as before the call, but
    the selector's round counter has gone from 0 to 1. *)
Theorem C9_startRound_failure_moves_round_counter :
  let w := sample_blue_left in
  let lobby := lobbyOf w "ABC123" in
  ∃ sel' message,
    obj_get (World.lobbies w) "ABC123" = Some lobby
    ∧ startRound (World.playerSelector w) (World.store w) lobby 1 sample_rnd
      = (sel', Throw (Error message))
    ∧ PlayerSelector.participationHistory sel'
      = PlayerSelector.participationHistory (World.playerSelector w)
    ∧ PlayerSelector.currentRound (World.playerSelector w) = 0
    ∧ PlayerSelector.currentRound sel' = 1
    ∧ World.lobbies
        (@perform AsciiStrings w (StartRound "ABC123" 1 sample_rnd))
      = World.lobbies w.
Proof.
  eexists _, _. split_and!; [reflexivity|vm_compute; reflexivity|..]; reflexivity.
Qed.

(** ** Participation factors *)

Lemma obj_values_map_values {V W} (f : V → W) (o : obj V) :
  obj_values (obj_map_values f o) = f <$> obj_values o.
Proof.
  unfold obj_values, obj_map_values. rewrite <- !list_fmap_compose.
  apply list_fmap_ext. by intros ? [].
Qed.


Lemma Forall_obj_set {V} (P : V → Prop) (o : obj V) k v :
  Forall P (obj_values o) → P v → Forall P (obj_values (obj_set o k v)).
Proof.
  intros Ho Hv. induction o as [|[k' v'] o IH]; simpl.
  - by repeat constructor.
  - inversion_clear Ho. case_bool_decide; constructor; auto.
Qed.








Lemma participationFactor_set_factor r avg f p :
  participationFactor r avg (PlayerParticipation.set_factor f p)
  = participationFactor r avg p.
Proof. done. Qed.






Lemma selector_wf_set_factors s (g : PlayerParticipation.t → Q) :
  selector_wf s →
  selector_wf
    (PlayerSelector.mk
       (obj_map_values (λ p, PlayerParticipation.set_factor (g p) p)
          (PlayerSelector.participationHistory s))
       (PlayerSelector.currentRound s)).
Proof.
  intros [H0 Hwf]. split; [done|]. simpl.
  rewrite obj_values_map_values, Forall_fmap.
  eapply List.Forall_impl; [|exact Hwf]. done.
Qed.

Lemma selector_wf_updateFactors s :
  selector_wf s → selector_wf (updateFactors s).
Proof.
  intros Hwf. unfold updateFactors.
  case_bool_decide; [by apply (selector_wf_set_factors s (λ _, 1%Q))|].
  unfold normalizeFactors.
  pose proof (selector_wf_set_factors s (calculatePlayerFactor s) Hwf) as Hwf1.
  destruct (Qlt_bool _ _); [|done].
  by apply (selector_wf_set_factors _ _ Hwf1).
Qed.

Lemma selector_wf_initialize h bluePlayers redPlayers :
  selector_wf (initialize h bluePlayers redPlayers).
Proof.
  apply selector_wf_updateFactors. split; [done|]. simpl.
  generalize (bluePlayers ++ redPlayers). intros l.
  assert (Forall (λ p, PlayerParticipation.lastRoundPlayed p ≤ 0)
            (obj_values (@nil (string * PlayerParticipation.t)))) as Hnil
    by constructor.
  revert Hnil. generalize (@nil (string * PlayerParticipation.t)).
  induction l as [|x l IH]; intros o Ho; simpl; [done|].
  apply IH. by apply Forall_obj_set.
Qed.


Lemma currentRound_updatePlayerParticipation s playerId :
  PlayerSelector.currentRound (updatePlayerParticipation s playerId)
  = PlayerSelector.currentRound s.
Proof. unfold updatePlayerParticipation. by destruct (obj_get _ _). Qed.

(** The selector a successful [selectPlayersForRound] leaves. *)
Lemma selectPlayersForRound_Ok s h blue red host rnd s' bp rp :
  selectPlayersForRound s h blue red host rnd = (s', Ok (bp, rp)) →
  s' = updateFactors
         (updatePlayerParticipation
            (updatePlayerParticipation
               (PlayerSelector.mk (PlayerSelector.participationHistory s)
                  (PlayerSelector.currentRound s + 1))
               (Player.id (h bp)))
            (Player.id (h rp))).
Proof.
  unfold selectPlayersForRound.
  repeat (case_bool_decide || case_match); intros; simplify_eq; done.
Qed.



(** ** Scoring *)

Lemma obj_get_set_eq {V} (o : obj V) k v : obj_get (obj_set o k v) k = Some v.
Proof.
  induction o as [|[k' v'] o IH]; simpl.
  - by rewrite bool_decide_eq_true_2.
  - case_bool_decide; simpl.
    + by rewrite bool_decide_eq_true_2.
    + by rewrite bool_decide_eq_false_2.
Qed.

Lemma obj_get_set_ne {V} (o : obj V) k k' v :
  k ≠ k' → obj_get (obj_set o k v) k' = obj_get o k'.
Proof.
  intros Hne. induction o as [|[k0 v0] o IH]; simpl.
  - by rewrite bool_decide_eq_false_2.
  - case_bool_decide; simpl.
    + subst. by rewrite !bool_decide_eq_false_2.
    + by rewrite IH.
Qed.

Lemma obj_get_None {V} (o : obj V) k : obj_get o k = None ↔ k ∉ obj_keys o.
Proof.
  unfold obj_keys. induction o as [|[k' v'] o IH]; csimpl.
  - split; [intros _; apply not_elem_of_nil|done].
  - rewrite not_elem_of_cons. case_bool_decide; naive_solver.
Qed.

Lemma obj_get_Some_elem {V} (o : obj V) k v :
  obj_get o k = Some v → (k, v) ∈ o.
Proof.
  induction o as [|[k' v'] o IH]; simpl; [done|].
  case_bool_decide; [intros [= ->]; subst; left|right; auto].
Qed.

Lemma obj_keys_set {V} (o : obj V) k v k' :
  k' ∈ obj_keys (obj_set o k v) ↔ k' = k ∨ k' ∈ obj_keys o.
Proof.
  unfold obj_keys. induction o as [|[k0 v0] o IH]; csimpl.
  - rewrite list_elem_of_singleton, elem_of_nil. naive_solver.
  - case_bool_decide; csimpl; subst; rewrite ?elem_of_cons, ?IH; naive_solver.
Qed.

Global Instance same_identity_refl : Reflexive same_identity.
Proof. by intros h l. Qed.

Lemma same_identity_addPlayerScore h h' l n :
  same_identity h h' → same_identity h (addPlayerScore h' l n).
Proof.
  intros Hsame l'. unfold addPlayerScore.
  destruct (decide (l = l')) as [->|Hne].
  - rewrite fn_lookup_insert. apply Hsame.
  - rewrite fn_lookup_insert_ne by done. apply Hsame.
Qed.

Lemma findPlayer_same_identity h h' players playerId :
  same_identity h h' →
  findPlayer h' players playerId = findPlayer h players playerId.
Proof.
  intros Hsame. unfold findPlayer. f_equal.
  apply list_find_ext. intros l. by rewrite (proj1 (Hsame l)).
Qed.

Lemma findPlayer_Some h players playerId l :
  findPlayer h players playerId = Some l →
  Player.id (h l) = playerId ∧ l ∈ players.
Proof.
  unfold findPlayer. intros ([i l'] & Hf & ->)%fmap_Some.
  apply list_find_Some in Hf as (Hl & Hid & _).
  split; [done|]. by eapply list_elem_of_lookup_2.
Qed.

Lemma isConfusedOpponent_same_identity h h' lobby authorId author voterId :
  same_identity h h' →
  isConfusedOpponent h' lobby authorId author voterId
  = isConfusedOpponent h lobby authorId author voterId.
Proof.
  intros Hsame. unfold isConfusedOpponent.
  rewrite (findPlayer_same_identity h h') by done.
  destruct (findPlayer h _ _) as [voter|]; [|done].
  by rewrite (proj2 (Hsame voter)), (proj2 (Hsame author)).
Qed.

Lemma votersForThisOption_same_identity h h' lobby rd o authorId author :
  same_identity h h' →
  votersForThisOption h' lobby rd o authorId author
  = votersForThisOption h lobby rd o authorId author.
Proof.
  intros Hsame. unfold votersForThisOption.
  apply list_filter_iff. intros v.
  by rewrite (isConfusedOpponent_same_identity h h').
Qed.

(** The two loop bodies, read against the store on entry. *)
Lemma processVote_eq h lobby rd correctOption st playerId optionId :
  same_identity h (Calc.store st) →
  processVote lobby rd correctOption st (playerId, optionId)
  = match findPlayer h (Lobby.players lobby) playerId with
    | None => st
    | Some player =>
        match findOption (BullRound.options rd) optionId with
        | None => st
        | Some _ =>
            let points := votePoints lobby rd correctOption optionId in
            Calc.mk
              (obj_set (Calc.votes st) playerId
                 (VoteResult.mk optionId
                    (bool_decide (optionId = RoundOption.id correctOption))))
              (obj_set (Calc.pointsAwarded st) playerId points)
              (addTeamScore (Calc.newScores st) (Player.team (h player)) points)
              (Calc.confusionResults st)
              (obj_set (Calc.roundPoints st) playerId points)
              (addPlayerScore (Calc.store st) player points)
        end
    end.
Proof.
  intros Hsame. unfold processVote, votePoints.
  rewrite (findPlayer_same_identity h) by done.
  destruct (findPlayer h _ _) as [player|]; [|done].
  destruct (findOption _ _); [|done].
  rewrite (proj2 (Hsame player)).
  by case_bool_decide.
Qed.

Lemma processOption_eq h lobby rd st o :
  same_identity h (Calc.store st) →
  processOption lobby rd st o
  = match RoundOption.origin o with
    | OriginPlayer authorId =>
        match findPlayer h (Lobby.players lobby) authorId with
        | None => st
        | Some author =>
            let voters := votersForThisOption h lobby rd o authorId author in
            let bonus := confusionBonus h lobby rd o authorId author in
            if bool_decide (voters = []) then st
            else
              Calc.mk
                (Calc.votes st)
                (obj_set (Calc.pointsAwarded st) authorId
                   (default 0 (obj_get (Calc.pointsAwarded st) authorId) + bonus))
                (addTeamScore (Calc.newScores st) (Player.team (h author)) bonus)
                (obj_set (Calc.confusionResults st) authorId voters)
                (obj_set (Calc.roundPoints st) authorId
                   (default 0 (obj_get (Calc.roundPoints st) authorId) + bonus))
                (addPlayerScore (Calc.store st) author bonus)
        end
    | _ => st
    end.
Proof.
  intros Hsame. unfold processOption, confusionBonus.
  destruct (RoundOption.origin o) as [| |authorId]; [done..|].
  rewrite (findPlayer_same_identity h) by done.
  destruct (findPlayer h _ _) as [author|]; [|done].
  rewrite (votersForThisOption_same_identity h) by done.
  rewrite (proj2 (Hsame author)).
  destruct (votersForThisOption h lobby rd o authorId author) as [|v vs]; done.
Qed.

Lemma processVote_same_identity h lobby rd correctOption st vote :
  same_identity h (Calc.store st) →
  same_identity h (Calc.store (processVote lobby rd correctOption st vote)).
Proof.
  intros Hsame. destruct vote as [playerId optionId].
  rewrite (processVote_eq h) by done.
  destruct (findPlayer h _ _) as [player|]; [|done].
  destruct (findOption _ _); [|done]. simpl.
  by apply same_identity_addPlayerScore.
Qed.

Lemma processOption_same_identity h lobby rd st o :
  same_identity h (Calc.store st) →
  same_identity h (Calc.store (processOption lobby rd st o)).
Proof.
  intros Hsame. rewrite (processOption_eq h) by done.
  destruct (RoundOption.origin o) as [| |authorId]; [done..|].
  destruct (findPlayer h _ _) as [author|]; [|done]. simpl.
  case_bool_decide; [done|]. simpl. by apply same_identity_addPlayerScore.
Qed.

Lemma fold_processVote_same_identity h lobby rd correctOption votes st :
  same_identity h (Calc.store st) →
  same_identity h
    (Calc.store (fold_left (processVote lobby rd correctOption) votes st)).
Proof.
  revert st. induction votes as [|v votes IH]; intros st Hsame; simpl; [done|].
  by apply IH, processVote_same_identity.
Qed.

Lemma fold_processOption_same_identity h lobby rd options st :
  same_identity h (Calc.store st) →
  same_identity h (Calc.store (fold_left (processOption lobby rd) options st)).
Proof.
  revert st. induction options as [|o os IH]; intros st Hsame; simpl; [done|].
  by apply IH, processOption_same_identity.
Qed.

(** *** Votes and options whose player has left the roster *)

Lemma processVote_unknown h lobby rd correctOption st vote :
  same_identity h (Calc.store st) →
  ¬ knownVoter h lobby vote →
  processVote lobby rd correctOption st vote = st.
Proof.
  intros Hsame Hun. destruct vote as [playerId optionId].
  rewrite (processVote_eq h) by done.
  unfold knownVoter in Hun. simpl in Hun.
  destruct (findPlayer h _ _); [|done]. destruct Hun. by eexists.
Qed.

Lemma fold_processVote_known h lobby rd correctOption votes st :
  same_identity h (Calc.store st) →
  fold_left (processVote lobby rd correctOption) votes st
  = fold_left (processVote lobby rd correctOption)
      (filter (knownVoter h lobby) votes) st.
Proof.
  revert st. induction votes as [|v votes IH]; intros st Hsame; [done|].
  rewrite filter_cons. simpl. destruct (decide (knownVoter h lobby v)); simpl.
  - by apply IH, processVote_same_identity.
  - rewrite (processVote_unknown h) by done. by apply IH.
Qed.

Lemma isConfusedOpponent_known h lobby authorId author voterId :
  isConfusedOpponent h lobby authorId author voterId = true →
  is_Some (findPlayer h (Lobby.players lobby) voterId).
Proof.
  unfold isConfusedOpponent. case_bool_decide; [done|].
  destruct (findPlayer h _ _); [by eexists|done].
Qed.

Lemma filter_fst_filter_known (P : string → Prop) (Q K : string * string → Prop)
    `{∀ v, Decision (P v)} `{∀ e, Decision (Q e)} `{∀ e, Decision (K e)}
    (l : list (string * string)) :
  (∀ e, P e.1 → K e) →
  filter P ((filter Q (filter K l)).*1) = filter P ((filter Q l).*1).
Proof.
  intros HPK. induction l as [|e l IH]; [done|].
  rewrite (filter_cons K). destruct (decide (K e)) as [Hk|Hk].
  - rewrite !(filter_cons Q). destruct (decide (Q e)); [|done].
    csimpl. rewrite !(filter_cons P). destruct (decide (P e.1)); by rewrite IH.
  - rewrite IH, (filter_cons Q). destruct (decide (Q e)); [|done].
    csimpl. rewrite (filter_cons P). destruct (decide (P e.1)) as [Hp|]; [|done].
    destruct Hk. by apply HPK.
Qed.

Lemma votersForThisOption_known h lobby rd o authorId author :
  votersForThisOption h lobby
    (BullRound.set_votes (filter (knownVoter h lobby) (BullRound.votes rd)) rd)
    o authorId author
  = votersForThisOption h lobby rd o authorId author.
Proof.
  unfold votersForThisOption. simpl.
  apply filter_fst_filter_known.
  intros e He. by apply isConfusedOpponent_known in He.
Qed.

Lemma votersForThisOption_Forall_known h lobby rd o authorId author :
  Forall (λ v, is_Some (findPlayer h (Lobby.players lobby) v))
    (votersForThisOption h lobby rd o authorId author).
Proof.
  apply List.Forall_forall. intros v Hv%list_elem_of_In.
  apply list_elem_of_filter in Hv as [Hc _].
  by apply isConfusedOpponent_known in Hc.
Qed.

Lemma processOption_known h lobby rd st o :
  same_identity h (Calc.store st) →
  processOption lobby
    (BullRound.set_votes (filter (knownVoter h lobby) (BullRound.votes rd)) rd)
    st o
  = processOption lobby rd st o.
Proof.
  intros Hsame. rewrite !(processOption_eq h) by done.
  destruct (RoundOption.origin o) as [| |authorId]; [done..|].
  destruct (findPlayer h _ _) as [author|]; [|done].
  unfold confusionBonus. by rewrite votersForThisOption_known.
Qed.

Lemma fold_processOption_known h lobby rd options st :
  same_identity h (Calc.store st) →
  fold_left
    (processOption lobby
       (BullRound.set_votes (filter (knownVoter h lobby) (BullRound.votes rd)) rd))
    options st
  = fold_left (processOption lobby rd) options st.
Proof.
  revert st. induction options as [|o os IH]; intros st Hsame; simpl; [done|].
  rewrite (processOption_known h) by done.
  by apply IH, processOption_same_identity.
Qed.

Lemma processOption_unknown_author h lobby rd st o authorId :
  same_identity h (Calc.store st) →
  RoundOption.origin o = OriginPlayer authorId →
  findPlayer h (Lobby.players lobby) authorId = None →
  processOption lobby rd st o = st.
Proof.
  intros Hsame Ho Hun. rewrite (processOption_eq h) by done.
  by rewrite Ho, Hun.
Qed.

Lemma obj_set_elem {V} (o : obj V) k v k' v' :
  (k', v') ∈ obj_set o k v → (k' = k ∧ v' = v) ∨ (k', v') ∈ o.
Proof.
  induction o as [|[k0 v0] o IH]; simpl.
  - rewrite list_elem_of_singleton. naive_solver.
  - case_bool_decide; rewrite !elem_of_cons; naive_solver.
Qed.

Lemma processVote_keys_known h lobby rd correctOption st vote :
  same_identity h (Calc.store st) →
  keys_known h lobby st →
  keys_known h lobby (processVote lobby rd correctOption st vote).
Proof.
  intros Hsame [Hk Hc]. destruct vote as [playerId optionId].
  rewrite (processVote_eq h) by done.
  destruct (findPlayer h _ playerId) as [player|] eqn:Hp; [|done].
  destruct (findOption _ _); [|done].
  split; simpl; [|done].
  intros k. rewrite !obj_keys_set.
  intros [[->|?]|[[->|?]|?]]; eauto.
Qed.

Lemma processOption_keys_known h lobby rd st o :
  same_identity h (Calc.store st) →
  keys_known h lobby st →
  keys_known h lobby (processOption lobby rd st o).
Proof.
  intros Hsame [Hk Hc]. rewrite (processOption_eq h) by done.
  destruct (RoundOption.origin o) as [| |authorId]; [done..|].
  destruct (findPlayer h _ authorId) as [author|] eqn:Ha; [|done].
  simpl. case_bool_decide; [done|].
  split; simpl.
  - intros k. rewrite !obj_keys_set.
    intros [?|[[->|?]|[->|?]]]; eauto.
  - intros a vs [[_ ->]|?]%obj_set_elem; [|eauto].
    apply votersForThisOption_Forall_known.
Qed.

Lemma fold_processVote_keys_known h lobby rd correctOption votes st :
  same_identity h (Calc.store st) →
  keys_known h lobby st →
  keys_known h lobby (fold_left (processVote lobby rd correctOption) votes st).
Proof.
  revert st. induction votes as [|v votes IH]; intros st Hsame Hk; simpl; [done|].
  apply IH; [by apply processVote_same_identity|by apply processVote_keys_known].
Qed.

Lemma fold_processOption_keys_known h lobby rd options st :
  same_identity h (Calc.store st) →
  keys_known h lobby st →
  keys_known h lobby (fold_left (processOption lobby rd) options st).
Proof.
  revert st. induction options as [|o os IH]; intros st Hsame Hk; simpl; [done|].
  apply IH; [by apply processOption_same_identity
            |by apply processOption_keys_known].
Qed.

Lemma calculateRoundResults_eq h lobby gs rd correctOption :
  Lobby.gameState lobby = Some gs →
  getCurrentRound gs = Some rd →
  findCorrectOption (BullRound.options rd) = Some correctOption →
  let st := scoringLoops h lobby gs rd correctOption in
  calculateRoundResults h lobby
  = Ok (RoundResult.mk (BullRound.number rd) (BullRound.question rd)
          (RoundOption.id correctOption) (Calc.votes st)
          (Calc.pointsAwarded st) (Calc.newScores st)
          (Calc.confusionResults st),
        Calc.store st,
        Lobby.set_gameState
          (Some (BullGameState.set_phase results
                   (BullGameState.set_scores (Calc.newScores st)
                      (setCurrentRound gs
                         (BullRound.set_status RoundFinished
                            (BullRound.set_pointsAwarded (Calc.roundPoints st)
                               rd))))))
          lobby).
Proof.
  intros Hgs Hrd Hc. unfold calculateRoundResults. by rewrite Hgs, Hrd, Hc.
Qed.

Lemma calculateRoundResults_Ok h lobby gs rd res h' lobby' :
  Lobby.gameState lobby = Some gs →
  getCurrentRound gs = Some rd →
  calculateRoundResults h lobby = Ok (res, h', lobby') →
  ∃ correctOption,
    findCorrectOption (BullRound.options rd) = Some correctOption
    ∧ let st := scoringLoops h lobby gs rd correctOption in
      res = RoundResult.mk (BullRound.number rd) (BullRound.question rd)
              (RoundOption.id correctOption) (Calc.votes st)
              (Calc.pointsAwarded st) (Calc.newScores st)
              (Calc.confusionResults st)
      ∧ h' = Calc.store st
      ∧ Lobby.gameState lobby'
        = Some (BullGameState.set_phase results
                  (BullGameState.set_scores (Calc.newScores st)
                     (setCurrentRound gs
                        (BullRound.set_status RoundFinished
                           (BullRound.set_pointsAwarded (Calc.roundPoints st)
                              rd))))).
Proof.
  intros Hgs Hrd.
  destruct (findCorrectOption (BullRound.options rd)) as [c|] eqn:Hc.
  - rewrite (calculateRoundResults_eq h lobby gs rd c) by done.
    intros [= <- <- <-]. by exists c.
  - unfold calculateRoundResults. by rewrite Hgs, Hrd, Hc.
Qed.

Lemma scoringLoops_known h lobby x gs gs0 rd c :
  BullGameState.scores gs0 = BullGameState.scores gs →
  scoringLoops h (Lobby.set_gameState x lobby) gs0
    (BullRound.set_votes (filter (knownVoter h lobby) (BullRound.votes rd)) rd) c
  = scoringLoops h lobby gs rd c.
Proof.
  intros Hsc. unfold scoringLoops. rewrite Hsc.
  rewrite (fold_processVote_known h lobby rd c (BullRound.votes rd)) by done.
  set (fv := filter (knownVoter h lobby) (BullRound.votes rd)).
  change (processVote (Lobby.set_gameState x lobby) (BullRound.set_votes fv rd) c)
    with (processVote lobby rd c).
  change (processOption (Lobby.set_gameState x lobby) (BullRound.set_votes fv rd))
    with (processOption lobby (BullRound.set_votes fv rd)).
  subst fv. simpl.
  by rewrite (fold_processOption_known h)
    by by apply fold_processVote_same_identity.
Qed.

Lemma scores_setCurrentRound gs r :
  BullGameState.scores (setCurrentRound gs r) = BullGameState.scores gs.
Proof. unfold setCurrentRound. by destruct (list_find _ _) as [[]|]. Qed.

Lemma scoringLoops_keys_known h lobby gs rd c :
  keys_known h lobby (scoringLoops h lobby gs rd c).
Proof.
  unfold scoringLoops.
  apply fold_processOption_keys_known;
    [by apply fold_processVote_same_identity|].
  apply fold_processVote_keys_known; [done|].
  split; simpl; intros *; rewrite ?elem_of_nil; naive_solver.
Qed.

(** C10.  In [calculateRoundResults], the recorded votes whose voter id
    matches no player of [lobby.players] are skipped: the result, the
    player objects (so every score) and the game scores are those computed
    from the round without these votes; no id that matches no player is a
    key of the result's [votes], [pointsAwarded] or [confusionResults], nor
    a member of any recorded confusion list.  Likewise the loop body leaves
    everything as it is at a player-authored option whose author matches no
    player of [lobby.players]. *)
Theorem C10_orphan_votes_and_authors_skipped h lobby gs rd res h' lobby' :
  Lobby.gameState lobby = Some gs →
  getCurrentRound gs = Some rd →
  calculateRoundResults h lobby = Ok (res, h', lobby') →
  (∃ lobby'',
     calculateRoundResults h
       (withVotes lobby (filter (knownVoter h lobby) (BullRound.votes rd)))
     = Ok (res, h', lobby'')
     ∧ BullGameState.scores <$> Lobby.gameState lobby''
       = BullGameState.scores <$> Lobby.gameState lobby')
  ∧ (∀ k, findPlayer h (Lobby.players lobby) k = None →
          obj_get (RoundResult.votes res) k = None
          ∧ obj_get (RoundResult.pointsAwarded res) k = None
          ∧ obj_get (RoundResult.confusionResults res) k = None)
  ∧ (∀ a vs v, obj_get (RoundResult.confusionResults res) a = Some vs →
               v ∈ vs → is_Some (findPlayer h (Lobby.players lobby) v))
  ∧ (∀ o a st,
       o ∈ BullRound.options rd →
       RoundOption.origin o = OriginPlayer a →
       findPlayer h (Lobby.players lobby) a = None →
       same_identity h (Calc.store st) →
       processOption lobby rd st o = st).
Proof.
  intros Hgs Hrd Hcalc.
  destruct (calculateRoundResults_Ok _ _ _ _ _ _ _ Hgs Hrd Hcalc)
    as (c & Hc & -> & -> & Hgs').
  pose proof (scoringLoops_keys_known h lobby gs rd c) as [Hkeys Hlists].
  split_and!.
  - set (fv := filter (knownVoter h lobby) (BullRound.votes rd)).
    unfold withVotes. rewrite Hgs, Hrd.
    rewrite (calculateRoundResults_eq h _
               (setCurrentRound gs (BullRound.set_votes fv rd))
               (BullRound.set_votes fv rd) c);
      [|done|by apply (getCurrentRound_setCurrentRound gs rd)|done].
    unfold fv. rewrite (scoringLoops_known h lobby _ gs)
      by apply scores_setCurrentRound.
    eexists. split; [reflexivity|]. by rewrite Hgs'.
  - intros k Hk. simpl.
    rewrite !obj_get_None. split_and!; intros Hin;
      destruct (Hkeys k) as [? ?]; eauto; congruence.
  - simpl. intros a vs v Hvs%obj_get_Some_elem Hv.
    apply Hlists in Hvs. rewrite List.Forall_forall in Hvs.
    by apply Hvs, list_elem_of_In.
  - intros o a st _ Ho Ha Hsame. by eapply processOption_unknown_author.
Qed.

(** *** What one author gets *)

Section Author.
Context (h : heap) (lobby : Lobby.t) (rd : BullRound.t)
        (correctOption : RoundOption.t) (a : string) (la : loc).
Hypothesis Hauthor : findPlayer h (Lobby.players lobby) a = Some la.

Lemma authorView_inv st1 st2 :
  authorView a la st1 = authorView a la st2 →
  Player.score (Calc.store st1 la) = Player.score (Calc.store st2 la)
  ∧ obj_get (Calc.pointsAwarded st1) a = obj_get (Calc.pointsAwarded st2) a
  ∧ obj_get (Calc.confusionResults st1) a
    = obj_get (Calc.confusionResults st2) a.
Proof. unfold authorView. by intros [= -> -> ->]. Qed.

Lemma findPlayer_other playerId l :
  playerId ≠ a → findPlayer h (Lobby.players lobby) playerId = Some l → l ≠ la.
Proof.
  intros Hne Hl ->.
  apply findPlayer_Some in Hl as [Hl _].
  apply findPlayer_Some in Hauthor as [Ha _]. congruence.
Qed.

Lemma score_addPlayerScore_ne (h0 : heap) l n :
  l ≠ la → Player.score (addPlayerScore h0 l n la) = Player.score (h0 la).
Proof. intros Hne. unfold addPlayerScore. by rewrite fn_lookup_insert_ne. Qed.

Lemma score_addPlayerScore_eq (h0 : heap) n :
  Player.score (addPlayerScore h0 la n la) = Player.score (h0 la) + n.
Proof. unfold addPlayerScore. by rewrite fn_lookup_insert. Qed.

Lemma processVote_other st playerId optionId :
  same_identity h (Calc.store st) →
  playerId ≠ a →
  authorView a la (processVote lobby rd correctOption st (playerId, optionId))
  = authorView a la st.
Proof.
  intros Hsame Hne. rewrite (processVote_eq h) by done.
  destruct (findPlayer h _ playerId) as [l|] eqn:Hl; [|done].
  destruct (findOption _ _); [|done].
  unfold authorView. simpl.
  rewrite score_addPlayerScore_ne by by eapply findPlayer_other.
  by rewrite obj_get_set_ne.
Qed.

Lemma fold_processVote_other st votes :
  same_identity h (Calc.store st) →
  a ∉ obj_keys votes →
  authorView a la (fold_left (processVote lobby rd correctOption) votes st)
  = authorView a la st.
Proof.
  revert st. induction votes as [|[p oid] votes IH]; intros st Hsame Hnin;
    cbn [fold_left]; [done|].
  unfold obj_keys in Hnin. csimpl in Hnin.
  apply not_elem_of_cons in Hnin as [Hne Hnin].
  rewrite IH; [|by apply processVote_same_identity|done].
  by apply processVote_other.
Qed.

(** The vote loop: the author's own vote credits them its points. *)
Lemma fold_processVote_author st votes :
  same_identity h (Calc.store st) →
  NoDup (obj_keys votes) →
  obj_get (Calc.pointsAwarded st) a = None →
  let st' := fold_left (processVote lobby rd correctOption) votes st in
  let own :=
    match obj_get votes a with
    | Some optionId => votePoints lobby rd correctOption optionId
    | None => 0
    end in
  Player.score (Calc.store st' la) = Player.score (Calc.store st la) + own
  ∧ default 0 (obj_get (Calc.pointsAwarded st') a) = own
  ∧ obj_get (Calc.confusionResults st') a
    = obj_get (Calc.confusionResults st) a.
Proof.
  revert st. induction votes as [|[p oid] votes IH]; intros st Hsame Hnd Hpa.
  { simpl. rewrite Hpa. split_and!; [lia|done..]. }
  unfold obj_keys in Hnd. csimpl in Hnd.
  inversion_clear Hnd as [|?? Hnin Hnd']. rename Hnd' into Hnd.
  cbn [fold_left obj_get]. case_bool_decide as Hp.
  - subst p.
    pose proof (fold_processVote_other
                  (processVote lobby rd correctOption st (a, oid)) votes
                  (processVote_same_identity _ _ _ _ _ _ Hsame) Hnin) as Hview.
    apply authorView_inv in Hview as (Hs & Hp & Hc). rewrite Hs, Hp, Hc.
    rewrite (processVote_eq h) by done. rewrite Hauthor.
    unfold votePoints.
    destruct (findOption _ _); simpl.
    + rewrite score_addPlayerScore_eq, obj_get_set_eq. done.
    + rewrite Hpa. split_and!; [lia|done..].
  - destruct (IH (processVote lobby rd correctOption st (p, oid)))
      as (Hs & Hp' & Hc); [by apply processVote_same_identity|done|..].
    { pose proof (processVote_other st p oid Hsame Hp) as Hview.
      apply authorView_inv in Hview as (_ & -> & _). done. }
    pose proof (processVote_other st p oid Hsame Hp) as Hview.
    apply authorView_inv in Hview as (Hs1 & Hp1 & Hc1).
    rewrite Hs, Hp', Hc, Hs1, Hc1. done.
Qed.

Lemma processOption_other st o :
  same_identity h (Calc.store st) →
  RoundOption.origin o ≠ OriginPlayer a →
  authorView a la (processOption lobby rd st o) = authorView a la st.
Proof.
  intros Hsame Hne. rewrite (processOption_eq h) by done.
  destruct (RoundOption.origin o) as [| |a'] eqn:Ho; [done..|].
  assert (a' ≠ a) as Hne' by congruence.
  destruct (findPlayer h _ a') as [l|] eqn:Hl; [|done].
  simpl. case_bool_decide; [done|].
  unfold authorView. simpl.
  rewrite score_addPlayerScore_ne by by eapply findPlayer_other.
  by rewrite !obj_get_set_ne.
Qed.

Lemma fold_processOption_other st options :
  same_identity h (Calc.store st) →
  filter (λ o, RoundOption.origin o = OriginPlayer a) options = [] →
  authorView a la (fold_left (processOption lobby rd) options st) = authorView a la st.
Proof.
  revert st. induction options as [|o os IH]; intros st Hsame Hf;
    cbn [fold_left]; [done|].
  rewrite filter_cons in Hf. destruct (decide _) as [|Hne]; [done|].
  rewrite IH; [|by apply processOption_same_identity|done].
  by apply processOption_other.
Qed.

(** The option loop: the one option the author wrote credits them the
    bonus, when somebody was confused. *)
Lemma fold_processOption_author st options o :
  same_identity h (Calc.store st) →
  filter (λ o, RoundOption.origin o = OriginPlayer a) options = [o] →
  let st' := fold_left (processOption lobby rd) options st in
  let voters := votersForThisOption h lobby rd o a la in
  let bonus := confusionBonus h lobby rd o a la in
  Player.score (Calc.store st' la) = Player.score (Calc.store st la) + bonus
  ∧ default 0 (obj_get (Calc.pointsAwarded st') a)
    = default 0 (obj_get (Calc.pointsAwarded st) a) + bonus
  ∧ obj_get (Calc.confusionResults st') a
    = if bool_decide (voters = []) then obj_get (Calc.confusionResults st) a
      else Some voters.
Proof.
  revert st. induction options as [|o' os IH]; intros st Hsame Hf; [done|].
  rewrite filter_cons in Hf. cbn [fold_left].
  destruct (decide (RoundOption.origin o' = OriginPlayer a)) as [Ho|Hne].
  - injection Hf as -> Hf.
    pose proof (fold_processOption_other (processOption lobby rd st o) os
                  (processOption_same_identity _ _ _ _ _ Hsame) Hf) as Hview.
    apply authorView_inv in Hview as (Hs & Hp & Hc).
    rewrite Hs, Hp, Hc.
    rewrite (processOption_eq h) by done. rewrite Ho, Hauthor.
    cbv zeta. unfold confusionBonus.
    case_bool_decide as Hv.
    + rewrite Hv. simpl. split_and!; [lia|lia|done].
    + simpl. rewrite score_addPlayerScore_eq, !obj_get_set_eq. done.
  - destruct (IH (processOption lobby rd st o')) as (Hs & Hp & Hc);
      [by apply processOption_same_identity|done|].
    pose proof (processOption_other st o' Hsame Hne) as Hview.
    apply authorView_inv in Hview as (Hs1 & Hp1 & Hc1).
    rewrite Hs, Hp, Hc, Hs1, Hp1, Hc1. done.
Qed.
End Author.

(** *** Team totals *)

Lemma get_addTeamScore s tm' n tm :
  Scores.get (addTeamScore s tm' n) tm
  = Scores.get s tm + (if bool_decide (tm' = Some tm) then n else 0).
Proof.
  destruct tm' as [[]|], tm, s; simpl;
    repeat case_bool_decide; simplify_eq; simpl; lia.
Qed.

Lemma fold_processVote_newScores h lobby rd c votes st tm :
  same_identity h (Calc.store st) →
  Scores.get
    (Calc.newScores (fold_left (processVote lobby rd c) votes st)) tm
  = Scores.get (Calc.newScores st) tm
    + Zsum (teamVotePoints h lobby rd c tm <$> votes).
Proof.
  revert st. induction votes as [|[p oid] votes IH]; intros st Hsame;
    cbn [fold_left].
  { unfold Zsum. simpl. lia. }
  rewrite IH by by apply processVote_same_identity.
  rewrite (processVote_eq h) by done.
  unfold Zsum, teamVotePoints. csimpl.
  destruct (findPlayer h _ p) as [l|]; [|lia].
  unfold votePoints.
  destruct (findOption _ _); simpl.
  - rewrite get_addTeamScore. lia.
  - case_bool_decide; lia.
Qed.

Lemma fold_processOption_newScores h lobby rd options st tm :
  same_identity h (Calc.store st) →
  Scores.get
    (Calc.newScores (fold_left (processOption lobby rd) options st)) tm
  = Scores.get (Calc.newScores st) tm
    + Zsum (teamConfusionBonus h lobby rd tm <$> options).
Proof.
  revert st. induction options as [|o os IH]; intros st Hsame; cbn [fold_left].
  { unfold Zsum. simpl. lia. }
  rewrite IH by by apply processOption_same_identity.
  rewrite (processOption_eq h) by done.
  unfold Zsum, teamConfusionBonus. csimpl.
  destruct (RoundOption.origin o) as [| |a']; [lia..|].
  destruct (findPlayer h _ a') as [l|]; [|lia].
  cbv zeta. case_bool_decide as Hv; simpl.
  - unfold confusionBonus. rewrite Hv. simpl. case_bool_decide; lia.
  - rewrite get_addTeamScore. lia.
Qed.

(** Who counts as confused: the voters of the option other than its
    author who are on the roster, in a team, and not in the author's. *)
Lemma elem_of_votersForThisOption h lobby rd o a la v :
  v ∈ votersForThisOption h lobby rd o a la
  ↔ (v, RoundOption.id o) ∈ BullRound.votes rd
    ∧ v ≠ a
    ∧ ∃ lv tm, findPlayer h (Lobby.players lobby) v = Some lv
               ∧ Player.team (h lv) = Some tm
               ∧ Some tm ≠ Player.team (h la).
Proof.
  unfold votersForThisOption.
  rewrite list_elem_of_filter, list_elem_of_fmap.
  unfold isConfusedOpponent. split.
  - intros [Hc ([v' oid] & -> & [Ho Hin]%list_elem_of_filter)].
    simpl in *. subst oid. split; [done|].
    case_bool_decide; [done|]. split; [done|].
    destruct (findPlayer h _ v') as [lv|] eqn:Hlv; [|done].
    destruct (Player.team (h lv)) as [tm|] eqn:Htm; [|done].
    apply bool_decide_eq_true in Hc. by exists lv, tm.
  - intros (Hin & Hne & lv & tm & Hlv & Htm & Hopp). split.
    + rewrite bool_decide_eq_false_2 by done. rewrite Hlv, Htm.
      by apply bool_decide_eq_true.
    + exists (v, RoundOption.id o). split; [done|].
      by apply list_elem_of_filter.
Qed.

Lemma NoDup_votersForThisOption h lobby rd o a la :
  NoDup (obj_keys (BullRound.votes rd)) →
  NoDup (votersForThisOption h lobby rd o a la).
Proof.
  intros Hnd. unfold votersForThisOption.
  apply NoDup_filter.
  unfold obj_keys in Hnd. revert Hnd.
  induction (BullRound.votes rd) as [|[v oid] votes IH]; [done|].
  rewrite filter_cons, fmap_cons. intros [Hnin Hnd]%NoDup_cons.
  destruct (decide _); [|by apply IH]. rewrite fmap_cons.
  apply NoDup_cons. split; [|by apply IH].
  intros ([v' oid'] & Hv & [_ Hin]%list_elem_of_filter)%list_elem_of_fmap.
  apply Hnin. apply list_elem_of_fmap. by exists (v', oid').
Qed.

Lemma team_opposite (tm tm' : Team.t) : Some tm' ≠ Some tm ↔ tm' = Team.other tm.
Proof. destruct tm, tm'; naive_solver. Qed.

(** C2.  Take a round whose votes are keyed by distinct voter ids and an
    option [o], the only one written by the player [a], who is on the
    roster (object [la]) in team [tm].  The confused voters are the voters
    of [o] other than [a] that are on the roster in the team opposite to
    [tm]; voters of the author's own team are never among them.  The bonus
    is their number times [settings.pointsConfuseOpponent].  When there is
    none, nothing is recorded as [a]'s confusion result; otherwise their id
    list is.  The author's score and points of the round grow by the
    correct-answer points of their own vote plus the bonus, and the bonus
    is one of the summands of the author's team total. *)
Theorem C2_confusion_bonus h lobby gs rd res h' lobby' o a la tm :
  Lobby.gameState lobby = Some gs →
  getCurrentRound gs = Some rd →
  calculateRoundResults h lobby = Ok (res, h', lobby') →
  NoDup (obj_keys (BullRound.votes rd)) →
  filter (λ o', RoundOption.origin o' = OriginPlayer a) (BullRound.options rd)
  = [o] →
  findPlayer h (Lobby.players lobby) a = Some la →
  Player.team (h la) = Some tm →
  let voters := votersForThisOption h lobby rd o a la in
  let bonus :=
    Z.of_nat (length voters)
    * GameSettings.pointsConfuseOpponent (Lobby.settings lobby) in
  ∃ c,
    findCorrectOption (BullRound.options rd) = Some c
    ∧ NoDup voters
    ∧ (∀ v, v ∈ voters
            ↔ (v, RoundOption.id o) ∈ BullRound.votes rd
              ∧ v ≠ a
              ∧ ∃ lv, findPlayer h (Lobby.players lobby) v = Some lv
                      ∧ Player.team (h lv) = Some (Team.other tm))
    ∧ obj_get (RoundResult.confusionResults res) a
      = (if bool_decide (voters = []) then None else Some voters)
    ∧ Player.score (h' la)
      = Player.score (h la) + ownVotePoints lobby rd c a + bonus
    ∧ default 0 (obj_get (RoundResult.pointsAwarded res) a)
      = ownVotePoints lobby rd c a + bonus
    ∧ Scores.get (RoundResult.newScores res) tm
      = Scores.get (BullGameState.scores gs) tm
        + Zsum (teamVotePoints h lobby rd c tm <$> BullRound.votes rd)
        + Zsum (teamConfusionBonus h lobby rd tm <$> BullRound.options rd)
    ∧ o ∈ BullRound.options rd
    ∧ teamConfusionBonus h lobby rd tm o = bonus.
Proof.
  intros Hgs Hrd Hcalc Hnd Hfilter Hla Htm voters bonus.
  destruct (calculateRoundResults_Ok _ _ _ _ _ _ _ Hgs Hrd Hcalc)
    as (c & Hc & -> & -> & _).
  exists c. unfold scoringLoops. simpl.
  set (st0 := Calc.mk [] [] (BullGameState.scores gs) []
                (BullRound.pointsAwarded rd) h).
  set (st1 := fold_left (processVote lobby rd c) (BullRound.votes rd) st0).
  assert (same_identity h (Calc.store st1)) as Hsame1
    by by apply fold_processVote_same_identity.
  destruct (fold_processVote_author h lobby rd c a la Hla st0
              (BullRound.votes rd)) as (Hs1 & Hp1 & Hc1); [done..|].
  destruct (fold_processOption_author h lobby rd a la Hla st1
              (BullRound.options rd) o Hsame1 Hfilter) as (Hs2 & Hp2 & Hc2).
  fold st1 in Hs1, Hp1, Hc1.
  assert (o ∈ BullRound.options rd) as Hin.
  { assert (o ∈ [o]) as Ho by left. rewrite <- Hfilter in Ho.
    by apply list_elem_of_filter in Ho as [_ ?]. }
  assert (RoundOption.origin o = OriginPlayer a) as Horigin.
  { assert (o ∈ [o]) as Ho by left. rewrite <- Hfilter in Ho.
    by apply list_elem_of_filter in Ho as [? _]. }
  split_and!.
  - done.
  - by apply NoDup_votersForThisOption.
  - intros v. unfold voters. rewrite elem_of_votersForThisOption, Htm.
    split.
    + intros (? & ? & lv & tm' & ? & ? & ->%team_opposite). eauto.
    + intros (? & ? & lv & ? & ?). split_and!; [done..|].
      exists lv, (Team.other tm). split_and!; [done..|]. by apply team_opposite.
  - rewrite Hc2, Hc1. done.
  - rewrite Hs2, Hs1. unfold ownVotePoints, confusionBonus. done.
  - rewrite Hp2, Hp1. unfold ownVotePoints, confusionBonus. done.
  - rewrite (fold_processOption_newScores h) by done.
    unfold st1. rewrite (fold_processVote_newScores h) by done. done.
  - done.
  - unfold teamConfusionBonus. rewrite Horigin, Hla, Htm.
    by rewrite bool_decide_eq_true_2.
Qed.

(** ** Team lists stay disjoint and consistent *)

Lemma obj_get_delete {V} (o : obj V) k k' :
  obj_get (obj_delete o k) k' = if bool_decide (k = k') then None else obj_get o k'.
Proof.
  unfold obj_delete. induction o as [|[k0 v0] o IH]; simpl.
  - by case_bool_decide.
  - rewrite filter_cons. simpl. destruct (decide (k0 ≠ k)) as [Hne|Heq%dec_stable].
    + simpl. rewrite IH. repeat case_bool_decide; congruence.
    + subst k0. rewrite IH. repeat case_bool_decide; congruence.
Qed.

Lemma findPlayer_agree h h' players playerId :
  (∀ p, p ∈ players → Player.id (h' p) = Player.id (h p)) →
  findPlayer h' players playerId = findPlayer h players playerId.
Proof.
  unfold findPlayer. intros Hag. f_equal.
  induction players as [|p ps IH]; [done|]. simpl.
  rewrite (Hag p) by left.
  destruct (decide _); [done|]. rewrite IH; [done|].
  intros q Hq. apply Hag. by right.
Qed.

Lemma findPlayer_app_l h ps qs playerId p :
  findPlayer h ps playerId = Some p → findPlayer h (ps ++ qs) playerId = Some p.
Proof.
  unfold findPlayer. intros ([i p'] & Hf & ->)%fmap_Some.
  by rewrite (list_find_app_l _ _ _ _ _ Hf).
Qed.

Lemma snd_list_find_cons {A} (P : A → Prop) `{∀ x, Decision (P x)} x l :
  snd <$> list_find P (x :: l)
  = if decide (P x) then Some x else snd <$> list_find P l.
Proof.
  simpl. destruct (decide (P x)); [done|].
  destruct (list_find P l) as [[]|]; done.
Qed.

Lemma findPlayer_delete h ps i lp playerId x :
  list_find (λ p, Player.id (h p) = playerId) ps = Some (i, lp) →
  x ≠ playerId →
  findPlayer h (delete i ps) x = findPlayer h ps x.
Proof.
  unfold findPlayer. intros Hf Hne.
  apply list_find_Some in Hf as (Hi & Hid & _).
  revert i Hi. induction ps as [|p ps IH]; intros i Hi; [done|].
  destruct i as [|i]; cbn [delete list_delete].
  - simpl in Hi. simplify_eq. rewrite (snd_list_find_cons _ lp).
    destruct (decide _); [congruence|done].
  - rewrite !snd_list_find_cons. destruct (decide _); [done|]. by apply IH.
Qed.

Lemma elem_of_delete {A} (l : list A) i x : x ∈ delete i l → x ∈ l.
Proof.
  revert i. induction l as [|y l IH]; intros i; [done|].
  destruct i as [|i]; simpl.
  - by right.
  - rewrite !elem_of_cons. naive_solver.
Qed.

Lemma lobby_teams_ok_disjoint h next lobby p q :
  lobby_teams_ok h next lobby →
  p ∈ Lobby.teams_blue lobby → q ∈ Lobby.teams_red lobby →
  Player.id (h p) ≠ Player.id (h q).
Proof.
  intros [_ Hteams] Hp Hq Heq.
  destruct (Hteams Team.blue p Hp) as [Hfp Htp].
  destruct (Hteams Team.red q Hq) as [Hfq Htq].
  rewrite Heq, Hfq in Hfp. simplify_eq.
Qed.

(** A step that keeps rosters and team lists, and only rewrites fields
    other than the id and the team of player objects. *)
Lemma lobby_teams_ok_frame h h' next lobby lobby' :
  same_identity h h' → same_members lobby lobby' →
  lobby_teams_ok h next lobby → lobby_teams_ok h' next lobby'.
Proof.
  intros Hsame (Hp & Hb & Hr) [Hal Hteams]. split.
  - rewrite Hp. done.
  - intros tm p Hin.
    assert (p ∈ Lobby.teams lobby tm) as Hin'.
    { destruct tm; simpl in *; congruence. }
    destruct (Hteams tm p Hin') as [Hf Ht].
    rewrite Hp, (findPlayer_same_identity h h') by done.
    rewrite (proj1 (Hsame p)), (proj2 (Hsame p)). done.
Qed.

Lemma world_ok_frame w h' code lobby lobby' sel :
  world_ok w →
  obj_get (World.lobbies w) code = Some lobby →
  same_identity (World.store w) h' → same_members lobby lobby' →
  world_ok (World.mk h' (World.next w)
              (obj_set (World.lobbies w) code lobby') sel).
Proof.
  intros [Hok Hsep] Hget Hsame Hmem. split; simpl.
  - intros c l. destruct (decide (code = c)) as [<-|Hne].
    + rewrite obj_get_set_eq. intros [= <-].
      eapply lobby_teams_ok_frame; eauto.
    + rewrite obj_get_set_ne by done. intros Hl.
      eapply lobby_teams_ok_frame; eauto. by split_and!.
  - intros c1 l1 c2 l2 p.
    destruct Hmem as (Hp & _).
    destruct (decide (code = c1)) as [<-|Hne1];
      destruct (decide (code = c2)) as [<-|Hne2];
      rewrite ?obj_get_set_eq, ?obj_get_set_ne by done; try done.
    + intros [= <-] Hl2. rewrite Hp. eauto.
    + intros Hl1 [= <-]. rewrite Hp. eauto.
    + eauto.
Qed.

Lemma world_ok_store w h' :
  world_ok w → same_identity (World.store w) h' →
  world_ok (World.set_store h' w).
Proof.
  intros [Hok Hsep] Hsame. split; simpl; [|done].
  intros c l Hl. eapply lobby_teams_ok_frame; eauto. by split_and!.
Qed.

Lemma world_ok_selector w sel :
  world_ok w → world_ok (World.set_playerSelector sel w).
Proof. by intros [Hok Hsep]. Qed.

(** The game operations keep the roster and the team lists. *)

Local Ltac members_kept :=
  intros;
  repeat (case_match || case_bool_decide); simplify_eq;
  try (split_and!; reflexivity).

Lemma same_members_refl lobby : same_members lobby lobby.
Proof. by split_and!. Qed.

Lemma startGame_members sel h lobby gs sel' lobby' :
  startGame sel h lobby = Ok (gs, sel', lobby') → same_members lobby lobby'.
Proof. unfold startGame. members_kept. Qed.

Lemma startRound_members sel h lobby n rnd sel' rd lobby' :
  startRound sel h lobby n rnd = (sel', Ok (rd, lobby')) →
  same_members lobby lobby'.
Proof. unfold startRound. members_kept. Qed.

Lemma submitAnswer_members `{JsString} h lobby playerId answer lobby' :
  submitAnswer h lobby playerId answer = Ok lobby' → same_members lobby lobby'.
Proof. unfold submitAnswer. members_kept. Qed.

Lemma markPlayerReady_members h lobby playerId lobby' :
  markPlayerReady h lobby playerId = Ok lobby' → same_members lobby lobby'.
Proof. unfold markPlayerReady. members_kept. Qed.

Lemma prepareVotingOptions_members uuid rnd lobby opts lobby' :
  prepareVotingOptions uuid rnd lobby = Ok (opts, lobby') →
  same_members lobby lobby'.
Proof. unfold prepareVotingOptions. members_kept. Qed.

Lemma submitVote_members lobby playerId optionId lobby' :
  submitVote lobby playerId optionId = Ok lobby' → same_members lobby lobby'.
Proof. unfold submitVote. members_kept. Qed.

Lemma finishGame_members lobby w s lobby' :
  finishGame lobby = Ok (w, s, lobby') → same_members lobby lobby'.
Proof. unfold finishGame. members_kept. Qed.

Lemma calculateRoundResults_members h lobby res h' lobby' :
  calculateRoundResults h lobby = Ok (res, h', lobby') →
  same_members lobby lobby' ∧ same_identity h h'.
Proof.
  unfold calculateRoundResults. intros Hcalc.
  repeat case_match; simplify_eq. split; [by split_and!|].
  apply fold_processOption_same_identity, fold_processVote_same_identity.
  done.
Qed.

Lemma same_identity_insert h h' l (f : Player.t → Player.t) :
  (∀ p, Player.id (f p) = Player.id p ∧ Player.team (f p) = Player.team p) →
  same_identity h h' → same_identity h (<[l := f (h' l)]> h').
Proof.
  intros Hf Hsame l'. destruct (decide (l = l')) as [->|Hne].
  - rewrite fn_lookup_insert. destruct (Hf (h' l')) as [-> ->]. apply Hsame.
  - rewrite fn_lookup_insert_ne by done. apply Hsame.
Qed.

Lemma resetGame_members h lobby h' lobby' :
  resetGame h lobby = (h', lobby') →
  same_members lobby lobby' ∧ same_identity h h'.
Proof.
  unfold resetGame. intros [= <- <-]. split; [by split_and!|]. simpl.
  assert (same_identity h h) as Hrefl by done. revert Hrefl.
  generalize h at 2 4. induction (Lobby.players lobby) as [|p ps IH];
    intros h0 Hsame; simpl; [done|].
  apply IH.
  by apply (same_identity_insert h h0 p
              (λ x, Player.set_isReady false (Player.set_score 0 x))).
Qed.

(** The lobby operations. *)

Lemma world_ok_init : world_ok World_init.
Proof. split; simpl; intros; done. Qed.

Lemma createLobby_ok w hostName socketId codes uuid lobby hostId w' :
  world_ok w →
  createLobby w hostName socketId codes uuid = Ok (lobby, hostId, w') →
  world_ok w'.
Proof.
  intros [Hok Hsep]. unfold createLobby. case_bool_decide; [done|].
  destruct (generateUniqueLobbyCode _ _) as [code|]; [|done].
  simpl. intros [= <- <- <-]. split; simpl.
  - intros c l. destruct (decide (code = c)) as [<-|Hne].
    + rewrite obj_get_set_eq. intros [= <-]. split; simpl.
      * intros p Hp. by apply elem_of_nil in Hp.
      * intros [] p Hp; by apply elem_of_nil in Hp.
    + rewrite obj_get_set_ne by done. apply Hok.
  - intros c1 l1 c2 l2 p.
    destruct (decide (code = c1)) as [<-|Hne1];
      destruct (decide (code = c2)) as [<-|Hne2];
      rewrite ?obj_get_set_eq, ?obj_get_set_ne by done; try done.
    + intros [= <-] _ Hp. by apply elem_of_nil in Hp.
    + intros _ [= <-] _ Hp. by apply elem_of_nil in Hp.
    + apply Hsep.
Qed.

Lemma lobby_teams_ok_alloc h next lobby newPlayer :
  lobby_teams_ok h next lobby →
  lobby_teams_ok (<[next := newPlayer]> h) (S next) lobby.
Proof.
  intros [Hal Hteams]. split.
  - intros p Hp. specialize (Hal p Hp). lia.
  - intros tm p Hin. destruct (Hteams tm p Hin) as [Hf Ht].
    assert (p ∈ Lobby.players lobby) as Hp by by apply findPlayer_Some in Hf as [_ ?].
    assert (p ≠ next) as Hne by (specialize (Hal p Hp); lia).
    rewrite fn_lookup_insert_ne by done. split; [|done].
    rewrite <- Hf. apply findPlayer_agree.
    intros q Hq. rewrite fn_lookup_insert_ne; [done|].
    specialize (Hal q Hq). lia.
Qed.

Lemma joinLobby_ok `{JsString} w code playerName socketId uuid lobby playerId w' :
  world_ok w →
  joinLobby w code playerName socketId uuid = Ok (lobby, playerId, w') →
  world_ok w'.
Proof.
  intros [Hok Hsep]. unfold joinLobby.
  set (nc := normalizeLobbyCode code).
  destruct (negb _); [done|].
  destruct (obj_get (World.lobbies w) nc) as [l|] eqn:Hl; [|done].
  repeat (case_bool_decide; [done|]).
  intros [= <- <- <-].
  pose proof (Hok nc l Hl) as Hlok.
  split; simpl.
  - intros c l'. destruct (decide (nc = c)) as [<-|Hne].
    + rewrite obj_get_set_eq. intros [= <-].
      apply (lobby_teams_ok_alloc _ _ _
               (Player.mk uuid playerName None false socketId 0 false true))
        in Hlok as [Hal Hteams].
      split; simpl.
      * intros p [Hp|Hp%list_elem_of_singleton]%elem_of_app; [auto|lia].
      * intros tm p Hin.
        assert (p ∈ Lobby.teams l tm) as Hin' by by destruct tm.
        destruct (Hteams tm p Hin') as [Hf Ht]. split; [|done].
        by apply findPlayer_app_l.
    + rewrite obj_get_set_ne by done. intros Hl'.
      by apply lobby_teams_ok_alloc, (Hok c).
  - intros c1 l1 c2 l2 p.
    destruct (decide (nc = c1)) as [<-|Hne1];
      destruct (decide (nc = c2)) as [<-|Hne2];
      rewrite ?obj_get_set_eq, ?obj_get_set_ne by done; try done.
    + intros [= <-] Hl2. simpl.
      intros [Hp|Hp%list_elem_of_singleton]%elem_of_app Hp2; [by eauto|].
      destruct (Hok c2 l2 Hl2) as [Hal _]. specialize (Hal p Hp2). lia.
    + intros Hl1 [= <-]. simpl.
      intros Hp1 [Hp|Hp%list_elem_of_singleton]%elem_of_app; [by eauto|].
      destruct (Hok c1 l1 Hl1) as [Hal _]. specialize (Hal p Hp1). lia.
    + apply Hsep.
Qed.

Lemma toggleReady_ok w code playerId lobby w' :
  world_ok w → toggleReady w code playerId = Ok (lobby, w') → world_ok w'.
Proof.
  intros Hw. unfold toggleReady, getLobby, getPlayer.
  destruct (obj_get _ _); [|done]. simpl.
  destruct (findPlayer _ _ _) as [p|]; [|done]. simpl.
  case_bool_decide; [done|]. intros [= <- <-].
  apply world_ok_store; [done|].
  by apply (same_identity_insert _ _ p
              (λ x, Player.set_isReady (negb (Player.isReady x)) x)).
Qed.

Lemma updateGameSettings_ok w code hostId settings lobby w' :
  world_ok w →
  updateGameSettings w code hostId settings = Ok (lobby, w') → world_ok w'.
Proof.
  intros Hw. unfold updateGameSettings, getLobby.
  destruct (obj_get _ _) as [l|] eqn:Hl; [|done]. simpl.
  repeat (case_bool_decide; [done|]). intros [= <- <-].
  destruct w. by apply (world_ok_frame _ _ _ l).
Qed.

Lemma updatePlayerSocket_ok w code playerId socketId :
  world_ok w → world_ok (updatePlayerSocket w code playerId socketId).
Proof.
  intros Hw. unfold updatePlayerSocket.
  destruct (obj_get _ _); [|done].
  destruct (findPlayer _ _ _) as [p|]; [|done].
  apply world_ok_store; [done|].
  by apply (same_identity_insert _ _ p
              (λ x, Player.set_isConnected true (Player.set_socketId socketId x))).
Qed.

Lemma markPlayerDisconnected_ok w socketId :
  world_ok w → world_ok (markPlayerDisconnected w socketId).2.
Proof.
  intros Hw. unfold markPlayerDisconnected.
  destruct (markPlayerDisconnected_loop _ _ _) as [[l p]|]; [|done]. simpl.
  apply world_ok_store; [done|].
  by apply (same_identity_insert _ _ p (Player.set_isConnected false)).
Qed.

(** A step on one lobby that may rewrite the team of its own players
    only, and does not extend its roster. *)
Lemma lobby_teams_ok_other w h' code lobby c l :
  world_ok w →
  obj_get (World.lobbies w) code = Some lobby →
  (∀ q, Player.id (h' q) = Player.id (World.store w q)) →
  (∀ q, q ∉ Lobby.players lobby →
        Player.team (h' q) = Player.team (World.store w q)) →
  code ≠ c →
  obj_get (World.lobbies w) c = Some l →
  lobby_teams_ok h' (World.next w) l.
Proof.
  intros [Hok Hsep] Hl Hid Hteam Hne Hc.
  destruct (Hok c l Hc) as [Hal Hteams]. split; [done|].
  intros tm p Hin. destruct (Hteams tm p Hin) as [Hf Ht].
  assert (p ∈ Lobby.players l) as Hp by by apply findPlayer_Some in Hf as [_ ?].
  assert (p ∉ Lobby.players lobby) as Hnp.
  { intros Hp'. destruct Hne. by eapply (Hsep code lobby c l p). }
  rewrite Hid, (Hteam p Hnp). split; [|done].
  rewrite <- Hf. by apply findPlayer_agree.
Qed.

Lemma world_ok_replace w h' code lobby lobby' :
  world_ok w →
  obj_get (World.lobbies w) code = Some lobby →
  (∀ q, Player.id (h' q) = Player.id (World.store w q)) →
  (∀ q, q ∉ Lobby.players lobby →
        Player.team (h' q) = Player.team (World.store w q)) →
  (∀ q, q ∈ Lobby.players lobby' → q ∈ Lobby.players lobby) →
  lobby_teams_ok h' (World.next w) lobby' →
  world_ok (World.set_store h'
              (World.set_lobbies (obj_set (World.lobbies w) code lobby') w)).
Proof.
  intros Hw Hl Hid Hteam Hsub Hlok. pose proof Hw as [Hok Hsep]. split; simpl.
  - intros c l. destruct (decide (code = c)) as [<-|Hne].
    + rewrite obj_get_set_eq. by intros [= <-].
    + rewrite obj_get_set_ne by done. by eapply lobby_teams_ok_other.
  - intros c1 l1 c2 l2 p.
    destruct (decide (code = c1)) as [<-|Hne1];
      destruct (decide (code = c2)) as [<-|Hne2];
      rewrite ?obj_get_set_eq, ?obj_get_set_ne by done; try done.
    + intros [= <-] Hl2 Hp. eauto.
    + intros Hl1 [= <-] Hp1 Hp. eauto.
    + apply Hsep.
Qed.

Lemma world_ok_remove w h' code lobby :
  world_ok w →
  obj_get (World.lobbies w) code = Some lobby →
  (∀ q, Player.id (h' q) = Player.id (World.store w q)) →
  (∀ q, q ∉ Lobby.players lobby →
        Player.team (h' q) = Player.team (World.store w q)) →
  world_ok (World.set_store h'
              (World.set_lobbies (obj_delete (World.lobbies w) code) w)).
Proof.
  intros Hw Hl Hid Hteam. pose proof Hw as [Hok Hsep]. split; simpl.
  - intros c l. rewrite obj_get_delete. case_bool_decide; [done|].
    by eapply lobby_teams_ok_other.
  - intros c1 l1 c2 l2 p. rewrite !obj_get_delete.
    repeat case_bool_decide; try done. apply Hsep.
Qed.

Lemma teams_set_teams tm v lobby tm' :
  Lobby.teams (Lobby.set_teams tm v lobby) tm'
  = if decide (tm = tm') then v else Lobby.teams lobby tm'.
Proof. by destruct tm, tm'. Qed.

Lemma players_set_teams tm v lobby :
  Lobby.players (Lobby.set_teams tm v lobby) = Lobby.players lobby.
Proof. by destruct tm. Qed.

(** The team lists after the player with id [playerId], whose object is
    [lp], has been filtered out of the list of its team. *)
Lemma elem_of_teams_removed h next lobby playerId lp tm p :
  lobby_teams_ok h next lobby →
  findPlayer h (Lobby.players lobby) playerId = Some lp →
  p ∈ Lobby.teams
        match Player.team (h lp) with
        | Some old =>
            Lobby.set_teams old
              (filter (λ q, Player.id (h q) ≠ playerId) (Lobby.teams lobby old))
              lobby
        | None => lobby
        end tm →
  p ∈ Lobby.teams lobby tm ∧ Player.id (h p) ≠ playerId.
Proof.
  intros [_ Hteams] Hlp Hin.
  assert (p ∈ Lobby.teams lobby tm) as Hin'.
  { destruct (Player.team (h lp)) as [old|]; [|done].
    rewrite teams_set_teams in Hin. destruct (decide (old = tm)); [|done].
    subst. by apply list_elem_of_filter in Hin as [_ ?]. }
  split; [done|]. intros Hid.
  destruct (Hteams tm p Hin') as [Hf Ht].
  rewrite Hid, Hlp in Hf. simplify_eq.
  rewrite Ht, teams_set_teams in Hin. rewrite decide_True in Hin by done.
  by apply list_elem_of_filter in Hin as [? _].
Qed.

Lemma selectTeam_ok w code playerId tm lobby w' :
  world_ok w → selectTeam w code playerId tm = Ok (lobby, w') → world_ok w'.
Proof.
  intros Hw. unfold selectTeam, getLobby, getPlayer.
  destruct (obj_get _ _) as [l|] eqn:Hl; [|done]. simpl.
  destruct (findPlayer _ _ _) as [lp|] eqn:Hlp; [|done]. simpl.
  repeat (case_bool_decide; [done|]). intros [= <- <-].
  pose proof Hw as [Hok Hsep]. pose proof (Hok code l Hl) as Hlok.
  pose proof Hlok as [Hal Hteams].
  set (h := World.store w) in *.
  set (h' := <[lp := Player.set_team (Some tm) (h lp)]> h).
  assert (∀ q, Player.id (h' q) = Player.id (h q)) as Hid.
  { intros q. unfold h'. destruct (decide (lp = q)) as [->|].
    - by rewrite fn_lookup_insert.
    - by rewrite fn_lookup_insert_ne. }
  apply findPlayer_Some in Hlp as Hlp'. destruct Hlp' as [Hpid Hlpin].
  apply (world_ok_replace w h' code l); try done.
  - intros q Hq. unfold h'. rewrite fn_lookup_insert_ne; [done|]. congruence.
  - intros q. rewrite players_set_teams.
    by destruct (Player.team (h lp)); rewrite ?players_set_teams.
  - split.
    + intros q. rewrite players_set_teams.
      destruct (Player.team (h lp)); rewrite ?players_set_teams; auto.
    + intros tm' p. rewrite players_set_teams, teams_set_teams.
      set (l1 := match Player.team (h lp) with Some _ => _ | None => _ end).
      assert (Lobby.players l1 = Lobby.players l) as ->.
      { unfold l1. by destruct (Player.team (h lp)); rewrite ?players_set_teams. }
      rewrite (findPlayer_agree h h') by done. rewrite Hid.
      assert (∀ tm0, p ∈ Lobby.teams l1 tm0 →
                findPlayer h (Lobby.players l) (Player.id (h p)) = Some p
                ∧ Player.team (h' p) = Some tm0) as Hold.
      { intros tm0 Hin.
        destruct (elem_of_teams_removed h _ l playerId lp tm0 p Hlok Hlp Hin)
          as [Hin' Hne].
        destruct (Hteams tm0 p Hin') as [Hf Ht]. split; [done|].
        unfold h'. rewrite fn_lookup_insert_ne; [done|]. congruence. }
      destruct (decide (tm = tm')) as [<-|Hne]; [|by apply Hold].
      intros [Hin|Heq%list_elem_of_singleton]%elem_of_app; [by apply Hold|].
      subst p. rewrite Hpid. split; [done|]. unfold h'. by rewrite fn_lookup_insert.
Qed.

Lemma leaveLobby_ok w code playerId :
  world_ok w → world_ok (leaveLobby w code playerId).2.
Proof.
  intros Hw. unfold leaveLobby.
  destruct (obj_get _ _) as [l|] eqn:Hl; [|done].
  set (h := World.store w) in *.
  destruct (list_find _ _) as [[idx lp]|] eqn:Hfind; [|done].
  assert (findPlayer h (Lobby.players l) playerId = Some lp) as Hlp.
  { unfold findPlayer. by rewrite Hfind. }
  pose proof Hw as [Hok Hsep]. pose proof (Hok code l Hl) as Hlok.
  pose proof Hlok as [Hal Hteams].
  set (l1 := match Player.team (h lp) with Some _ => _ | None => _ end).
  assert (Lobby.players l1 = Lobby.players l) as Hpl1.
  { unfold l1. by destruct (Player.team (h lp)); rewrite ?players_set_teams. }
  set (l2 := Lobby.set_players (delete idx (Lobby.players l1)) l1).
  (* the lobby and the store after the promotion of a new host *)
  assert (∃ h3 l3,
            match Lobby.players l2 with
            | newHost :: _ =>
                if Player.isHost (h lp)
                then (<[newHost := Player.set_isHost true (h newHost)]> h,
                      Lobby.set_hostId (Player.id (h newHost)) l2)
                else (h, l2)
            | [] => (h, l2)
            end = (h3, l3)
            ∧ same_identity h h3
            ∧ Lobby.players l3 = delete idx (Lobby.players l)
            ∧ (∀ tm, Lobby.teams l3 tm = Lobby.teams l1 tm))
    as (h3 & l3 & -> & Hsame & Hpl3 & Htl3).
  { unfold l2. simpl. rewrite Hpl1.
    destruct (delete idx (Lobby.players l)) as [|newHost rest] eqn:Hdel;
      [|destruct (Player.isHost (h lp))]; eexists _, _;
      (split; [reflexivity|]); simpl; rewrite ?Hdel;
      (split_and!; [|done|by intros []]); [done| |done].
    by apply (same_identity_insert h h newHost (Player.set_isHost true)). }
  assert (∀ q, Player.id (h3 q) = Player.id (h q)) as Hid
    by (intros q; apply Hsame).
  assert (∀ q, Player.team (h3 q) = Player.team (h q)) as Hteam
    by (intros q; apply Hsame).
  case_bool_decide; simpl.
  - by apply (world_ok_remove w h3 code l).
  - apply (world_ok_replace w h3 code l); try done.
    + intros q. rewrite Hpl3. apply elem_of_delete.
    + split.
      * intros q. rewrite Hpl3. intros Hq%elem_of_delete. auto.
      * intros tm p. rewrite Htl3, Hpl3. intros Hin.
        destruct (elem_of_teams_removed h _ l playerId lp tm p Hlok Hlp Hin)
          as [Hin' Hne].
        destruct (Hteams tm p Hin') as [Hf Ht].
        rewrite (findPlayer_agree h h3) by done. rewrite Hid, Hteam.
        split; [|done].
        by rewrite (findPlayer_delete h _ idx lp playerId).
Qed.

Section PerformOk.
Context `{JsString}.

Lemma perform_ok w a : world_ok w → world_ok (perform w a).
Proof.
  intros Hw. destruct a; simpl; unfold onLobby, getLobby.
  - destruct (createLobby _ _ _ _ _) as [[[l hid] w']|] eqn:Hop; [|done].
    by eapply createLobby_ok.
  - destruct (joinLobby _ _ _ _ _) as [[[l pid] w']|] eqn:Hop; [|done].
    by eapply joinLobby_ok.
  - by apply leaveLobby_ok.
  - destruct (selectTeam _ _ _ _) as [[l w']|] eqn:Hop; [|done].
    by eapply selectTeam_ok.
  - destruct (toggleReady _ _ _) as [[l w']|] eqn:Hop; [|done].
    by eapply toggleReady_ok.
  - destruct (updateGameSettings _ _ _ _) as [[l w']|] eqn:Hop; [|done].
    by eapply updateGameSettings_ok.
  - by apply updatePlayerSocket_ok.
  - by apply markPlayerDisconnected_ok.
  - destruct (obj_get _ _) as [l|] eqn:Hl; [|done].
    destruct (startGame _ _ _) as [[[gs sel] l']|] eqn:Hop; [|done].
    apply startGame_members in Hop. destruct w. by eapply world_ok_frame.
  - destruct (obj_get _ _) as [l|] eqn:Hl; [|done].
    destruct (startRound _ _ _ _ _) as [sel [[rd l']|]] eqn:Hop;
      [|by apply world_ok_selector].
    apply startRound_members in Hop. destruct w. by eapply world_ok_frame.
  - destruct (obj_get _ _) as [l|] eqn:Hl; [|done].
    destruct (submitAnswer _ _ _ _) as [l'|] eqn:Hop; [|done].
    apply submitAnswer_members in Hop. destruct w. by eapply world_ok_frame.
  - destruct (obj_get _ _) as [l|] eqn:Hl; [|done].
    destruct (markPlayerReady _ _ _) as [l'|] eqn:Hop; [|done].
    apply markPlayerReady_members in Hop. destruct w. by eapply world_ok_frame.
  - destruct (obj_get _ _) as [l|] eqn:Hl; [|done].
    destruct (prepareVotingOptions _ _ _) as [[opts l']|] eqn:Hop; [|done].
    apply prepareVotingOptions_members in Hop. destruct w.
    by eapply world_ok_frame.
  - destruct (obj_get _ _) as [l|] eqn:Hl; [|done].
    destruct (submitVote _ _ _) as [l'|] eqn:Hop; [|done].
    apply submitVote_members in Hop. destruct w. by eapply world_ok_frame.
  - destruct (obj_get _ _) as [l|] eqn:Hl; [|done].
    destruct (calculateRoundResults _ _) as [[[res h'] l']|] eqn:Hop; [|done].
    apply calculateRoundResults_members in Hop as [Hmem Hsame].
    destruct w as [st nx lbs sel]. simpl in *.
    by apply (world_ok_frame (World.mk st nx lbs sel) h' code l l' sel).
  - destruct (obj_get _ _) as [l|] eqn:Hl; [|done].
    destruct (finishGame _) as [[[win sc] l']|] eqn:Hop; [|done].
    apply finishGame_members in Hop. destruct w. by eapply world_ok_frame.
  - destruct (obj_get _ _) as [l|] eqn:Hl; [|done].
    destruct (resetGame_members (World.store w) l _ _ eq_refl) as [Hmem Hsame].
    destruct w as [st nx lbs sel]. simpl in *.
    by apply (world_ok_frame (World.mk st nx lbs sel) _ code l _ sel).
  - destruct (obj_get _ _) as [l|] eqn:Hl; [|done].
    destruct (Lobby.gameState l); [|done].
    destruct w. eapply world_ok_frame; [done..|]. by split_and!.
Qed.

Lemma run_ok (actions : list Action) : world_ok (run actions).
Proof.
  unfold run. generalize world_ok_init. generalize World_init.
  induction actions as [|a actions IH]; intros w Hw; simpl; [done|].
  by apply IH, perform_ok.
Qed.

(** C8.  In every state reached from the empty registry by any sequence
    of lobby and game operations, and for every lobby of the registry: no
    player id occurs both in [teams.blue] and in [teams.red], and every
    player object in a team list has its [team] field set to that team
    (and is on the roster). *)
Theorem C8_teams_disjoint_and_consistent (actions : list Action) code lobby :
  let w := run actions in
  obj_get (World.lobbies w) code = Some lobby →
  (∀ p q, p ∈ Lobby.teams_blue lobby → q ∈ Lobby.teams_red lobby →
          Player.id (World.store w p) ≠ Player.id (World.store w q))
  ∧ (∀ tm p, p ∈ Lobby.teams lobby tm →
             Player.team (World.store w p) = Some tm
             ∧ p ∈ Lobby.players lobby).
Proof.
  intros w Hl. destruct (run_ok actions) as [Hok _].
  specialize (Hok code lobby Hl). split.
  - intros p q. by eapply lobby_teams_ok_disjoint.
  - intros tm p Hin. destruct Hok as [_ Hteams].
    destruct (Hteams tm p Hin) as [Hf Ht]. split; [done|].
    by apply findPlayer_Some in Hf as [_ ?].
Qed.
End PerformOk.

(* ================================================================== *)
(** * Further properties of the utilities *)

Lemma Qfloor_scale_range (r : Q) (n : Z) :
  (0 <= r)%Q → (r < 1)%Q → 0 < n → 0 ≤ Qfloor (r * inject_Z n) < n.
Proof.
  intros H0 H1 Hn.
  assert (0 < inject_Z n)%Q as HnQ.
  { change 0%Q with (inject_Z 0). rewrite <- Zlt_Qlt. lia. }
  split.
  - change 0 with (Qfloor (inject_Z 0)) at 1. apply Qfloor_resp_le.
    change (inject_Z 0) with 0%Q. apply Qmult_le_0_compat; [done|].
    by apply Qlt_le_weak.
  - assert (inject_Z (Qfloor (r * inject_Z n)) < inject_Z n)%Q as Hlt.
    { eapply Qle_lt_trans; [apply Qfloor_le|].
      eapply Qlt_le_trans; [apply Qmult_lt_compat_r; [exact HnQ|exact H1]|].
      rewrite Qmult_1_l. apply Qle_refl. }
    by rewrite <- Zlt_Qlt in Hlt.
Qed.

(** X1. [getRandomElement] answers [undefined] exactly on the empty array;
    on any other array, a draw of [Math.random] selects one of its elements. *)
Theorem getRandomElement_member {A} (r : Q) (array : list A) :
  (0 <= r)%Q → (r < 1)%Q →
  (getRandomElement r array = None ↔ array = [])
  ∧ (∀ x, getRandomElement r array = Some x → x ∈ array).
Proof.
  intros H0 H1. unfold getRandomElement, js_index.
  case_bool_decide as Hlen.
  { apply length_zero_iff_nil in Hlen. subst. split; [done|]. by intros x. }
  assert (array ≠ []) as Hne by (by intros ->).
  destruct (Qfloor_scale_range r (Z.of_nat (length array)) H0 H1) as [Hlo Hhi];
    [lia|].
  rewrite bool_decide_eq_true_2 by done.
  destruct (lookup_lt_is_Some_2 array
              (Z.to_nat (Qfloor (r * inject_Z (Z.of_nat (length array))))))
    as [x Hx]; [lia|].
  rewrite Hx. split; [naive_solver|].
  intros y [= <-]. by eapply list_elem_of_lookup_2.
Qed.

Lemma length_substring_le (n : nat) (s : string) :
  (String.length (String.substring 0 n s) ≤ n)%nat.
Proof.
  revert s. induction n as [|n IH]; intros [|c s]; simpl; try lia.
  specialize (IH s). lia.
Qed.

Lemma length_string_app (s t : string) :
  String.length (s +:+ t) = (String.length s + String.length t)%nat.
Proof. induction s as [|c s IH]; simpl; [done|]. by rewrite IH. Qed.

(** X2. [truncate] never returns more than [maxLength] characters when
    [maxLength] leaves room for the ellipsis; a string that fits is returned
    as it is, and with less room than the ellipsis a string that does not
    fit becomes the bare ellipsis, which is longer than [maxLength]. *)
Theorem truncate_length (str : string) (maxLength : Z) :
  3 ≤ maxLength →
  Z.of_nat (String.length (truncate str maxLength)) ≤ maxLength
  ∧ (Z.of_nat (String.length str) ≤ maxLength → truncate str maxLength = str)
  ∧ ∀ short, short < 3 → short < Z.of_nat (String.length str) →
             truncate str short = "..."%string.
Proof.
  intros Hmax. unfold truncate, substring_to. split_and!.
  - case_bool_decide; [done|].
    rewrite length_string_app. simpl.
    pose proof (length_substring_le (Z.to_nat (maxLength - 3)) str). lia.
  - intros Hle. by rewrite bool_decide_eq_true_2.
  - intros short Hs Hlen. rewrite bool_decide_eq_false_2 by lia.
    replace (Z.to_nat (short - 3)) with 0%nat by lia.
    by destruct str.
Qed.

Lemma list_ascii_of_string_app (s t : string) :
  String.list_ascii_of_string (s +:+ t)
  = String.list_ascii_of_string s ++ String.list_ascii_of_string t.
Proof. induction s as [|c s IH]; simpl; [done|]. by rewrite IH. Qed.

Lemma existsb_eqb_lookup (l : list Ascii.ascii) i c :
  l !! i = Some c → existsb (Ascii.eqb c) l = true.
Proof.
  intros Hl. apply existsb_exists. exists c. split.
  - apply list_elem_of_In. by eapply list_elem_of_lookup_2.
  - apply Ascii.eqb_refl.
Qed.

Lemma generateLobbyCode_loop_valid rnd k n code :
  (∀ k, (0 <= rnd k)%Q ∧ (rnd k < 1)%Q) →
  forallb
    (λ char, existsb (Ascii.eqb char)
               (String.list_ascii_of_string LOBBY_CODE_CHARS))
    (String.list_ascii_of_string code) = true →
  String.length (generateLobbyCode_loop rnd k n code)
  = (String.length code + n)%nat
  ∧ forallb
      (λ char, existsb (Ascii.eqb char)
                 (String.list_ascii_of_string LOBBY_CODE_CHARS))
      (String.list_ascii_of_string (generateLobbyCode_loop rnd k n code))
    = true.
Proof.
  intros Hrnd. revert k code. induction n as [|n IH]; intros k code Hcode.
  { simpl. split; [lia|done]. }
  cbn [generateLobbyCode_loop].
  set (i := Qfloor (rnd k * inject_Z (Z.of_nat (String.length LOBBY_CODE_CHARS)))).
  destruct (Hrnd k) as [H0 H1].
  assert (0 ≤ i < 36) as Hi.
  { apply (Qfloor_scale_range (rnd k) 36 H0 H1). lia. }
  destruct (lookup_lt_is_Some_2 (String.list_ascii_of_string LOBBY_CODE_CHARS)
              (Z.to_nat i)) as [c Hc].
  { change (length _) with 36%nat. lia. }
  assert (charAt LOBBY_CODE_CHARS i = String c EmptyString) as Hchar.
  { unfold charAt, js_index. rewrite bool_decide_eq_true_2 by lia.
    by rewrite Hc. }
  rewrite Hchar.
  destruct (IH (S k) (code +:+ String c EmptyString)) as [Hlen Hall].
  { rewrite list_ascii_of_string_app, forallb_app, Hcode.
    change (String.list_ascii_of_string (String c EmptyString)) with [c].
    cbn [forallb andb]. by rewrite (existsb_eqb_lookup _ _ _ Hc). }
  split; [|done].
  rewrite Hlen, length_string_app. simpl. lia.
Qed.

(** X3. Every code that [generateLobbyCode] builds from draws of
    [Math.random] passes [isValidLobbyCode]. *)
Theorem generateLobbyCode_valid (rnd : nat → Q) (k : nat) :
  (∀ k, (0 <= rnd k)%Q ∧ (rnd k < 1)%Q) →
  isValidLobbyCode (generateLobbyCode rnd k) = true.
Proof.
  intros Hrnd. unfold isValidLobbyCode, generateLobbyCode.
  destruct (generateLobbyCode_loop_valid rnd k LOBBY_CODE_LENGTH "" Hrnd)
    as [Hlen Hall]; [done|].
  rewrite bool_decide_eq_false_2; [done|].
  intros Hne. apply Hne. by rewrite Hlen.
Qed.

Lemma generateUniqueLobbyCode_loop_spec fuel codes attempts existingCodes :
  (fuel + attempts = 101)%nat →
  (∀ code,
     generateUniqueLobbyCode_loop fuel codes attempts existingCodes = Ok code
     ↔ ∃ n, (attempts ≤ n < 100)%nat ∧ codes n = code ∧ (code ∉ existingCodes)
            ∧ ∀ m, (attempts ≤ m < n)%nat → codes m ∈ existingCodes)
  ∧ ((∀ n, (attempts ≤ n < 100)%nat → codes n ∈ existingCodes) →
     ∃ message,
       generateUniqueLobbyCode_loop fuel codes attempts existingCodes
       = Throw (Error message)).
Proof.
  revert attempts. induction fuel as [|fuel IH]; intros attempts Hfuel.
  { simpl. split; [|eauto]. intros code. split; [done|].
    intros (n & ? & _). lia. }
  cbn [generateUniqueLobbyCode_loop].
  case_bool_decide as Hmax.
  { split; [|eauto]. intros code. split; [done|]. intros (n & ? & _). lia. }
  case_bool_decide as Hin.
  - destruct (IH (S attempts)) as [IHok IHthrow]; [lia|]. split.
    + intros code. rewrite IHok. split.
      * intros (n & Hn & Hc & Hfresh & Hbefore). exists n.
        split; [lia|]. split; [done|]. split; [done|].
        intros m Hm. destruct (decide (m = attempts)) as [->|]; [done|].
        apply Hbefore. lia.
      * intros (n & Hn & Hc & Hfresh & Hbefore).
        destruct (decide (n = attempts)) as [->|]; [by subst|].
        exists n. split; [lia|]. split; [done|]. split; [done|].
        intros m Hm. apply Hbefore. lia.
    + intros Hall. apply IHthrow. intros n Hn. apply Hall. lia.
  - split.
    + intros code. split.
      * intros [= <-]. exists attempts. split; [lia|]. split; [done|]. split; [done|].
        intros m Hm. lia.
      * intros (n & Hn & Hc & Hfresh & Hbefore).
        destruct (decide (n = attempts)) as [->|]; [by subst|].
        destruct Hin. apply Hbefore. lia.
    + intros Hall. destruct Hin. apply Hall. lia.
Qed.

(** X4. [generateUniqueLobbyCode] returns the first of the first hundred
    generated codes that is not in use, and throws when all hundred are in
    use; it never returns a code that is in use. *)
Theorem generateUniqueLobbyCode_first_fresh codes existingCodes :
  (∀ code,
     generateUniqueLobbyCode codes existingCodes = Ok code
     ↔ ∃ n, (n < 100)%nat ∧ codes n = code ∧ (code ∉ existingCodes)
            ∧ ∀ m, (m < n)%nat → codes m ∈ existingCodes)
  ∧ ((∀ n, (n < 100)%nat → codes n ∈ existingCodes) →
     ∃ message,
       generateUniqueLobbyCode codes existingCodes = Throw (Error message)).
Proof.
  unfold generateUniqueLobbyCode.
  destruct (generateUniqueLobbyCode_loop_spec 101 codes 0 existingCodes)
    as [Hok Hthrow]; [done|].
  split.
  - intros code. rewrite Hok. split.
    + intros (n & Hn & Hc & Hfresh & Hbefore). exists n.
      split; [lia|]. split; [done|]. split; [done|]. intros m Hm. apply Hbefore. lia.
    + intros (n & Hn & Hc & Hfresh & Hbefore). exists n.
      split; [lia|]. split; [done|]. split; [done|]. intros m Hm. apply Hbefore. lia.
  - intros Hall. apply Hthrow. intros n Hn. apply Hall. lia.
Qed.

Section SanitizeTextProofs.
Context `{JsString}.
Variable isSpace : Ascii.ascii → bool.

Lemma removeAngles_clean (s : string) c :
  c ∈ String.list_ascii_of_string (removeAngles s) →
  c ≠ "<"%char ∧ c ≠ ">"%char.
Proof.
  induction s as [|c' s IH]; simpl.
  { by intros ?%elem_of_nil. }
  case_bool_decide as Hc; [done|].
  simpl. intros [->|Hin]%elem_of_cons; [|by apply IH].
  split; intros ->; apply Hc; auto.
Qed.

Lemma elem_of_substring (n : nat) (s : string) c :
  c ∈ String.list_ascii_of_string (String.substring 0 n s) →
  c ∈ String.list_ascii_of_string s.
Proof.
  revert s. induction n as [|n IH]; intros [|c' s]; simpl; try done.
  { by intros ?%elem_of_nil. }
  intros [->|Hin]%elem_of_cons; [by left|]. right. by apply IH.
Qed.

(** X5. Whatever [trim] and the class [\s] are, the text [sanitizeText]
    returns has at most [MAX_ANSWER_LENGTH] characters and holds neither [<]
    nor [>]. *)
Theorem sanitizeText_safe (text : string) :
  (String.length (sanitizeText isSpace text) ≤ 120)%nat
  ∧ ∀ c, c ∈ String.list_ascii_of_string (sanitizeText isSpace text) →
         c ≠ "<"%char ∧ c ≠ ">"%char.
Proof.
  unfold sanitizeText, substring_to. split.
  - apply (length_substring_le 120).
  - intros c Hc%elem_of_substring. by eapply removeAngles_clean.
Qed.
End SanitizeTextProofs.

(* ================================================================== *)
(** * Further properties of the rotation selector *)

Lemma obj_get_map_values {V W} (f : V → W) (o : obj V) k :
  obj_get (obj_map_values f o) k = f <$> obj_get o k.
Proof.
  induction o as [|[k' v] o IH]; simpl; [done|].
  by case_bool_decide.
Qed.

Lemma obj_get_initial_history h (players : list loc)
    (o : obj PlayerParticipation.t) k :
  obj_get
    (fold_left
       (λ hist l,
          obj_set hist (Player.id (h l))
            (PlayerParticipation.mk (Player.id (h l)) (-1) 0 1%Q))
       players o) k
  = if bool_decide (k ∈ (λ p, Player.id (h p)) <$> players)
    then Some (PlayerParticipation.mk k (-1) 0 1%Q)
    else obj_get o k.
Proof.
  revert o. induction players as [|x players IH]; intros o.
  { cbn [fold_left fmap list_fmap].
    rewrite bool_decide_eq_false_2; [done|]. by intros ?%elem_of_nil. }
  cbn [fold_left]. rewrite IH. rewrite fmap_cons. case_bool_decide as Hin.
  - rewrite bool_decide_eq_true_2; [done|]. by right.
  - destruct (decide (Player.id (h x) = k)) as [<-|Hne].
    + rewrite obj_get_set_eq. rewrite bool_decide_eq_true_2; [done|]. by left.
    + rewrite obj_get_set_ne by done.
      rewrite bool_decide_eq_false_2; [done|].
      intros [?|?]%elem_of_cons; [congruence|done].
Qed.

(** X6. [initialize] leaves the counter at 0 and exactly one record per id
    of the two team lists: never played, factor 1. *)
Theorem initialize_history h bluePlayers redPlayers :
  let s := initialize h bluePlayers redPlayers in
  PlayerSelector.currentRound s = 0
  ∧ ∀ playerId,
      obj_get (PlayerSelector.participationHistory s) playerId
      = if bool_decide
             (playerId ∈ (λ p, Player.id (h p)) <$> (bluePlayers ++ redPlayers))
        then Some (PlayerParticipation.mk playerId (-1) 0 1%Q)
        else None.
Proof.
  unfold initialize, updateFactors. simpl. split; [done|].
  intros playerId. rewrite obj_get_map_values, obj_get_initial_history.
  by case_bool_decide.
Qed.

Lemma roulette_elem probabilities random accumulator player :
  roulette probabilities random accumulator = Some player →
  player ∈ (λ t : loc * Q * Q, t.1.1) <$> probabilities.
Proof.
  revert accumulator.
  induction probabilities as [|[[p f] pr] rest IH]; intros acc; simpl; [done|].
  destruct (Qle_bool _ _).
  - intros [= ->]. by left.
  - intros Hr. right. by eapply IH.
Qed.

Lemma last_elem {A} (l : list A) (d : A) : l ≠ [] → List.last l d ∈ l.
Proof.
  induction l as [|x l IH]; [done|]. intros _.
  destruct l as [|y l]; [by left|].
  right. by apply IH.
Qed.

Lemma selectPlayerFromTeam_Ok s h players tm rnd k player k' :
  selectPlayerFromTeam s h players tm rnd k = Ok (player, k') →
  player ∈ players
  ∧ k' = (if bool_decide (length players = 1%nat) then k else S k).
Proof.
  destruct players as [|p [|q rest]]; [done| |].
  { intros [= <- <-]. split; [by left|done]. }
  unfold selectPlayerFromTeam.
  destruct (roulette _ _ _) as [x|] eqn:Hr.
  - intros [= <- <-]. split; [|done].
    apply roulette_elem in Hr. rewrite <- !list_fmap_compose in Hr.
    apply list_elem_of_fmap in Hr as (y & -> & Hy). done.
  - intros [= <- <-]. split; [|done].
    by apply (last_elem (p :: q :: rest) p).
Qed.

Lemma selectPlayerFromTeam_nonempty s h players tm rnd k :
  players ≠ [] → is_Ok (selectPlayerFromTeam s h players tm rnd k).
Proof.
  destruct players as [|p [|q rest]]; [done|done|]. intros _.
  unfold selectPlayerFromTeam. by destruct (roulette _ _ _).
Qed.

(** X7. [selectPlayerFromTeam] throws exactly on the empty list; otherwise
    it returns a member of the list, whatever the draw and the recorded
    factors are, and uses a draw only when the list has more than one
    player. *)
Theorem selectPlayerFromTeam_member s h players tm rnd k :
  match selectPlayerFromTeam s h players tm rnd k with
  | Ok (player, k') =>
      player ∈ players
      ∧ k' = (if bool_decide (length players = 1%nat) then k else S k)
  | Throw e => players = [] ∧ ∃ message, e = Error message
  end.
Proof.
  destruct (selectPlayerFromTeam s h players tm rnd k) as [[player k']|e] eqn:Hs.
  - by eapply selectPlayerFromTeam_Ok.
  - destruct players as [|p rest].
    + injection Hs as <-. eauto.
    + pose proof (selectPlayerFromTeam_nonempty s h (p :: rest) tm rnd k) as Hok.
      rewrite Hs in Hok. by destruct Hok.
Qed.

Lemma selectPlayersForRound_pools s h blue red hostId rnd s' bp rp :
  selectPlayersForRound s h blue red (Some hostId) rnd = (s', Ok (bp, rp)) →
  bp ∈ eligiblePlayers h hostId blue ∧ rp ∈ eligiblePlayers h hostId red.
Proof.
  unfold selectPlayersForRound, eligiblePlayers, truthy_arg.
  destruct (truthy_string (Some hostId)); repeat case_bool_decide; try done;
    repeat case_match; try done; simplify_eq;
    intros; simplify_eq;
    split; eapply selectPlayerFromTeam_Ok; eauto.
Qed.

(** X8. The two players [selectPlayersForRound] returns are members of the
    blue and of the red list, in this order, and when a host id is given
    neither of them carries it. *)
Theorem selectPlayersForRound_selected s h blue red hostId rnd s' bp rp :
  selectPlayersForRound s h blue red (Some hostId) rnd = (s', Ok (bp, rp)) →
  bp ∈ blue ∧ rp ∈ red
  ∧ (hostId ≠ ""%string →
     Player.id (h bp) ≠ hostId ∧ Player.id (h rp) ≠ hostId).
Proof.
  intros [Hb Hr]%selectPlayersForRound_pools.
  unfold eligiblePlayers, truthy_string in *.
  case_bool_decide as Hhost; simpl in *.
  - subst. split_and!; done.
  - apply list_elem_of_filter in Hb as [? ?], Hr as [? ?]. done.
Qed.

(** X9. [selectPlayersForRound] returns normally exactly when, the host set
    aside, neither list is empty. *)
Theorem selectPlayersForRound_succeeds_iff s h blue red hostId rnd :
  is_Ok (selectPlayersForRound s h blue red (Some hostId) rnd).2
  ↔ eligiblePlayers h hostId blue ≠ [] ∧ eligiblePlayers h hostId red ≠ [].
Proof.
  unfold selectPlayersForRound, eligiblePlayers, truthy_arg.
  set (s1 := PlayerSelector.mk _ _).
  set (eb := if truthy_string (Some hostId) then _ else blue).
  set (er := if truthy_string (Some hostId) then _ else red).
  case_bool_decide as Hb.
  { simpl. split; [done|]. intros [Hne _]. destruct Hne.
    by apply length_zero_iff_nil. }
  case_bool_decide as Hr.
  { simpl. split; [done|]. intros [_ Hne]. destruct Hne.
    by apply length_zero_iff_nil. }
  assert (eb ≠ []) as Hbne by (by intros Heq; rewrite Heq in Hb).
  assert (er ≠ []) as Hrne by (by intros Heq; rewrite Heq in Hr).
  pose proof (selectPlayerFromTeam_nonempty s1 h eb Team.blue rnd 0 Hbne) as Hokb.
  destruct (selectPlayerFromTeam s1 h eb Team.blue rnd 0) as [[bp k]|] eqn:Hsb;
    [|done].
  pose proof (selectPlayerFromTeam_nonempty s1 h er Team.red rnd k Hrne) as Hokr.
  destruct (selectPlayerFromTeam s1 h er Team.red rnd k) as [[rp k']|] eqn:Hsr;
    [|done].
  simpl. done.
Qed.

Lemma normalizeFactors_record s k p :
  obj_get (PlayerSelector.participationHistory s) k = Some p →
  ∃ p', obj_get (PlayerSelector.participationHistory (normalizeFactors s)) k
        = Some p'
        ∧ same_record p p'.
Proof.
  intros Hp. unfold normalizeFactors. destruct (Qlt_bool _ _); simpl.
  - rewrite obj_get_map_values, Hp. simpl. eexists. split; [done|].
    by repeat split.
  - exists p. split; [done|]. by repeat split.
Qed.

Lemma updateFactors_record s k p :
  obj_get (PlayerSelector.participationHistory s) k = Some p →
  ∃ p', obj_get (PlayerSelector.participationHistory (updateFactors s)) k
        = Some p'
        ∧ same_record p p'.
Proof.
  intros Hp. unfold updateFactors. case_bool_decide; simpl.
  - rewrite obj_get_map_values, Hp. simpl. eexists. split; [done|].
    by repeat split.
  - edestruct (normalizeFactors_record
                 (PlayerSelector.mk
                    (obj_map_values
                       (λ p, PlayerParticipation.set_factor
                               (calculatePlayerFactor s p) p)
                       (PlayerSelector.participationHistory s))
                    (PlayerSelector.currentRound s)) k) as (p' & Hp' & Hsame).
    { simpl. by rewrite obj_get_map_values, Hp. }
    exists p'. split; [done|].
    destruct Hsame as (? & ? & ?). by repeat split.
Qed.

Lemma updatePlayerParticipation_get s playerId k :
  obj_get
    (PlayerSelector.participationHistory (updatePlayerParticipation s playerId))
    k
  = if bool_decide (playerId = k)
    then (λ p, PlayerParticipation.mk (PlayerParticipation.playerId p)
                 (PlayerSelector.currentRound s)
                 (PlayerParticipation.timesPlayed p + 1)
                 (PlayerParticipation.factor p))
         <$> obj_get (PlayerSelector.participationHistory s) k
    else obj_get (PlayerSelector.participationHistory s) k.
Proof.
  unfold updatePlayerParticipation. case_bool_decide as Hk.
  - subst.
    destruct (obj_get (PlayerSelector.participationHistory s) k) as [p|] eqn:Hp.
    + cbn [PlayerSelector.participationHistory]. by rewrite obj_get_set_eq.
    + by rewrite Hp.
  - destruct (obj_get (PlayerSelector.participationHistory s) playerId)
      as [p|] eqn:Hp; [|done].
    cbn [PlayerSelector.participationHistory]. by rewrite obj_get_set_ne.
Qed.

(** X10. A successful [selectPlayersForRound] that picked players with
    different ids stamps the records of the two with the new round number
    and counts one more play for each; every other record keeps its round
    stamp and its play count, and no record is added or dropped. *)
Theorem selectPlayersForRound_participation s h blue red host rnd s' bp rp :
  selectPlayersForRound s h blue red host rnd = (s', Ok (bp, rp)) →
  Player.id (h bp) ≠ Player.id (h rp) →
  ∀ k,
    match obj_get (PlayerSelector.participationHistory s) k with
    | Some p =>
        ∃ p',
          obj_get (PlayerSelector.participationHistory s') k = Some p'
          ∧ PlayerParticipation.playerId p' = PlayerParticipation.playerId p
          ∧ if bool_decide (k = Player.id (h bp) ∨ k = Player.id (h rp))
            then PlayerParticipation.lastRoundPlayed p'
                 = PlayerSelector.currentRound s + 1
                 ∧ PlayerParticipation.timesPlayed p'
                   = PlayerParticipation.timesPlayed p + 1
            else PlayerParticipation.lastRoundPlayed p'
                 = PlayerParticipation.lastRoundPlayed p
                 ∧ PlayerParticipation.timesPlayed p'
                   = PlayerParticipation.timesPlayed p
    | None => obj_get (PlayerSelector.participationHistory s') k = None
    end.
Proof.
  intros Hsel Hne k. apply selectPlayersForRound_Ok in Hsel. subst s'.
  set (s0 := PlayerSelector.mk (PlayerSelector.participationHistory s)
               (PlayerSelector.currentRound s + 1)).
  set (s2 := updatePlayerParticipation _ (Player.id (h rp))).
  assert (obj_get (PlayerSelector.participationHistory s2) k
          = if bool_decide (k = Player.id (h bp) ∨ k = Player.id (h rp))
            then (λ p, PlayerParticipation.mk (PlayerParticipation.playerId p)
                         (PlayerSelector.currentRound s + 1)
                         (PlayerParticipation.timesPlayed p + 1)
                         (PlayerParticipation.factor p))
                 <$> obj_get (PlayerSelector.participationHistory s) k
            else obj_get (PlayerSelector.participationHistory s) k) as Hget.
  { unfold s2. rewrite !updatePlayerParticipation_get.
    rewrite currentRound_updatePlayerParticipation. simpl.
    repeat case_bool_decide; try done; naive_solver. }
  destruct (obj_get (PlayerSelector.participationHistory s) k) as [p|] eqn:Hp.
  - destruct (obj_get (PlayerSelector.participationHistory s2) k) as [p2|]
      eqn:Hp2; [|by case_bool_decide].
    destruct (updateFactors_record s2 k p2 Hp2) as (p' & Hp' & Hid & Hlast & Htimes).
    exists p'. split; [done|]. rewrite Hid, Hlast, Htimes.
    case_bool_decide; simpl in Hget; by simplify_eq.
  - assert (obj_get (PlayerSelector.participationHistory s2) k = None) as Hnone.
    { rewrite Hget. by case_bool_decide. }
    unfold updateFactors, normalizeFactors.
    repeat (case_bool_decide || destruct (Qlt_bool _ _)); simpl;
      rewrite ?obj_get_map_values, ?Hnone; done.
Qed.

(* ================================================================== *)
(** * Further properties of the game service *)

Lemma phase_setCurrentRound gs r :
  BullGameState.phase (setCurrentRound gs r) = BullGameState.phase gs.
Proof. unfold setCurrentRound. by repeat case_match. Qed.

Lemma currentRound_setCurrentRound gs r :
  BullGameState.currentRound (setCurrentRound gs r)
  = BullGameState.currentRound gs.
Proof. unfold setCurrentRound. by repeat case_match. Qed.

Lemma find_round_app_new (rounds : list BullRound.t) rd :
  Forall (λ r, BullRound.number r ≠ BullRound.number rd) rounds →
  snd <$> list_find (λ r, BullRound.number r = BullRound.number rd)
            (rounds ++ [rd])
  = Some rd.
Proof.
  induction 1 as [|x l Hx _ IH].
  - change ([] ++ [rd]) with [rd]. rewrite snd_list_find_cons.
    by rewrite decide_True.
  - rewrite <- app_comm_cons, snd_list_find_cons. by rewrite decide_False.
Qed.

Lemma find_round_app_old (rounds : list BullRound.t) n rd r0 :
  snd <$> list_find (λ r, BullRound.number r = n) rounds = Some r0 →
  snd <$> list_find (λ r, BullRound.number r = n) (rounds ++ [rd]) = Some r0.
Proof.
  induction rounds as [|x l IH]; [done|].
  rewrite <- app_comm_cons, !snd_list_find_cons.
  by destruct (decide _).
Qed.

Lemma eligiblePlayers_elem h hostId players p :
  p ∈ eligiblePlayers h hostId players →
  p ∈ players ∧ (hostId ≠ ""%string → Player.id (h p) ≠ hostId).
Proof.
  unfold eligiblePlayers, truthy_string.
  case_bool_decide as Hhost; simpl.
  - subst. by split.
  - intros [? ?]%list_elem_of_filter. by split.
Qed.

(** X11. A successful [startRound] appends a round that is numbered
    [roundNumber], not above [settings.maxRounds], empty and in status
    [answering], whose two players are members of the team lists other than
    the host; the phase becomes [writing] and the counter [roundNumber]. The
    question is the one at index [roundNumber - 1], and the last one outside
    the table. The new round is the current round unless an earlier round
    carries the same number: then that earlier round stays the current one. *)
Theorem startRound_opens_round sel h lobby roundNumber rnd sel' round lobby' gs :
  Lobby.gameState lobby = Some gs →
  startRound sel h lobby roundNumber rnd = (sel', Ok (round, lobby')) →
  roundNumber ≤ GameSettings.maxRounds (Lobby.settings lobby)
  ∧ BullRound.number round = roundNumber
  ∧ BullRound.playerAnswers round = [] ∧ BullRound.playersReady round = []
  ∧ BullRound.options round = [] ∧ BullRound.votes round = []
  ∧ BullRound.pointsAwarded round = []
  ∧ BullRound.status round = answering
  ∧ BullRound.selectedPlayers_blue round ∈ Lobby.teams_blue lobby
  ∧ BullRound.selectedPlayers_red round ∈ Lobby.teams_red lobby
  ∧ (Lobby.hostId lobby ≠ ""%string →
     Player.id (h (BullRound.selectedPlayers_blue round)) ≠ Lobby.hostId lobby
     ∧ Player.id (h (BullRound.selectedPlayers_red round)) ≠ Lobby.hostId lobby)
  ∧ (1 ≤ roundNumber ≤ 8 →
     SAMPLE_QUESTIONS !! Z.to_nat (roundNumber - 1) = Some (questionOf round))
  ∧ (roundNumber < 1 ∨ 8 < roundNumber →
     questionOf round = List.last SAMPLE_QUESTIONS lastQuestion)
  ∧ ∃ gs',
      Lobby.gameState lobby' = Some gs'
      ∧ BullGameState.phase gs' = writing
      ∧ BullGameState.currentRound gs' = roundNumber
      ∧ BullGameState.rounds gs' = BullGameState.rounds gs ++ [round]
      ∧ BullGameState.scores gs' = BullGameState.scores gs
      ∧ (Forall (λ r, BullRound.number r ≠ roundNumber)
           (BullGameState.rounds gs) →
         getCurrentRound gs' = Some round)
      ∧ (∀ r0,
           getCurrentRound (BullGameState.set_currentRound roundNumber gs)
           = Some r0 →
           getCurrentRound gs' = Some r0).
Proof.
  intros Hgs. unfold startRound. rewrite Hgs.
  case_bool_decide as Hmax; [done|].
  destruct (selectPlayersForRound _ _ _ _ _ _) as [s1 [[bp rp]|e]] eqn:Hsel;
    [|done].
  intros [= <- <- <-].
  apply selectPlayersForRound_pools in Hsel as [Hb Hr].
  apply eligiblePlayers_elem in Hb as [Hb Hbh], Hr as [Hr Hrh].
  split; [lia|]. do 9 (split; [done|]). split; [by auto|].
  split.
  { intros Hn. unfold questionOf, js_index. simpl.
    rewrite bool_decide_eq_true_2 by lia.
    destruct (lookup_lt_is_Some_2 SAMPLE_QUESTIONS (Z.to_nat (roundNumber - 1)))
      as [[q c i] Hq]; [simpl; lia|].
    by rewrite Hq. }
  split.
  { intros Hn. unfold questionOf, js_index. simpl. case_bool_decide.
    - rewrite (lookup_ge_None_2 SAMPLE_QUESTIONS); [done|]. simpl. lia.
    - done. }
  eexists. split; [done|]. simpl. do 4 (split; [done|]). split.
  - intros Hnew. unfold getCurrentRound. simpl.
    by apply (find_round_app_new (BullGameState.rounds gs)
                (BullRound.mk roundNumber _ _ _ bp rp [] [] [] [] answering [])).
  - intros r0 Hr0. unfold getCurrentRound in *. simpl in *.
    by apply find_round_app_old.
Qed.

Lemma getCurrentRound_set_votes gs rd v :
  getCurrentRound gs = Some rd →
  getCurrentRound (setCurrentRound gs (BullRound.set_votes v rd))
  = Some (BullRound.set_votes v rd).
Proof. intros Hrd. by eapply getCurrentRound_setCurrentRound. Qed.


Lemma submitVote_Ok lobby playerId optionId lobby' :
  submitVote lobby playerId optionId = Ok lobby' →
  ∃ gs rd,
    Lobby.gameState lobby = Some gs
    ∧ BullGameState.phase gs = voting
    ∧ getCurrentRound gs = Some rd
    ∧ is_Some (findOption (BullRound.options rd) optionId)
    ∧ lobby' =
        Lobby.set_gameState
          (Some (setCurrentRound gs
                   (BullRound.set_votes
                      (obj_set (BullRound.votes rd) playerId optionId) rd)))
          lobby.
Proof.
  unfold submitVote. intros Hs.
  destruct (Lobby.gameState lobby) as [gs|]; [|done].
  case_bool_decide as Hph; [done|].
  destruct (getCurrentRound gs) as [rd|] eqn:Hrd; [|done].
  destruct (findOption _ _) as [o|] eqn:Ho; [|done].
  destruct (truthy_string _); [done|].
  injection Hs as <-. exists gs, rd.
  split_and!; first [done | by apply dec_stable].
Qed.

(** X13. Once [submitVote] has recorded a non-empty option id for a player,
    the vote is the player's entry of the current round and every further
    [submitVote] of that player is refused, with [ALREADY_SUBMITTED] when
    the new option id is one of the round's. *)
Theorem submitVote_once lobby playerId optionId lobby' :
  submitVote lobby playerId optionId = Ok lobby' →
  optionId ≠ ""%string →
  (∃ gs' rd',
     Lobby.gameState lobby' = Some gs'
     ∧ getCurrentRound gs' = Some rd'
     ∧ obj_get (BullRound.votes rd') playerId = Some optionId)
  ∧ ∀ optionId',
      ∃ message code,
        submitVote lobby' playerId optionId'
        = Throw (GameError message code)
        ∧ (code = ALREADY_SUBMITTED
           ↔ ∃ gs' rd',
               Lobby.gameState lobby' = Some gs'
               ∧ getCurrentRound gs' = Some rd'
               ∧ is_Some (findOption (BullRound.options rd') optionId')).
Proof.
  intros (gs & rd & Hgs & Hph & Hrd & Hopt & ->)%submitVote_Ok Hne.
  pose proof (getCurrentRound_set_votes gs rd
                (obj_set (BullRound.votes rd) playerId optionId) Hrd) as Hrd'.
  split.
  { eexists _, _. split; [done|]. split; [exact Hrd'|].
    simpl. apply obj_get_set_eq. }
  intros optionId'. unfold submitVote. simpl.
  rewrite phase_setCurrentRound, Hph.
  rewrite bool_decide_eq_false_2 by (by intros ?).
  rewrite Hrd'. simpl.
  destruct (findOption (BullRound.options rd) optionId') as [o|] eqn:Ho.
  - rewrite obj_get_set_eq. simpl.
    rewrite bool_decide_eq_false_2 by done. simpl.
    eexists _, _. split; [done|]. split; [|done].
    intros _. eexists _, _. split; [done|]. split; [exact Hrd'|].
    simpl. by rewrite Ho.
  - eexists _, _. split; [done|]. split; [done|].
    intros (gs' & rd' & [= <-] & Hrd'' & Hsome).
    rewrite Hrd' in Hrd''. injection Hrd'' as <-. simpl in Hsome.
    rewrite Ho in Hsome. by destruct Hsome.
Qed.

Section AnswerFlow.
Context `{JsString}.

Lemma submitAnswer_Ok h lobby playerId answer lobby' :
  submitAnswer h lobby playerId answer = Ok lobby' →
  ∃ gs rd,
    answerAccepted h lobby playerId answer gs rd
    ∧ lobby' =
        Lobby.set_gameState
          (Some (setCurrentRound gs
                   (BullRound.set_playerAnswers
                      (obj_set (BullRound.playerAnswers rd) playerId
                         (trim answer)) rd)))
          lobby.
Proof.
  unfold submitAnswer, answerAccepted. intros Hs.
  destruct (Lobby.gameState lobby) as [gs|]; [|done].
  case_bool_decide as Hph; [done|].
  destruct (getCurrentRound gs) as [rd|] eqn:Hrd; [|done].
  destruct (truthy_string _) eqn:Hsub; [done|].
  destruct (bool_decide _ || bool_decide _) eqn:Hsel; [|done]. simpl in Hs.
  apply orb_true_iff in Hsel. rewrite !bool_decide_eq_true in Hsel.
  case_bool_decide as Hc; [done|].
  case_bool_decide as Hi; [done|].
  case_bool_decide as He; [done|].
  injection Hs as <-. exists gs, rd. split; [|done].
  split_and!;
    first [done | by apply dec_stable
          | by intros Hempty; apply He; rewrite Hempty].
Qed.

Lemma getCurrentRound_set_playerAnswers gs rd v :
  getCurrentRound gs = Some rd →
  getCurrentRound (setCurrentRound gs (BullRound.set_playerAnswers v rd))
  = Some (BullRound.set_playerAnswers v rd).
Proof. intros Hrd. by eapply getCurrentRound_setCurrentRound. Qed.

Lemma getCurrentRound_set_playersReady gs rd v :
  getCurrentRound gs = Some rd →
  getCurrentRound (setCurrentRound gs (BullRound.set_playersReady v rd))
  = Some (BullRound.set_playersReady v rd).
Proof. intros Hrd. by eapply getCurrentRound_setCurrentRound. Qed.

(** X14. A selected player cannot mark ready before answering
    ([VALIDATION_ERROR]); once [submitAnswer] has recorded the answer,
    [markPlayerReady] of the same player returns normally and the round
    holds both the answer and the ready mark. *)
Theorem markPlayerReady_after_answer h lobby playerId answer lobby1 :
  submitAnswer h lobby playerId answer = Ok lobby1 →
  (∃ message,
     markPlayerReady h lobby playerId
     = Throw (GameError message VALIDATION_ERROR))
  ∧ ∃ lobby2 gs2 rd2,
      markPlayerReady h lobby1 playerId = Ok lobby2
      ∧ Lobby.gameState lobby2 = Some gs2
      ∧ getCurrentRound gs2 = Some rd2
      ∧ obj_get (BullRound.playersReady rd2) playerId = Some true
      ∧ obj_get (BullRound.playerAnswers rd2) playerId = Some (trim answer).
Proof.
  intros (gs & rd & Hacc & ->)%submitAnswer_Ok.
  destruct Hacc as (Hgs & Hph & Hrd & Hsel & Hnone & Hne & _).
  assert (bool_decide
            (Player.id (h (BullRound.selectedPlayers_blue rd)) = playerId)
          || bool_decide
               (Player.id (h (BullRound.selectedPlayers_red rd)) = playerId)
          = true) as Hselb.
  { apply orb_true_iff. rewrite !bool_decide_eq_true. done. }
  split.
  - unfold markPlayerReady. rewrite Hgs, Hrd, Hselb, Hnone. simpl. eauto.
  - set (rd1 := BullRound.set_playerAnswers _ rd).
    pose proof (getCurrentRound_set_playerAnswers gs rd
                  (obj_set (BullRound.playerAnswers rd) playerId (trim answer))
                  Hrd) as Hrd1.
    fold rd1 in Hrd1.
    unfold markPlayerReady. cbn [Lobby.gameState Lobby.set_gameState].
    rewrite Hrd1.
    change (BullRound.selectedPlayers_blue rd1)
      with (BullRound.selectedPlayers_blue rd).
    change (BullRound.selectedPlayers_red rd1)
      with (BullRound.selectedPlayers_red rd).
    rewrite Hselb.
    change (BullRound.playerAnswers rd1)
      with (obj_set (BullRound.playerAnswers rd) playerId (trim answer)).
    rewrite obj_get_set_eq. cbn [truthy_string negb].
    rewrite bool_decide_eq_false_2 by done. cbn [negb].
    eexists _, _, _. split; [done|]. split; [done|].
    split; [by eapply getCurrentRound_setCurrentRound|].
    split; [apply obj_get_set_eq|]. simpl. apply obj_get_set_eq.
Qed.

(** X15. On a round without answers, the first accepted answer does not make
    [allAnswersSubmitted] true and the second does; the two answers come
    from different players. *)
Theorem allAnswersSubmitted_after_two h lobby gs rd p1 a1 lobby1 p2 a2 lobby2 :
  Lobby.gameState lobby = Some gs →
  getCurrentRound gs = Some rd →
  BullRound.playerAnswers rd = [] →
  submitAnswer h lobby p1 a1 = Ok lobby1 →
  submitAnswer h lobby1 p2 a2 = Ok lobby2 →
  allAnswersSubmitted lobby = false
  ∧ allAnswersSubmitted lobby1 = false
  ∧ allAnswersSubmitted lobby2 = true
  ∧ p1 ≠ p2.
Proof.
  intros Hgs Hrd Hnil (gs0 & rd0 & Hacc1 & ->)%submitAnswer_Ok.
  destruct Hacc1 as (Hgs0 & _ & Hrd0 & _ & _ & Hne1 & _).
  rewrite Hgs in Hgs0. injection Hgs0 as <-.
  rewrite Hrd in Hrd0. injection Hrd0 as <-.
  pose proof (getCurrentRound_set_playerAnswers gs rd
                (obj_set (BullRound.playerAnswers rd) p1 (trim a1)) Hrd) as Hrd1.
  intros (gs1 & rd1 & Hacc2 & ->)%submitAnswer_Ok.
  destruct Hacc2 as (Hgs1 & _ & Hrd1' & _ & Hnone2 & Hne2 & _).
  cbn [Lobby.gameState Lobby.set_gameState] in Hgs1. injection Hgs1 as <-.
  rewrite Hrd1 in Hrd1'. injection Hrd1' as <-.
  cbn [BullRound.playerAnswers BullRound.set_playerAnswers] in Hnone2.
  rewrite Hnil in Hnone2. cbn [obj_set] in Hnone2.
  assert (p1 ≠ p2) as Hp.
  { intros ->. simpl in Hnone2. rewrite bool_decide_eq_true_2 in Hnone2 by done.
    simpl in Hnone2. by rewrite bool_decide_eq_false_2 in Hnone2. }
  split_and!; [| | |done].
  - unfold allAnswersSubmitted. by rewrite Hgs, Hrd, Hnil.
  - unfold allAnswersSubmitted. cbn [Lobby.gameState Lobby.set_gameState].
    rewrite Hrd1. cbn [BullRound.playerAnswers BullRound.set_playerAnswers].
    by rewrite Hnil.
  - unfold allAnswersSubmitted. cbn [Lobby.gameState Lobby.set_gameState].
    erewrite getCurrentRound_setCurrentRound; [|exact Hrd1|done].
    cbn [BullRound.playerAnswers BullRound.set_playerAnswers].
    rewrite Hnil. simpl. by rewrite (bool_decide_eq_false_2 (p1 = p2)).
Qed.
End AnswerFlow.

Lemma markPlayerReady_Ok h lobby playerId lobby' :
  markPlayerReady h lobby playerId = Ok lobby' →
  ∃ gs rd,
    Lobby.gameState lobby = Some gs
    ∧ getCurrentRound gs = Some rd
    ∧ lobby' =
        Lobby.set_gameState
          (Some (setCurrentRound gs
                   (BullRound.set_playersReady
                      (obj_set (BullRound.playersReady rd) playerId true) rd)))
          lobby.
Proof.
  unfold markPlayerReady. intros Hs.
  destruct (Lobby.gameState lobby) as [gs|]; [|done].
  destruct (getCurrentRound gs) as [rd|] eqn:Hrd; [|done].
  destruct (negb _); [done|]. destruct (negb _); [done|].
  injection Hs as <-. by exists gs, rd.
Qed.

(** X16. When the two selected players of the current round have marked
    ready, in this order or the other, [allPlayersReady] is true; after the
    first of them only, it is false as long as the other has no ready mark. *)
Theorem allPlayersReady_after_both h lobby gs rd first second lobby1 lobby2 :
  Lobby.gameState lobby = Some gs →
  getCurrentRound gs = Some rd →
  (first = Player.id (h (BullRound.selectedPlayers_blue rd))
   ∧ second = Player.id (h (BullRound.selectedPlayers_red rd)))
  ∨ (first = Player.id (h (BullRound.selectedPlayers_red rd))
     ∧ second = Player.id (h (BullRound.selectedPlayers_blue rd))) →
  markPlayerReady h lobby first = Ok lobby1 →
  markPlayerReady h lobby1 second = Ok lobby2 →
  allPlayersReady h lobby2 = true
  ∧ (first ≠ second →
     obj_get (BullRound.playersReady rd) second = None →
     allPlayersReady h lobby1 = false).
Proof.
  intros Hgs Hrd Hwho (gs0 & rd0 & Hgs0 & Hrd0 & ->)%markPlayerReady_Ok.
  rewrite Hgs in Hgs0. injection Hgs0 as <-.
  rewrite Hrd in Hrd0. injection Hrd0 as <-.
  pose proof (getCurrentRound_set_playersReady gs rd
                (obj_set (BullRound.playersReady rd) first true) Hrd) as Hrd1.
  intros (gs1 & rd1 & Hgs1 & Hrd1' & ->)%markPlayerReady_Ok.
  cbn [Lobby.gameState Lobby.set_gameState] in Hgs1. injection Hgs1 as <-.
  rewrite Hrd1 in Hrd1'. injection Hrd1' as <-.
  assert (∀ o : obj bool,
            obj_get (obj_set (obj_set o first true) second true) first
            = Some true) as Hfirst.
  { intros o. destruct (decide (second = first)) as [->|Hne].
    - apply obj_get_set_eq.
    - rewrite obj_get_set_ne by done. apply obj_get_set_eq. }
  split.
  - unfold allPlayersReady. cbn [Lobby.gameState Lobby.set_gameState].
    erewrite getCurrentRound_setCurrentRound; [|exact Hrd1|done].
    cbn [BullRound.playersReady BullRound.set_playersReady
         BullRound.selectedPlayers_blue BullRound.selectedPlayers_red].
    destruct Hwho as [[<- <-]|[<- <-]];
      by rewrite Hfirst, obj_get_set_eq.
  - intros Hne Hnone.
    unfold allPlayersReady. cbn [Lobby.gameState Lobby.set_gameState].
    rewrite Hrd1.
    cbn [BullRound.playersReady BullRound.set_playersReady
         BullRound.selectedPlayers_blue BullRound.selectedPlayers_red].
    destruct Hwho as [[<- <-]|[<- <-]];
      rewrite obj_get_set_eq, obj_get_set_ne, Hnone by done; done.
Qed.

Lemma pushPlayerAnswers_app uuid k entries options :
  ∃ pushed,
    (pushPlayerAnswers uuid k entries options).1 = options ++ pushed
    ∧ Forall (λ o, RoundOption.origin o ≠ OriginCorrect) pushed.
Proof.
  revert k options. induction entries as [|[p a] rest IH]; intros k options.
  { exists []. simpl. by rewrite app_nil_r. }
  cbn [pushPlayerAnswers].
  destruct (IH (S k) (options ++ [RoundOption.mk (uuid k) a (OriginPlayer p) 0]))
    as (pushed & -> & Hall).
  eexists (_ :: pushed). rewrite <- app_assoc. split; [done|].
  by constructor.
Qed.

Lemma fillDummy_app fuel uuid k options :
  ∃ fillers,
    fillDummy fuel uuid k options = options ++ fillers
    ∧ Forall (λ o, RoundOption.origin o ≠ OriginCorrect) fillers.
Proof.
  revert k options. induction fuel as [|fuel IH]; intros k options.
  { exists []. simpl. by rewrite app_nil_r. }
  cbn [fillDummy]. case_bool_decide.
  - destruct (IH (S k)
                (options ++
                 [RoundOption.mk (uuid k)
                    (default "Respuesta placeholder"%string
                       (js_index dummyAnswers (Z.of_nat (length options) - 2)))
                    OriginIncorrect 0])) as (fillers & -> & Hall).
    eexists (_ :: fillers). rewrite <- app_assoc. split; [done|].
    by constructor.
  - exists []. by rewrite app_nil_r.
Qed.

Lemma assembleOptions_head uuid rd :
  ∃ rest,
    assembleOptions uuid rd
    = RoundOption.mk (uuid 0%nat) (BullRound.correctAnswer rd) OriginCorrect 0
      :: rest
    ∧ Forall (λ o, RoundOption.origin o ≠ OriginCorrect) rest.
Proof.
  unfold assembleOptions.
  destruct (pushPlayerAnswers_app uuid 2 (BullRound.playerAnswers rd)
              [RoundOption.mk (uuid 0%nat) (BullRound.correctAnswer rd)
                 OriginCorrect 0;
               RoundOption.mk (uuid 1%nat) (BullRound.incorrectAnswer rd)
                 OriginIncorrect 0]) as (pushed & Hp & Hpushed).
  destruct (pushPlayerAnswers _ _ _ _) as [options k]. simpl in Hp. subst.
  cbv beta iota.
  edestruct (fillDummy_app ROUND_OPTIONS_COUNT uuid k) as (fillers & Hf & Hfill).
  rewrite Hf. eexists. split; [reflexivity|].
  constructor; [done|]. by apply Forall_app.
Qed.

Lemma findCorrectOption_unique (l : list RoundOption.t) c rest :
  l ≡ₚ c :: rest →
  RoundOption.origin c = OriginCorrect →
  Forall (λ o, RoundOption.origin o ≠ OriginCorrect) rest →
  ∃ c', findCorrectOption (assignPositions l) = Some c'
        ∧ RoundOption.id c' = RoundOption.id c.
Proof.
  intros Hperm Hc Hrest.
  assert (c ∈ l) as Hin by (rewrite Hperm; by left).
  apply list_elem_of_lookup in Hin as [i Hi].
  assert (assignPositions l !! i
          = Some (RoundOption.set_position (Z.of_nat i + 1) c)) as Hi'.
  { unfold assignPositions. by rewrite list_lookup_imap, Hi. }
  destruct (list_find_elem_of (λ o, RoundOption.origin o = OriginCorrect)
              (assignPositions l)
              (RoundOption.set_position (Z.of_nat i + 1) c))
    as [[j c'] Hfind]; [by eapply list_elem_of_lookup_2|done|].
  exists c'. unfold findCorrectOption. rewrite Hfind. split; [done|].
  apply list_find_Some in Hfind as (Hj & Hor & _).
  unfold assignPositions in Hj. rewrite list_lookup_imap in Hj.
  destruct (l !! j) as [o|] eqn:Ho; [|done]. injection Hj as <-.
  assert (o ∈ c :: rest) as Hoin.
  { rewrite <- Hperm. by eapply list_elem_of_lookup_2. }
  apply elem_of_cons in Hoin as [->|Hoin]; [done|].
  rewrite Forall_forall in Hrest. by destruct (Hrest o Hoin).
Qed.

(** X17. Whatever was submitted, the options [prepareVotingOptions] stores
    let [calculateRoundResults] find the correct option: right after it,
    [calculateRoundResults] returns normally, names the first generated
    option id as the correct one, closes the round and moves to the phase
    [results]. *)
Theorem calculateRoundResults_after_prepare uuid rnd h lobby opts lobby1 :
  prepareVotingOptions uuid rnd lobby = Ok (opts, lobby1) →
  ∃ res h' lobby2 gs2 rd2,
    calculateRoundResults h lobby1 = Ok (res, h', lobby2)
    ∧ RoundResult.correctOptionId res = uuid 0%nat
    ∧ Lobby.gameState lobby2 = Some gs2
    ∧ BullGameState.phase gs2 = results
    ∧ getCurrentRound gs2 = Some rd2
    ∧ BullRound.status rd2 = RoundFinished
    ∧ BullRound.options rd2 = opts
    ∧ RoundResult.roundNumber res = BullGameState.currentRound gs2.
Proof.
  unfold prepareVotingOptions.
  destruct (Lobby.gameState lobby) as [gs|] eqn:Hgs; [|done].
  destruct (getCurrentRound gs) as [rd|] eqn:Hrd; [|done].
  intros [= <- <-].
  set (opts := assignPositions _).
  set (rd1 := BullRound.set_options opts rd).
  set (gs1 := BullGameState.set_phase voting (setCurrentRound gs rd1)).
  assert (getCurrentRound gs1 = Some rd1) as Hrd1.
  { unfold gs1. rewrite getCurrentRound_set_phase.
    by eapply getCurrentRound_setCurrentRound. }
  destruct (assembleOptions_head uuid rd) as (rest & Hasm & Hrest).
  destruct (findCorrectOption_unique
              (shuffleArray rnd (take ROUND_OPTIONS_COUNT (assembleOptions uuid rd)))
              (RoundOption.mk (uuid 0%nat) (BullRound.correctAnswer rd)
                 OriginCorrect 0)
              (take 3 rest)) as (c & Hc & Hid).
  { rewrite shuffleArray_Permutation, Hasm. done. }
  { done. }
  { by apply Forall_take. }
  fold opts in Hc.
  pose proof (calculateRoundResults_eq h
                (Lobby.set_gameState (Some gs1) lobby) gs1 rd1 c
                eq_refl Hrd1 Hc) as Hcalc.
  cbv zeta in Hcalc.
  eexists _, _, _, _, _. split; [exact Hcalc|].
  split; [exact Hid|]. split; [done|]. split; [done|].
  split.
  { rewrite getCurrentRound_set_phase, getCurrentRound_set_scores.
    by eapply getCurrentRound_setCurrentRound. }
  split; [done|]. split; [done|].
  simpl. rewrite currentRound_setCurrentRound. unfold gs1. simpl.
  rewrite currentRound_setCurrentRound.
  unfold getCurrentRound in Hrd.
  destruct (list_find _ _) as [[i r]|] eqn:Hfind; [|done].
  apply list_find_Some in Hfind as (_ & Hnum & _).
  simpl in Hrd. by simplify_eq.
Qed.

Lemma votePoints_nonneg lobby rd c optionId :
  0 ≤ GameSettings.pointsCorrectAnswer (Lobby.settings lobby) →
  0 ≤ votePoints lobby rd c optionId.
Proof. intros Hp. unfold votePoints. by repeat case_match. Qed.

Lemma Zsum_nonneg {A} (f : A → Z) (l : list A) :
  (∀ x, 0 ≤ f x) → 0 ≤ Zsum (f <$> l).
Proof.
  intros Hf. induction l as [|x l IH]; [done|].
  rewrite fmap_cons. unfold Zsum in *. simpl. specialize (Hf x). lia.
Qed.

(** X18. With point settings that are not negative, [calculateRoundResults]
    lowers the total of neither team; what it adds to a team is the sum of
    the vote points and confusion bonuses of the team's players. *)
Theorem calculateRoundResults_scores_grow h lobby gs rd res h' lobby' tm :
  Lobby.gameState lobby = Some gs →
  getCurrentRound gs = Some rd →
  calculateRoundResults h lobby = Ok (res, h', lobby') →
  0 ≤ GameSettings.pointsCorrectAnswer (Lobby.settings lobby) →
  0 ≤ GameSettings.pointsConfuseOpponent (Lobby.settings lobby) →
  Scores.get (BullGameState.scores gs) tm
  ≤ Scores.get (RoundResult.newScores res) tm
  ∧ ∃ gs', Lobby.gameState lobby' = Some gs'
           ∧ BullGameState.scores gs' = RoundResult.newScores res.
Proof.
  intros Hgs Hrd Hcalc Hpc Hpo.
  destruct (calculateRoundResults_Ok h lobby gs rd res h' lobby' Hgs Hrd Hcalc)
    as (c & Hc & Hres & Hh & Hl).
  cbv zeta in *. subst res. simpl. split; [|by eexists].
  unfold scoringLoops.
  rewrite (fold_processOption_newScores h), (fold_processVote_newScores h);
    [| apply same_identity_refl
     | apply fold_processVote_same_identity, same_identity_refl].
  simpl.
  assert (0 ≤ Zsum (teamVotePoints h lobby rd c tm <$> BullRound.votes rd)).
  { apply Zsum_nonneg. intros v. unfold teamVotePoints.
    repeat case_match; try done. by apply votePoints_nonneg. }
  assert (0 ≤ Zsum (teamConfusionBonus h lobby rd tm <$> BullRound.options rd)).
  { apply Zsum_nonneg. intros o. unfold teamConfusionBonus, confusionBonus.
    repeat case_match; try done. lia. }
  lia.
Qed.

Lemma resetGame_store h (players : list loc) p :
  fold_left
    (λ h player,
       <[player := Player.set_isReady false (Player.set_score 0 (h player))]> h)
    players h p
  = if bool_decide (p ∈ players)
    then Player.set_isReady false (Player.set_score 0 (h p))
    else h p.
Proof.
  revert h. induction players as [|x players IH]; intros h.
  { cbn [fold_left].
    rewrite bool_decide_eq_false_2; [done|]. by intros ?%elem_of_nil. }
  cbn [fold_left]. rewrite IH.
  destruct (decide (p = x)) as [->|Hne].
  - rewrite fn_lookup_insert.
    rewrite (bool_decide_eq_true_2 (x ∈ x :: players)) by (by left).
    by case_bool_decide.
  - rewrite fn_lookup_insert_ne by done.
    case_bool_decide as Hin.
    + rewrite bool_decide_eq_true_2; [done|]. by right.
    + rewrite bool_decide_eq_false_2; [done|].
      by intros [?|?]%elem_of_cons.
Qed.

Section ResetGame.
Context `{JsString}.

(** X19. [resetGame] drops the game state, puts the lobby back to [waiting]
    and clears the score and the ready flag of every player of the roster,
    and of nobody else; roster, teams and settings stay. As nobody is ready
    then, [canStartGame] answers false right after a reset. *)
Theorem resetGame_clears w code lobby :
  obj_get (World.lobbies w) code = Some lobby →
  let w' := perform w (ResetGame code) in
  ∃ lobby',
    obj_get (World.lobbies w') code = Some lobby'
    ∧ resetGame (World.store w) lobby = (World.store w', lobby')
    ∧ Lobby.gameState lobby' = None
    ∧ Lobby.status lobby' = LobbyWaiting
    ∧ same_members lobby lobby'
    ∧ Lobby.settings lobby' = Lobby.settings lobby
    ∧ (∀ p, p ∈ Lobby.players lobby →
            World.store w' p
            = Player.set_isReady false (Player.set_score 0 (World.store w p)))
    ∧ (∀ p, p ∉ Lobby.players lobby → World.store w' p = World.store w p)
    ∧ canStartGame w' code = false.
Proof.
  intros Hl. simpl. unfold onLobby, getLobby. rewrite Hl. simpl.
  eexists. split; [apply obj_get_set_eq|]. split; [done|].
  do 2 (split; [done|]). split; [by split_and!|]. split; [done|].
  split; [|split].
  - intros p Hp. rewrite resetGame_store. by rewrite bool_decide_eq_true_2.
  - intros p Hp. rewrite resetGame_store. by rewrite bool_decide_eq_false_2.
  - unfold canStartGame. simpl. rewrite obj_get_set_eq. simpl.
    repeat case_bool_decide; try done.
    exfalso.
    destruct (Lobby.players lobby) as [|p ps] eqn:Hps;
      [unfold MIN_PLAYERS_TO_START in *; simpl in *; lia|].
    match goal with Hn : ¬ (0 < length (filter _ _))%nat |- _ => apply Hn end.
    rewrite filter_cons, decide_True.
    + simpl. lia.
    + rewrite resetGame_store. rewrite bool_decide_eq_true_2 by (by left). done.
Qed.
End ResetGame.

(* ================================================================== *)
(** * Starting a game and moving through its phases *)

Lemma obj_set_set {V} (o : obj V) k v v' :
  obj_set (obj_set o k v) k v' = obj_set o k v'.
Proof.
  induction o as [|[k' v0] o IH]; simpl.
  - by rewrite bool_decide_eq_true_2.
  - case_bool_decide; simpl.
    + by rewrite bool_decide_eq_true_2.
    + rewrite bool_decide_eq_false_2 by done. by rewrite IH.
Qed.

Lemma obj_set_fresh {V} (o : obj V) k v :
  k ∉ obj_keys o → obj_set o k v = o ++ [(k, v)].
Proof.
  induction o as [|[k' v0] o IH]; simpl; [done|].
  intros [Hne Hnin]%not_elem_of_cons.
  rewrite bool_decide_eq_false_2 by done. by rewrite IH.
Qed.

Lemma obj_keys_set_in {V} (o : obj V) k v :
  k ∈ obj_keys o → obj_keys (obj_set o k v) = obj_keys o.
Proof.
  induction o as [|[k' v0] o IH]; simpl.
  { by intros ?%elem_of_nil. }
  intros Hin. case_bool_decide as Hk; simpl; [by subst|].
  apply elem_of_cons in Hin as [?|Hin]; [done|].
  f_equal. by apply IH.
Qed.

Lemma canStartGame_true w code :
  canStartGame w code = true →
  ∃ lobby,
    obj_get (World.lobbies w) code = Some lobby
    ∧ Lobby.status lobby = LobbyWaiting
    ∧ (2 ≤ length (Lobby.players lobby))%nat
    ∧ Lobby.teams_blue lobby ≠ []
    ∧ Lobby.teams_red lobby ≠ []
    ∧ Forall (λ p, Player.isReady (World.store w p) = true)
        (Lobby.players lobby).
Proof.
  unfold canStartGame. destruct (obj_get _ _) as [lobby|]; [|done].
  case_bool_decide as Hst; [done|].
  case_bool_decide as Hn; [done|].
  case_bool_decide as Ht; [done|].
  case_bool_decide as Hr; [done|]. intros _.
  exists lobby. split; [done|]. split; [done|].
  split; [unfold MIN_PLAYERS_TO_START in Hn; lia|].
  split; [by intros Hb; apply Ht; left; rewrite Hb|].
  split; [by intros Hb; apply Ht; right; rewrite Hb|].
  apply Forall_forall. intros p Hp.
  destruct (Player.isReady (World.store w p)) eqn:Hready; [done|].
  destruct Hr.
  assert (p ∈ filter (λ p, Player.isReady (World.store w p) = false)
                (Lobby.players lobby)) as Hin
    by (by apply list_elem_of_filter).
  destruct (filter _ _); [by apply elem_of_nil in Hin|simpl; lia].
Qed.

(** X20. [canStartGame] answers true exactly for a lobby of the registry
    that is [waiting], has at least two players and no empty team, and whose
    players are all ready. *)
Theorem canStartGame_iff w code :
  canStartGame w code = true
  ↔ ∃ lobby,
      obj_get (World.lobbies w) code = Some lobby
      ∧ Lobby.status lobby = LobbyWaiting
      ∧ (2 ≤ length (Lobby.players lobby))%nat
      ∧ Lobby.teams_blue lobby ≠ []
      ∧ Lobby.teams_red lobby ≠ []
      ∧ Forall (λ p, Player.isReady (World.store w p) = true)
          (Lobby.players lobby).
Proof.
  split; [apply canStartGame_true|].
  intros (lobby & Hl & Hst & Hn & Hb & Hr & Hready).
  unfold canStartGame. rewrite Hl.
  rewrite bool_decide_eq_false_2 by (by rewrite Hst; intros ?).
  rewrite bool_decide_eq_false_2 by (unfold MIN_PLAYERS_TO_START; lia).
  rewrite bool_decide_eq_false_2.
  2:{ intros [H0|H0];
        [destruct (Lobby.teams_blue lobby)|destruct (Lobby.teams_red lobby)];
        done. }
  rewrite bool_decide_eq_false_2; [done|].
  assert (∀ ps, Forall (λ p, Player.isReady (World.store w p) = true) ps →
                filter (λ p, Player.isReady (World.store w p) = false) ps = [])
    as Hfilter.
  { induction 1 as [|p ps Hp _ IH]; [done|].
    rewrite filter_cons, decide_False by (by rewrite Hp). done. }
  rewrite (Hfilter _ Hready). simpl. lia.
Qed.

Lemma handleStartGame_Ok w code lobby settings :
  obj_get (World.lobbies w) code = Some lobby →
  canStartGame w code = true →
  let lobby1 :=
    match settings with
    | Some s =>
        Lobby.set_settings (PartialSettings.merge (Lobby.settings lobby) s) lobby
    | None => lobby
    end in
  let gs :=
    BullGameState.mk 1 (GameSettings.maxRounds (Lobby.settings lobby1)) waiting
      [] (Scores.mk 0 0) None in
  handleStartGame w code (Lobby.hostId lobby) settings
  = World.mk (World.store w) (World.next w)
      (obj_set (World.lobbies w) code
         (Lobby.set_status LobbyPlaying
            (Lobby.set_gameState (Some gs) lobby1)))
      (initialize (World.store w) (Lobby.teams_blue lobby)
         (Lobby.teams_red lobby)).
Proof.
  intros Hl Hcan.
  destruct (canStartGame_true w code Hcan)
    as (lobby0 & Hl0 & Hst & _ & Hb & Hr & _).
  rewrite Hl in Hl0. injection Hl0 as <-.
  assert (bool_decide (length (Lobby.teams_blue lobby) = 0%nat
                       ∨ length (Lobby.teams_red lobby) = 0%nat) = false)
    as Hteams.
  { apply bool_decide_eq_false_2.
    intros [H0|H0];
      [destruct (Lobby.teams_blue lobby)|destruct (Lobby.teams_red lobby)];
      done. }
  unfold handleStartGame, getLobby. rewrite Hl.
  rewrite bool_decide_eq_false_2 by (by intros ?).
  rewrite Hcan. cbn [negb].
  destruct settings as [s|]; cbv zeta.
  - unfold updateGameSettings, getLobby. rewrite Hl. simpl.
    rewrite bool_decide_eq_false_2 by (by intros ?).
    rewrite bool_decide_eq_false_2 by (by rewrite Hst; intros ?).
    unfold startGame. simpl. rewrite Hst.
    rewrite bool_decide_eq_false_2 by (by intros ?).
    rewrite Hteams. unfold World.put_lobby. simpl.
    by rewrite obj_set_set.
  - unfold startGame. rewrite Hst.
    rewrite bool_decide_eq_false_2 by (by intros ?).
    rewrite Hteams. done.
Qed.

(** X21. [handleStartGame] leaves everything as it is for anybody but the
    host and while [canStartGame] answers false. For the host of a lobby
    that can start, it merges the settings sent along, puts the lobby to
    [playing] with a fresh game state (round counter 1, [totalRounds] the
    merged [maxRounds], phase [waiting], no rounds, scores 0) and
    initialises the selector from the team lists; the lobby cannot be
    started again. *)
Theorem handleStartGame_starts w code playerId settings lobby :
  obj_get (World.lobbies w) code = Some lobby →
  let w' := handleStartGame w code playerId settings in
  (Lobby.hostId lobby ≠ playerId ∨ canStartGame w code = false → w' = w)
  ∧ (Lobby.hostId lobby = playerId → canStartGame w code = true →
     ∃ lobby' gs,
       obj_get (World.lobbies w') code = Some lobby'
       ∧ Lobby.status lobby' = LobbyPlaying
       ∧ Lobby.gameState lobby' = Some gs
       ∧ Lobby.settings lobby'
         = match settings with
           | Some s => PartialSettings.merge (Lobby.settings lobby) s
           | None => Lobby.settings lobby
           end
       ∧ gs = BullGameState.mk 1 (GameSettings.maxRounds (Lobby.settings lobby'))
                waiting [] (Scores.mk 0 0) None
       ∧ same_members lobby lobby'
       ∧ World.playerSelector w'
         = initialize (World.store w) (Lobby.teams_blue lobby)
             (Lobby.teams_red lobby)
       ∧ World.store w' = World.store w
       ∧ canStartGame w' code = false).
Proof.
  intros Hl. cbv zeta. split.
  - unfold handleStartGame, getLobby. rewrite Hl.
    intros [Hne|Hcan].
    + by rewrite bool_decide_eq_true_2.
    + case_bool_decide; [done|]. by rewrite Hcan.
  - intros <- Hcan. rewrite (handleStartGame_Ok w code lobby settings Hl Hcan).
    cbv zeta. eexists _, _. split; [apply obj_get_set_eq|].
    split; [done|]. split; [done|].
    split; [by destruct settings|].
    split; [by destruct settings|].
    split; [by destruct settings|].
    split; [done|]. split; [done|].
    unfold canStartGame. simpl. rewrite obj_get_set_eq. simpl.
    by destruct settings.
Qed.

Lemma startNextRound_finishes w code rnd lobby gs :
  obj_get (World.lobbies w) code = Some lobby →
  Lobby.gameState lobby = Some gs →
  GameSettings.maxRounds (Lobby.settings lobby) ≤ nextRoundNumber gs →
  startNextRound w code rnd
  = World.set_lobbies
      (obj_set (World.lobbies w) code
         (Lobby.set_gameState
            (Some (BullGameState.mk (nextRoundNumber gs)
                     (BullGameState.totalRounds gs) finished
                     (BullGameState.rounds gs) (BullGameState.scores gs)
                     (Some (if bool_decide
                                 (Scores.blue (BullGameState.scores gs)
                                  < Scores.red (BullGameState.scores gs))
                            then Team.red else Team.blue))))
            (Lobby.set_status LobbyFinished lobby)))
      w.
Proof.
  intros Hl Hgs Hmax. unfold startNextRound, getLobby. rewrite Hl, Hgs.
  cbv zeta. unfold isGameFinished, nextRoundNumber in *.
  cbn [Lobby.gameState Lobby.set_gameState Lobby.settings].
  case_bool_decide as Hph.
  - cbn [BullGameState.currentRound BullGameState.set_currentRound].
    rewrite bool_decide_eq_true_2 by lia.
    unfold finishGame, World.put_lobby. simpl. rewrite obj_set_set.
    destruct gs as [cr tr ph rs [sb sr] wn], lobby; simpl in *.
    repeat case_bool_decide; first [done | lia].
  - rewrite bool_decide_eq_true_2 by lia.
    unfold finishGame, World.put_lobby. simpl. rewrite obj_set_set.
    destruct gs as [cr tr ph rs [sb sr] wn], lobby; simpl in *.
    repeat case_bool_decide; first [done | lia].
Qed.

(** X22. [startNextRound] works with the counter, raised by one when the
    phase is [results]. When that number has reached [settings.maxRounds] it
    finishes the game (blue wins unless red has more points) and opens no
    round; below [maxRounds] it opens the round of that number, or, when a
    team has no eligible player, leaves rounds and phase as they are. So no
    round numbered [maxRounds] or higher is ever opened. *)
Theorem startNextRound_outcome w code rnd lobby gs :
  obj_get (World.lobbies w) code = Some lobby →
  Lobby.gameState lobby = Some gs →
  let n := nextRoundNumber gs in
  let w' := startNextRound w code rnd in
  ∃ lobby' gs',
    obj_get (World.lobbies w') code = Some lobby'
    ∧ Lobby.gameState lobby' = Some gs'
    ∧ BullGameState.currentRound gs' = n
    ∧ if bool_decide (GameSettings.maxRounds (Lobby.settings lobby) ≤ n) then
        Lobby.status lobby' = LobbyFinished
        ∧ BullGameState.phase gs' = finished
        ∧ BullGameState.rounds gs' = BullGameState.rounds gs
        ∧ BullGameState.winner gs'
          = Some (if bool_decide (Scores.blue (BullGameState.scores gs)
                                  < Scores.red (BullGameState.scores gs))
                  then Team.red else Team.blue)
      else
        (BullGameState.rounds gs' = BullGameState.rounds gs
         ∧ BullGameState.phase gs' = BullGameState.phase gs)
        ∨ ∃ rd,
            BullGameState.rounds gs' = BullGameState.rounds gs ++ [rd]
            ∧ BullRound.number rd = n
            ∧ n < GameSettings.maxRounds (Lobby.settings lobby)
            ∧ BullGameState.phase gs' = writing.
Proof.
  intros Hl Hgs. cbv zeta. case_bool_decide as Hmax.
  { rewrite (startNextRound_finishes w code rnd lobby gs Hl Hgs Hmax).
    eexists _, _. simpl. split; [apply obj_get_set_eq|]. by split_and!. }
  unfold startNextRound, getLobby. rewrite Hl, Hgs. cbv zeta.
  set (gs1 := if bool_decide (BullGameState.phase gs = results) then _ else gs).
  assert (BullGameState.currentRound gs1 = nextRoundNumber gs) as Hn.
  { unfold gs1, nextRoundNumber. by case_bool_decide. }
  assert (BullGameState.rounds gs1 = BullGameState.rounds gs
          ∧ BullGameState.phase gs1 = BullGameState.phase gs) as [Hrounds Hphase].
  { unfold gs1. by case_bool_decide. }
  unfold isGameFinished. cbn [Lobby.gameState Lobby.set_gameState Lobby.settings].
  rewrite bool_decide_eq_false_2 by lia.
  destruct (startRound _ _ _ _ _) as [sel [[rd lobby']|e]] eqn:Hstart.
  - apply (startRound_members) in Hstart as Hmem.
    unfold startRound in Hstart.
    cbn [Lobby.gameState Lobby.set_gameState] in Hstart.
    case_bool_decide; [done|].
    destruct (selectPlayersForRound _ _ _ _ _ _) as [s1 [[bp rp]|e]]; [|done].
    injection Hstart as <- <- <-.
    eexists _, _. split; [apply obj_get_set_eq|]. simpl.
    split; [done|]. split; [done|]. right.
    eexists. rewrite Hrounds. split; [done|]. split; [done|]. split; [lia|done].
  - eexists _, _. simpl. split; [apply obj_get_set_eq|]. simpl.
    split; [done|]. split; [done|]. left. done.
Qed.

(** X23. A game started with [maxRounds] at most 1 is over at the host's
    first [next_phase]: [progressGamePhase] finishes it with blue as the
    winner and without a single round. *)
Theorem single_round_game_plays_no_round w code settings uuid rnd lobby :
  obj_get (World.lobbies w) code = Some lobby →
  canStartGame w code = true →
  GameSettings.maxRounds
    match settings with
    | Some s => PartialSettings.merge (Lobby.settings lobby) s
    | None => Lobby.settings lobby
    end ≤ 1 →
  let w1 := handleStartGame w code (Lobby.hostId lobby) settings in
  let w2 := progressGamePhase w1 code uuid rnd in
  ∃ lobby2 gs2,
    obj_get (World.lobbies w2) code = Some lobby2
    ∧ Lobby.status lobby2 = LobbyFinished
    ∧ Lobby.gameState lobby2 = Some gs2
    ∧ BullGameState.phase gs2 = finished
    ∧ BullGameState.rounds gs2 = []
    ∧ BullGameState.scores gs2 = Scores.mk 0 0
    ∧ BullGameState.winner gs2 = Some Team.blue.
Proof.
  intros Hl Hcan Hmax. cbv zeta.
  rewrite (handleStartGame_Ok w code lobby settings Hl Hcan). cbv zeta.
  set (lobby1 := Lobby.set_status LobbyPlaying _).
  set (w1 := World.mk _ _ _ _).
  assert (obj_get (World.lobbies w1) code = Some lobby1) as Hl1
    by apply obj_get_set_eq.
  unfold progressGamePhase, getLobby. rewrite Hl1.
  cbn [lobby1 Lobby.gameState Lobby.set_gameState Lobby.set_status
       BullGameState.phase].
  erewrite (startNextRound_finishes w1 code rnd lobby1); [|exact Hl1|done|].
  2:{ unfold nextRoundNumber. simpl. by destruct settings. }
  eexists _, _. simpl. split; [apply obj_get_set_eq|]. by split_and!.
Qed.

(* ================================================================== *)
(** * Further properties of the lobby service *)

Lemma generateUniqueLobbyCode_loop_Throw fuel codes attempts existingCodes e :
  (fuel + attempts = 101)%nat →
  generateUniqueLobbyCode_loop fuel codes attempts existingCodes = Throw e →
  (∀ n, (attempts ≤ n < 100)%nat → codes n ∈ existingCodes)
  ∧ ∃ message, e = Error message.
Proof.
  revert attempts. induction fuel as [|fuel IH]; intros attempts Hfuel.
  { simpl. intros [= <-]. split; [|eauto]. intros n Hn. lia. }
  cbn [generateUniqueLobbyCode_loop].
  case_bool_decide as Hmax.
  { intros [= <-]. split; [|eauto]. intros n Hn. lia. }
  case_bool_decide as Hin; [|done].
  intros [Hall He]%IH; [|lia]. split; [|done].
  intros n Hn. destruct (decide (n = attempts)) as [->|]; [done|].
  apply Hall. lia.
Qed.

(** X24. [createLobby] refuses with [SERVER_FULL] (503) at a hundred
    lobbies. Below that it registers, after the existing ones, an empty
    [waiting] lobby with the default settings under a code that was not in
    use, and touches no other lobby and no player; it fails only when each
    of the hundred generated codes is in use. *)
Theorem createLobby_outcome w hostName socketId codes uuid :
  match createLobby w hostName socketId codes uuid with
  | Ok (lobby, hostId, w') =>
      (length (World.lobbies w) < 100)%nat
      ∧ (Lobby.code lobby ∉ obj_keys (World.lobbies w))
      ∧ (∃ n, (n < 100)%nat ∧ codes n = Lobby.code lobby)
      ∧ lobby = Lobby.mk (Lobby.code lobby) uuid socketId [] [] []
                  LobbyWaiting None DEFAULT_GAME_SETTINGS
      ∧ hostId = uuid
      ∧ w' = World.set_lobbies
               (World.lobbies w ++ [(Lobby.code lobby, lobby)]) w
  | Throw e =>
      ((100 ≤ length (World.lobbies w))%nat
       ∧ ∃ message, e = LobbyError message SERVER_FULL 503)
      ∨ ((length (World.lobbies w) < 100)%nat
         ∧ (∀ n, (n < 100)%nat → codes n ∈ obj_keys (World.lobbies w))
         ∧ ∃ message, e = Error message)
  end.
Proof.
  unfold createLobby. case_bool_decide as Hfull.
  { left. eauto. }
  unfold generateUniqueLobbyCode.
  destruct (generateUniqueLobbyCode_loop 101 codes 0
              (obj_keys (World.lobbies w))) as [code|e] eqn:Hgen; simpl.
  - destruct (generateUniqueLobbyCode_loop_spec 101 codes 0
                (obj_keys (World.lobbies w))) as [Hok _]; [done|].
    apply Hok in Hgen as (n & Hn & Hc & Hfresh & _).
    split; [lia|]. split; [done|]. split; [exists n; split; [lia|done]|].
    split; [done|]. split; [done|].
    by rewrite obj_set_fresh.
  - right. split; [lia|].
    apply generateUniqueLobbyCode_loop_Throw in Hgen as [Hall He]; [|done].
    split; [|done]. intros n Hn. apply Hall. lia.
Qed.

Section JoinLobby.
Context `{JsString}.

Lemma joinLobby_Ok w code playerName socketId uuid lobby' playerId w' :
  joinLobby w code playerName socketId uuid = Ok (lobby', playerId, w') →
  ∃ lobby,
    isValidLobbyCode (normalizeLobbyCode code) = true
    ∧ obj_get (World.lobbies w) (normalizeLobbyCode code) = Some lobby
    ∧ Lobby.status lobby = LobbyWaiting
    ∧ (length (Lobby.players lobby) < 8)%nat
    ∧ (toLowerCase playerName
       ∉ (λ p, toLowerCase (Player.name (World.store w p)))
           <$> Lobby.players lobby)
    ∧ playerId = uuid
    ∧ lobby' = Lobby.set_players (Lobby.players lobby ++ [World.next w]) lobby
    ∧ w' = World.mk
             (<[World.next w :=
                  Player.mk uuid playerName None false socketId 0 false true]>
                (World.store w))
             (S (World.next w))
             (obj_set (World.lobbies w) (normalizeLobbyCode code) lobby')
             (World.playerSelector w).
Proof.
  unfold joinLobby.
  destruct (isValidLobbyCode _) eqn:Hvalid; [|done]. simpl.
  destruct (obj_get _ _) as [lobby|] eqn:Hl; [|done].
  case_bool_decide as Hst; [done|].
  case_bool_decide as Hfull; [done|].
  case_bool_decide as Hname; [done|].
  intros [= <- <- <-]. exists lobby.
  split_and!; try done. unfold MAX_PLAYERS_PER_LOBBY in Hfull. lia.
Qed.

(** X25. After a player has joined, nobody can join the same lobby under a
    name with the same lower-case form, however the code is typed: the call
    is refused with [VALIDATION_ERROR], or with [LOBBY_FULL] when the lobby
    has filled up. *)
Theorem joinLobby_name_taken w code playerName socketId uuid lobby playerId w' :
  joinLobby w code playerName socketId uuid = Ok (lobby, playerId, w') →
  ∀ code2 name2 socket2 uuid2,
    normalizeLobbyCode code2 = normalizeLobbyCode code →
    toLowerCase name2 = toLowerCase playerName →
    ∃ message errorCode statusCode,
      joinLobby w' code2 name2 socket2 uuid2
      = Throw (LobbyError message errorCode statusCode)
      ∧ (errorCode = VALIDATION_ERROR ∨ errorCode = LOBBY_FULL).
Proof.
  intros (lobby0 & Hvalid & Hl & Hst & Hlen & Hname & -> & -> & ->)%joinLobby_Ok.
  intros code2 name2 socket2 uuid2 Hcode Hname2.
  unfold joinLobby. rewrite Hcode, Hvalid. simpl.
  rewrite obj_get_set_eq. simpl. rewrite Hst.
  rewrite bool_decide_eq_false_2 by (by intros ?).
  case_bool_decide; [eauto 10|].
  rewrite bool_decide_eq_true_2; [eauto 10|].
  rewrite fmap_app, Hname2. apply elem_of_app. right. simpl.
  rewrite fn_lookup_insert. simpl. by left.
Qed.
End JoinLobby.

Lemma toggleReady_Ok w code playerId lobby w' :
  toggleReady w code playerId = Ok (lobby, w') →
  ∃ p,
    obj_get (World.lobbies w) code = Some lobby
    ∧ findPlayer (World.store w) (Lobby.players lobby) playerId = Some p
    ∧ Lobby.status lobby = LobbyWaiting
    ∧ w' = World.set_store
             (<[p := Player.set_isReady
                       (negb (Player.isReady (World.store w p)))
                       (World.store w p)]> (World.store w)) w.
Proof.
  unfold toggleReady, getLobby, getPlayer.
  destruct (obj_get _ _) as [l|] eqn:Hl; [|done]. simpl.
  destruct (findPlayer _ _ _) as [p|] eqn:Hp; [|done]. simpl.
  case_bool_decide as Hst; [done|].
  intros [= <- <-]. by exists p.
Qed.





(* ================================================================== *)
(** * Size limits and the host, in every reachable state *)

Lemma length_obj_keys {V} (o : obj V) : length (obj_keys o) = length o.
Proof. unfold obj_keys. by rewrite length_fmap. Qed.

Lemma obj_get_Some_key {V} (o : obj V) k v :
  obj_get o k = Some v → k ∈ obj_keys o.
Proof.
  intros Hget. destruct (decide (k ∈ obj_keys o)) as [|Hn]; [done|].
  apply obj_get_None in Hn. congruence.
Qed.

Lemma obj_keys_delete {V} (o : obj V) k :
  obj_keys (obj_delete o k) = filter (λ k', k' ≠ k) (obj_keys o).
Proof.
  unfold obj_delete, obj_keys. induction o as [|[k' v] o IH]; [done|].
  rewrite fmap_cons, !filter_cons. simpl.
  destruct (decide (k' ≠ k)); [rewrite fmap_cons; f_equal|]; apply IH.
Qed.

Lemma lobbies_step_registry o o' :
  lobbies_step o o' → registry_ok o → registry_ok o'.
Proof.
  intros Hstep (Hlen & Hnd & Hall).
  destruct Hstep as [->|[(c & l & l' & Hl & -> & Hcode & _ & Hsz)
                        |[(c & l' & Hfresh & Hlt & -> & Hcode & Hsz)
                         |(c & ->)]]].
  - done.
  - pose proof (obj_get_Some_key _ _ _ Hl) as Hin.
    split_and!.
    + rewrite <- length_obj_keys, obj_keys_set_in, length_obj_keys; done.
    + by rewrite obj_keys_set_in.
    + intros c' l0. destruct (decide (c = c')) as [<-|Hne].
      * rewrite obj_get_set_eq. intros [= <-].
        destruct (Hall c l Hl) as [Hc Hs]. split; [congruence|auto].
      * rewrite obj_get_set_ne by done. apply Hall.
  - rewrite obj_set_fresh by done. split_and!.
    + rewrite length_app. simpl. lia.
    + unfold obj_keys. rewrite fmap_app. simpl.
      apply NoDup_app. split; [done|]. split; [|apply NoDup_singleton].
      intros k Hk ->%list_elem_of_singleton. done.
    + intros c' l0. rewrite <- (obj_set_fresh o c l') by done.
      destruct (decide (c = c')) as [<-|Hne].
      * rewrite obj_get_set_eq. by intros [= <-].
      * rewrite obj_get_set_ne by done. apply Hall.
  - split_and!.
    + unfold obj_delete. pose proof (length_filter (λ e : string * Lobby.t, e.1 ≠ c) o).
      lia.
    + rewrite obj_keys_delete. by apply NoDup_filter.
    + intros c' l0. rewrite obj_get_delete. case_bool_decide; [done|].
      apply Hall.
Qed.

Lemma lobbies_step_host o o' c l l' :
  lobbies_step o o' →
  obj_get o c = Some l → obj_get o' c = Some l' →
  Lobby.hostId l' = Lobby.hostId l ∧ Lobby.code l' = Lobby.code l.
Proof.
  intros Hstep Hl.
  destruct Hstep as [->|[(c0 & l0 & l0' & Hl0 & -> & Hcode & Hhost & _)
                        |[(c0 & l0' & Hfresh & _ & -> & _)
                         |(c0 & ->)]]].
  - rewrite Hl. by intros [= <-].
  - destruct (decide (c0 = c)) as [->|Hne].
    + rewrite obj_get_set_eq. intros [= <-]. by simplify_eq.
    + rewrite obj_get_set_ne, Hl by done. by intros [= <-].
  - destruct (decide (c0 = c)) as [->|Hne].
    + destruct Hfresh. by eapply obj_get_Some_key.
    + rewrite obj_get_set_ne, Hl by done. by intros [= <-].
  - rewrite obj_get_delete. case_bool_decide; [done|].
    rewrite Hl. by intros [= <-].
Qed.

Lemma shell_step o c l l' :
  obj_get o c = Some l → same_shell l l' → lobbies_step o (obj_set o c l').
Proof.
  intros Hl (Hcode & Hhost & Hp & Hb & Hr). right. left.
  exists c, l, l'. split_and!; try done.
  unfold lobby_sizes_ok. by rewrite Hp, Hb, Hr.
Qed.

(** The game operations keep code, host, roster and team lists. *)

Local Ltac shell_kept :=
  intros;
  repeat (case_match || case_bool_decide); simplify_eq;
  try (unfold same_shell, same_members; split_and!; reflexivity).

Lemma startGame_shell sel h lobby gs sel' lobby' :
  startGame sel h lobby = Ok (gs, sel', lobby') → same_shell lobby lobby'.
Proof. unfold startGame. shell_kept. Qed.

Lemma startRound_shell sel h lobby n rnd sel' rd lobby' :
  startRound sel h lobby n rnd = (sel', Ok (rd, lobby')) →
  same_shell lobby lobby'.
Proof. unfold startRound. shell_kept. Qed.

Lemma submitAnswer_shell `{JsString} h lobby playerId answer lobby' :
  submitAnswer h lobby playerId answer = Ok lobby' → same_shell lobby lobby'.
Proof. unfold submitAnswer. shell_kept. Qed.

Lemma markPlayerReady_shell h lobby playerId lobby' :
  markPlayerReady h lobby playerId = Ok lobby' → same_shell lobby lobby'.
Proof. unfold markPlayerReady. shell_kept. Qed.

Lemma prepareVotingOptions_shell uuid rnd lobby opts lobby' :
  prepareVotingOptions uuid rnd lobby = Ok (opts, lobby') →
  same_shell lobby lobby'.
Proof. unfold prepareVotingOptions. shell_kept. Qed.

Lemma submitVote_shell lobby playerId optionId lobby' :
  submitVote lobby playerId optionId = Ok lobby' → same_shell lobby lobby'.
Proof. unfold submitVote. shell_kept. Qed.

Lemma finishGame_shell lobby w s lobby' :
  finishGame lobby = Ok (w, s, lobby') → same_shell lobby lobby'.
Proof. unfold finishGame. shell_kept. Qed.

Lemma same_but_score_refl h : same_but_score h h.
Proof. done. Qed.

Lemma same_but_score_addPlayerScore h h' l n :
  same_but_score h h' → same_but_score h (addPlayerScore h' l n).
Proof.
  intros Hsame p. unfold addPlayerScore.
  destruct (decide (l = p)) as [->|Hne].
  - rewrite fn_lookup_insert. rewrite <- Hsame. by destruct (h' p).
  - rewrite fn_lookup_insert_ne by done. apply Hsame.
Qed.

Lemma processVote_same_but_score h lobby rd c st vote :
  same_but_score h (Calc.store st) →
  same_but_score h (Calc.store (processVote lobby rd c st vote)).
Proof.
  intros Hsame. destruct vote as [playerId optionId]. unfold processVote.
  repeat case_match; try done; simpl;
    by apply same_but_score_addPlayerScore.
Qed.

Lemma processOption_same_but_score h lobby rd st o :
  same_but_score h (Calc.store st) →
  same_but_score h (Calc.store (processOption lobby rd st o)).
Proof.
  intros Hsame. unfold processOption.
  repeat (case_match || case_bool_decide); try done; simpl;
    by apply same_but_score_addPlayerScore.
Qed.

Lemma fold_processVote_same_but_score h lobby rd c votes st :
  same_but_score h (Calc.store st) →
  same_but_score h
    (Calc.store (fold_left (processVote lobby rd c) votes st)).
Proof.
  revert st. induction votes as [|v votes IH]; intros st Hst; simpl; [done|].
  by apply IH, processVote_same_but_score.
Qed.

Lemma fold_processOption_same_but_score h lobby rd options st :
  same_but_score h (Calc.store st) →
  same_but_score h (Calc.store (fold_left (processOption lobby rd) options st)).
Proof.
  revert st. induction options as [|o options IH]; intros st Hst; simpl; [done|].
  by apply IH, processOption_same_but_score.
Qed.

Lemma calculateRoundResults_shell h lobby res h' lobby' :
  calculateRoundResults h lobby = Ok (res, h', lobby') →
  same_shell lobby lobby' ∧ same_but_score h h'.
Proof.
  unfold calculateRoundResults. intros Hcalc.
  repeat case_match; simplify_eq. split; [by split_and!|].
  apply fold_processOption_same_but_score, fold_processVote_same_but_score.
  done.
Qed.

Lemma no_host_same_but_score h h' :
  same_but_score h h' → no_host_player h → no_host_player h'.
Proof.
  intros Hsame Hno p. specialize (Hsame p). specialize (Hno p).
  destruct (h' p), (h p). simpl in *. by simplify_eq.
Qed.

Lemma no_host_insert h p (f : Player.t → Player.t) :
  (∀ x, Player.isHost (f x) = Player.isHost x) →
  no_host_player h → no_host_player (<[p := f (h p)]> h).
Proof.
  intros Hf Hno q. destruct (decide (p = q)) as [->|Hne].
  - by rewrite fn_lookup_insert, Hf.
  - by rewrite fn_lookup_insert_ne.
Qed.

Lemma resetGame_no_host h (players : list loc) :
  no_host_player h →
  no_host_player
    (fold_left
       (λ h player,
          <[player := Player.set_isReady false (Player.set_score 0 (h player))]> h)
       players h).
Proof.
  intros Hno p. rewrite resetGame_store. case_bool_decide; [|done].
  simpl. apply Hno.
Qed.

(** [leaveLobby] where no player object is marked as host: the branch
    that hands the lobby to a new host is not taken. *)
Lemma leaveLobby_no_host w code playerId :
  no_host_player (World.store w) →
  leaveLobby w code playerId
  = match obj_get (World.lobbies w) code with
    | None => (None, false, w)
    | Some lobby =>
        let h := World.store w in
        match list_find (λ p, Player.id (h p) = playerId) (Lobby.players lobby) with
        | None => (Some lobby, false, w)
        | Some (playerIndex, leavingPlayer) =>
            let lobby :=
              match Player.team (h leavingPlayer) with
              | Some tm =>
                  Lobby.set_teams tm
                    (filter (λ p, Player.id (h p) ≠ playerId)
                       (Lobby.teams lobby tm)) lobby
              | None => lobby
              end in
            let lobby :=
              Lobby.set_players (delete playerIndex (Lobby.players lobby))
                lobby in
            if bool_decide (length (Lobby.players lobby) = 0%nat) then
              (None, false,
               World.set_store h
                 (World.set_lobbies (obj_delete (World.lobbies w) code) w))
            else
              (Some lobby, false,
               World.set_store h
                 (World.set_lobbies (obj_set (World.lobbies w) code lobby) w))
        end
    end.
Proof.
  intros Hno. unfold leaveLobby.
  destruct (obj_get _ _) as [l|]; [|done]. cbv zeta.
  destruct (list_find _ _) as [[i lp]|]; [|done].
  rewrite (Hno lp).
  destruct (Lobby.players (Lobby.set_players _ _)) eqn:Hplayers;
    by rewrite Hplayers.
Qed.

Lemma set_teams_sizes tm v lobby :
  lobby_sizes_ok lobby → (length v ≤ 4)%nat →
  lobby_sizes_ok (Lobby.set_teams tm v lobby).
Proof. intros (? & ? & ?) ?. by destruct tm; split_and!. Qed.

Lemma length_teams_le lobby tm :
  lobby_sizes_ok lobby → (length (Lobby.teams lobby tm) ≤ 4)%nat.
Proof. intros (? & ? & ?). by destruct tm. Qed.

Lemma length_delete_le {A} (l : list A) i :
  (length (delete i l) ≤ length l)%nat.
Proof.
  revert i. induction l as [|x l IH]; intros [|i]; simpl; try lia.
  specialize (IH i). lia.
Qed.

Lemma leaveLobby_step w code playerId :
  no_host_player (World.store w) →
  let w' := (leaveLobby w code playerId).2 in
  lobbies_step (World.lobbies w) (World.lobbies w')
  ∧ World.store w' = World.store w
  ∧ (leaveLobby w code playerId).1.2 = false.
Proof.
  intros Hno. rewrite (leaveLobby_no_host w code playerId Hno). cbv zeta.
  destruct (obj_get _ _) as [l|] eqn:Hl; [|by split_and!; [left|..]].
  destruct (list_find _ _) as [[i lp]|] eqn:Hfind; [|by split_and!; [left|..]].
  case_bool_decide as Hempty; simpl.
  - split_and!; [|done..]. right. right. right. by exists code.
  - split_and!; [|done..]. right. left.
    eexists code, l, _. split; [done|]. split; [done|].
    split; [by destruct (Player.team _) as [[]|]|].
    split; [by destruct (Player.team _) as [[]|]|].
    intros Hsz.
    assert (∀ l0, lobby_sizes_ok l0 →
                  lobby_sizes_ok
                    (Lobby.set_players (delete i (Lobby.players l0)) l0)) as Hdel.
    { intros l0 (Hp & Hb & Hr). split_and!; try done. simpl.
      pose proof (length_delete_le (Lobby.players l0) i). lia. }
    apply Hdel.
    destruct (Player.team _) as [tm|]; [|done].
    apply set_teams_sizes; [done|].
    etrans; [apply length_filter|]. by apply length_teams_le.
Qed.

Lemma createLobby_Ok w hostName socketId codes uuid lobby hostId w' :
  createLobby w hostName socketId codes uuid = Ok (lobby, hostId, w') →
  (length (World.lobbies w) < 100)%nat
  ∧ (Lobby.code lobby ∉ obj_keys (World.lobbies w))
  ∧ lobby = Lobby.mk (Lobby.code lobby) uuid socketId [] [] []
              LobbyWaiting None DEFAULT_GAME_SETTINGS
  ∧ w' = World.set_lobbies
           (obj_set (World.lobbies w) (Lobby.code lobby) lobby) w.
Proof.
  unfold createLobby. case_bool_decide as Hfull; [done|].
  unfold generateUniqueLobbyCode.
  destruct (generateUniqueLobbyCode_loop 101 codes 0
              (obj_keys (World.lobbies w))) as [code|e] eqn:Hgen; [|done].
  simpl. intros [= <- <- <-].
  destruct (generateUniqueLobbyCode_loop_spec 101 codes 0
              (obj_keys (World.lobbies w))) as [Hok _]; [done|].
  apply Hok in Hgen as (n & Hn & Hc & Hfresh & _).
  split; [lia|]. by split_and!.
Qed.

Lemma selectTeam_Ok w code playerId tm lobby' w' :
  selectTeam w code playerId tm = Ok (lobby', w') →
  ∃ lobby p,
    obj_get (World.lobbies w) code = Some lobby
    ∧ findPlayer (World.store w) (Lobby.players lobby) playerId = Some p
    ∧ Lobby.status lobby = LobbyWaiting
    ∧ (length (Lobby.teams lobby tm) < 4)%nat
    ∧ lobby'
      = (let h := World.store w in
         let lobby1 :=
           match Player.team (h p) with
           | Some old =>
               Lobby.set_teams old
                 (filter (λ q, Player.id (h q) ≠ playerId)
                    (Lobby.teams lobby old)) lobby
           | None => lobby
           end in
         Lobby.set_teams tm (Lobby.teams lobby1 tm ++ [p]) lobby1)
    ∧ w' = World.set_store
             (<[p := Player.set_team (Some tm) (World.store w p)]>
                (World.store w))
             (World.set_lobbies (obj_set (World.lobbies w) code lobby') w).
Proof.
  unfold selectTeam, getLobby, getPlayer.
  destruct (obj_get _ _) as [l|] eqn:Hl; [|done]. simpl.
  destruct (findPlayer _ _ _) as [p|] eqn:Hp; [|done]. simpl.
  case_bool_decide as Hst; [done|].
  case_bool_decide as Hfull; [done|].
  intros [= <- <-]. exists l, p. split_and!; try done. lia.
Qed.

Lemma selectTeam_sizes h lobby playerId p tm :
  lobby_sizes_ok lobby →
  (length (Lobby.teams lobby tm) < 4)%nat →
  let lobby1 :=
    match Player.team (h p) with
    | Some old =>
        Lobby.set_teams old
          (filter (λ q, Player.id (h q) ≠ playerId) (Lobby.teams lobby old))
          lobby
    | None => lobby
    end in
  lobby_sizes_ok (Lobby.set_teams tm (Lobby.teams lobby1 tm ++ [p]) lobby1).
Proof.
  intros Hsz Hlt. cbv zeta.
  set (lobby1 := match Player.team (h p) with Some _ => _ | None => lobby end).
  assert (lobby_sizes_ok lobby1) as Hsz1.
  { unfold lobby1. destruct (Player.team (h p)) as [old|]; [|done].
    apply set_teams_sizes; [done|].
    etrans; [apply length_filter|]. by apply length_teams_le. }
  assert (length (Lobby.teams lobby1 tm) < 4)%nat as Hlt1.
  { unfold lobby1. destruct (Player.team (h p)) as [old|]; [|done].
    rewrite teams_set_teams. destruct (decide (old = tm)) as [->|]; [|done].
    eapply Nat.le_lt_trans; [apply length_filter|done]. }
  apply set_teams_sizes; [done|]. rewrite length_app. simpl. lia.
Qed.

Section PerformStep.
Context `{JsString}.

Lemma perform_step w a :
  no_host_player (World.store w) →
  lobbies_step (World.lobbies w) (World.lobbies (perform w a))
  ∧ no_host_player (World.store (perform w a)).
Proof.
  intros Hno. destruct a; simpl; unfold onLobby, getLobby.
  - destruct (createLobby _ _ _ _ _) as [[[l hid] w']|] eqn:Hop;
      [|by split; [left|]].
    apply createLobby_Ok in Hop as (Hlt & Hfresh & Hl & ->). simpl.
    split; [|done]. right. right. left.
    exists (Lobby.code l), l. split_and!; try done.
    rewrite Hl. unfold lobby_sizes_ok. simpl. lia.
  - destruct (joinLobby _ _ _ _ _) as [[[l pid] w']|] eqn:Hop;
      [|by split; [left|]].
    apply joinLobby_Ok
      in Hop as (l0 & _ & Hl0 & _ & Hlen & _ & _ & -> & ->). simpl.
    split.
    + right. left. eexists _, l0, _. split; [done|]. split; [done|].
      split; [done|]. split; [done|].
      intros (Hp & Hb & Hr). split_and!; try done. simpl.
      rewrite length_app. simpl. lia.
    + intros q. destruct (decide (World.next w = q)) as [<-|Hne].
      * by rewrite fn_lookup_insert.
      * by rewrite fn_lookup_insert_ne.
  - destruct (leaveLobby_step w code playerId Hno) as (Hstep & Hstore & _).
    split; [done|]. by rewrite Hstore.
  - destruct (selectTeam _ _ _ _) as [[l w']|] eqn:Hop; [|by split; [left|]].
    apply selectTeam_Ok in Hop as (l0 & p & Hl0 & Hp & _ & Hlt & -> & ->).
    cbv zeta. simpl. split.
    + right. left. eexists _, l0, _. split; [done|]. split; [done|].
      split; [by destruct tm, (Player.team _) as [[]|]|].
      split; [by destruct tm, (Player.team _) as [[]|]|].
      intros Hsz. by apply selectTeam_sizes.
    + by apply (no_host_insert _ p (Player.set_team (Some tm))).
  - destruct (toggleReady _ _ _) as [[l w']|] eqn:Hop; [|by split; [left|]].
    apply toggleReady_Ok in Hop as (p & _ & _ & _ & ->). simpl.
    split; [by left|].
    by apply (no_host_insert _ p
                (Player.set_isReady (negb (Player.isReady (World.store w p))))).
  - destruct (updateGameSettings _ _ _ _) as [[l w']|] eqn:Hop;
      [|by split; [left|]].
    unfold updateGameSettings, getLobby in Hop.
    destruct (obj_get _ _) as [l0|] eqn:Hl0; [|done]. simpl in Hop.
    repeat (case_bool_decide; [done|]). injection Hop as <- <-. simpl.
    split; [|done]. right. left. by eexists _, l0, _.
  - unfold updatePlayerSocket.
    destruct (obj_get _ _) as [l|]; [|by split; [left|]].
    destruct (findPlayer _ _ _) as [p|]; [|by split; [left|]]. simpl.
    split; [by left|].
    by apply (no_host_insert _ p
                (λ x, Player.set_isConnected true
                        (Player.set_socketId socketId x))).
  - unfold markPlayerDisconnected.
    destruct (markPlayerDisconnected_loop _ _ _) as [[l p]|];
      [|by split; [left|]].
    simpl. split; [by left|].
    by apply (no_host_insert _ p (Player.set_isConnected false)).
  - destruct (obj_get _ _) as [l|] eqn:Hl; [|by split; [left|]].
    destruct (startGame _ _ _) as [[[gs sel] l']|] eqn:Hop;
      [|by split; [left|]].
    apply startGame_shell in Hop. simpl. split; [|done].
    by eapply shell_step.
  - destruct (obj_get _ _) as [l|] eqn:Hl; [|by split; [left|]].
    destruct (startRound _ _ _ _ _) as [sel [[rd l']|]] eqn:Hop;
      [|by split; [left|]].
    apply startRound_shell in Hop. simpl. split; [|done].
    by eapply shell_step.
  - destruct (obj_get _ _) as [l|] eqn:Hl; [|by split; [left|]].
    destruct (submitAnswer _ _ _ _) as [l'|] eqn:Hop; [|by split; [left|]].
    apply submitAnswer_shell in Hop. simpl. split; [|done].
    by eapply shell_step.
  - destruct (obj_get _ _) as [l|] eqn:Hl; [|by split; [left|]].
    destruct (markPlayerReady _ _ _) as [l'|] eqn:Hop; [|by split; [left|]].
    apply markPlayerReady_shell in Hop. simpl. split; [|done].
    by eapply shell_step.
  - destruct (obj_get _ _) as [l|] eqn:Hl; [|by split; [left|]].
    destruct (prepareVotingOptions _ _ _) as [[opts l']|] eqn:Hop;
      [|by split; [left|]].
    apply prepareVotingOptions_shell in Hop. simpl. split; [|done].
    by eapply shell_step.
  - destruct (obj_get _ _) as [l|] eqn:Hl; [|by split; [left|]].
    destruct (submitVote _ _ _) as [l'|] eqn:Hop; [|by split; [left|]].
    apply submitVote_shell in Hop. simpl. split; [|done].
    by eapply shell_step.
  - destruct (obj_get _ _) as [l|] eqn:Hl; [|by split; [left|]].
    destruct (calculateRoundResults _ _) as [[[res h'] l']|] eqn:Hop;
      [|by split; [left|]].
    apply calculateRoundResults_shell in Hop as [Hshell Hsame]. simpl.
    split; [by eapply shell_step|]. by eapply no_host_same_but_score.
  - destruct (obj_get _ _) as [l|] eqn:Hl; [|by split; [left|]].
    destruct (finishGame _) as [[[win sc] l']|] eqn:Hop; [|by split; [left|]].
    apply finishGame_shell in Hop. simpl. split; [|done].
    by eapply shell_step.
  - destruct (obj_get _ _) as [l|] eqn:Hl; [|by split; [left|]].
    simpl. split.
    + eapply shell_step; [done|]. by split_and!.
    + by apply resetGame_no_host.
  - destruct (obj_get _ _) as [l|] eqn:Hl; [|by split; [left|]].
    destruct (Lobby.gameState l); [|by split; [left|]]. simpl.
    split; [|done]. eapply shell_step; [done|]. by split_and!.
Qed.

Lemma run_service_ok (actions : list Action) :
  registry_ok (World.lobbies (run actions))
  ∧ no_host_player (World.store (run actions)).
Proof.
  unfold run.
  assert (registry_ok (World.lobbies World_init)
          ∧ no_host_player (World.store World_init)) as Hinit.
  { split; [|done]. split_and!; [simpl; lia|constructor|done]. }
  revert Hinit. generalize World_init.
  induction actions as [|a actions IH]; intros w [Hreg Hno]; simpl; [done|].
  destruct (perform_step w a Hno) as [Hstep Hno'].
  apply IH. split; [by eapply lobbies_step_registry|done].
Qed.

(** X28. In every state reached from the empty registry by any sequence of
    lobby and game operations, the registry holds at most [MAX_LOBBIES]
    lobbies, no two under the same code, and every lobby is registered under
    its own code. *)
Theorem run_registry_bounded (actions : list Action) :
  let w := run actions in
  (length (World.lobbies w) ≤ 100)%nat
  ∧ NoDup (obj_keys (World.lobbies w))
  ∧ ∀ code lobby,
      obj_get (World.lobbies w) code = Some lobby → Lobby.code lobby = code.
Proof.
  destruct (run_service_ok actions) as [(Hlen & Hnd & Hall) _].
  cbv zeta. split_and!; [done..|]. intros code lobby Hl.
  by destruct (Hall code lobby Hl).
Qed.

(** X29. In every such state no lobby has more than [MAX_PLAYERS_PER_LOBBY]
    players or more than four players in a team list. *)
Theorem run_roster_bounded (actions : list Action) code lobby :
  obj_get (World.lobbies (run actions)) code = Some lobby →
  (length (Lobby.players lobby) ≤ 8)%nat
  ∧ ∀ tm, (length (Lobby.teams lobby tm) ≤ 4)%nat.
Proof.
  destruct (run_service_ok actions) as [(_ & _ & Hall) _].
  intros Hl. destruct (Hall code lobby Hl) as [_ (Hp & Hb & Hr)].
  split; [done|]. by intros [].
Qed.

(** X30. In every such state no player object is marked as host: the host is
    not a player. So [leaveLobby] always reports [wasHost = false] and never
    hands a lobby to a new host, and whatever operation comes next, a lobby
    that stays in the registry keeps its host id. *)
Theorem run_host_never_changes (actions : list Action) :
  let w := run actions in
  (∀ p, Player.isHost (World.store w p) = false)
  ∧ (∀ code playerId, (leaveLobby w code playerId).1.2 = false)
  ∧ ∀ a code lobby lobby',
      obj_get (World.lobbies w) code = Some lobby →
      obj_get (World.lobbies (perform w a)) code = Some lobby' →
      Lobby.hostId lobby' = Lobby.hostId lobby.
Proof.
  destruct (run_service_ok actions) as [_ Hno]. cbv zeta.
  split; [done|]. split.
  - intros code playerId. by destruct (leaveLobby_step _ code playerId Hno) as (_ & _ & ?).
  - intros a code lobby lobby' Hl Hl'.
    destruct (perform_step _ a Hno) as [Hstep _].
    by destruct (lobbies_step_host _ _ code lobby lobby' Hstep Hl Hl').
Qed.
End PerformStep.

(** ** The properties on the sample session *)

(** C1 on the sample round, where one answer was submitted. *)
Lemma C1_prepareVotingOptions_witness :
  let lobby := sampleLobby sample_writing in
  (∀ k, (0 <= sample_rnd k)%Q ∧ (sample_rnd k < 1)%Q)
  ∧ Lobby.gameState lobby = Some (gameOf lobby)
  ∧ getCurrentRound (gameOf lobby) = Some (roundOf lobby)
  ∧ (length (BullRound.playerAnswers (roundOf lobby)) ≤ 2)%nat
  ∧ ∃ opts lobby',
      prepareVotingOptions sample_uuid sample_rnd lobby = Ok (opts, lobby')
      ∧ length opts = 4%nat
      ∧ length (filter (λ o, RoundOption.origin o = OriginCorrect) opts) = 1%nat.
Proof.
  intros lobby.
  assert (∀ k, (0 <= sample_rnd k)%Q ∧ (sample_rnd k < 1)%Q) as Hrnd.
  { intros k. split; vm_compute; [discriminate|reflexivity]. }
  assert (Lobby.gameState lobby = Some (gameOf lobby)) as Hgs
    by (vm_compute; reflexivity).
  assert (getCurrentRound (gameOf lobby) = Some (roundOf lobby)) as Hrd
    by (vm_compute; reflexivity).
  assert (length (BullRound.playerAnswers (roundOf lobby)) ≤ 2)%nat as Hlen
    by (vm_compute; lia).
  split_and!; [exact Hrnd|exact Hgs|exact Hrd|exact Hlen|].
  destruct (C1_prepareVotingOptions_four_options sample_uuid sample_rnd lobby
              (gameOf lobby) (roundOf lobby) Hrnd Hgs Hrd Hlen)
    as (opts & lobby' & gs' & rd' & fillers & Hok & _ & _ & _ & _ & H4 & H1 & _).
  exists opts, lobby'. split_and!; [exact Hok|exact H4|exact H1].
Defined.

(** C2 on the sample round: Beto (blue) voted for the correct answer and
    Caro (red) for Beto's answer. *)
Lemma C2_confusion_bonus_witness :
  let w := sample_voted "o-0" "o-2" in
  let h := World.store w in
  let lobby := sampleLobby w in
  let rd := roundOf lobby in
  let o := RoundOption.mk "o-2" "Fabri" (OriginPlayer "p-1") 4 in
  let out := sampleResults w in
  Lobby.gameState lobby = Some (gameOf lobby)
  ∧ getCurrentRound (gameOf lobby) = Some rd
  ∧ calculateRoundResults h lobby = Ok (out.1.1, out.1.2, out.2)
  ∧ NoDup (obj_keys (BullRound.votes rd))
  ∧ filter (λ o', RoundOption.origin o' = OriginPlayer "p-1")
      (BullRound.options rd) = [o]
  ∧ findPlayer h (Lobby.players lobby) "p-1" = Some 0%nat
  ∧ Player.team (h 0%nat) = Some Team.blue
  ∧ obj_get (RoundResult.confusionResults out.1.1) "p-1"
    = (if bool_decide (votersForThisOption h lobby rd o "p-1" 0%nat = [])
       then None
       else Some (votersForThisOption h lobby rd o "p-1" 0%nat)).
Proof.
  intros w h lobby rd o out.
  assert (Lobby.gameState lobby = Some (gameOf lobby)) as Hgs
    by (vm_compute; reflexivity).
  assert (getCurrentRound (gameOf lobby) = Some rd) as Hrd
    by (vm_compute; reflexivity).
  assert (calculateRoundResults h lobby = Ok (out.1.1, out.1.2, out.2)) as Hcalc
    by (vm_compute; reflexivity).
  assert (NoDup (obj_keys (BullRound.votes rd))) as Hnd.
  { vm_compute. repeat constructor; intros Hin;
      repeat (apply elem_of_cons in Hin as [Hin|Hin]; [discriminate Hin|]);
      apply elem_of_nil in Hin; exact Hin. }
  assert (filter (λ o', RoundOption.origin o' = OriginPlayer "p-1")
            (BullRound.options rd) = [o]) as Hfilter
    by (vm_compute; reflexivity).
  assert (findPlayer h (Lobby.players lobby) "p-1" = Some 0%nat) as Hla
    by (vm_compute; reflexivity).
  assert (Player.team (h 0%nat) = Some Team.blue) as Htm
    by (vm_compute; reflexivity).
  split_and!;
    [exact Hgs|exact Hrd|exact Hcalc|exact Hnd|exact Hfilter|exact Hla
    |exact Htm|].
  destruct (C2_confusion_bonus h lobby (gameOf lobby) rd out.1.1 out.1.2 out.2
              o "p-1" 0%nat Team.blue Hgs Hrd Hcalc Hnd Hfilter Hla Htm)
    as (c & _ & _ & _ & Hconf & _).
  exact Hconf.
Defined.

(** C3 on the started sample game, whose scores are equal. *)
Lemma C3_finishGame_witness :
  let lobby := sampleLobby sample_started in
  Lobby.gameState lobby = Some (gameOf lobby)
  ∧ ∃ w lobby',
      finishGame lobby = Ok (w, BullGameState.scores (gameOf lobby), lobby')
      ∧ Lobby.status lobby' = LobbyFinished.
Proof.
  intros lobby.
  assert (Lobby.gameState lobby = Some (gameOf lobby)) as Hgs
    by (vm_compute; reflexivity).
  split; [exact Hgs|].
  destruct (C3_finishGame_winner lobby (gameOf lobby) Hgs)
    as (w & lobby' & gs' & Hok & Hst & _).
  exists w, lobby'. split; [exact Hok|exact Hst].
Defined.



(** C8 on the sample lobby before the game starts. *)
Lemma C8_teams_witness :
  let w := @run AsciiStrings sample_lobby_actions in
  obj_get (World.lobbies w) "ABC123" = Some (sampleLobby w)
  ∧ (∀ p q, p ∈ Lobby.teams_blue (sampleLobby w) →
            q ∈ Lobby.teams_red (sampleLobby w) →
            Player.id (World.store w p) ≠ Player.id (World.store w q)).
Proof.
  intros w.
  assert (obj_get (World.lobbies w) "ABC123" = Some (sampleLobby w)) as Hl
    by (vm_compute; reflexivity).
  split; [exact Hl|].
  exact (proj1 (@C8_teams_disjoint_and_consistent AsciiStrings
                  sample_lobby_actions "ABC123" (sampleLobby w) Hl)).
Defined.

(** C10 on the sample round after Caro, who had voted, has left. *)
Lemma C10_orphan_votes_witness :
  let w := sample_orphan in
  let lobby := sampleLobby w in
  let out := sampleResults w in
  Lobby.gameState lobby = Some (gameOf lobby)
  ∧ getCurrentRound (gameOf lobby) = Some (roundOf lobby)
  ∧ calculateRoundResults (World.store w) lobby = Ok (out.1.1, out.1.2, out.2)
  ∧ findPlayer (World.store w) (Lobby.players lobby) "p-2" = None
  ∧ obj_get (BullRound.votes (roundOf lobby)) "p-2" = Some "o-2"%string
  ∧ obj_get (RoundResult.votes out.1.1) "p-2" = None
  ∧ obj_get (RoundResult.pointsAwarded out.1.1) "p-2" = None
  ∧ obj_get (RoundResult.confusionResults out.1.1) "p-2" = None.
Proof.
  intros w lobby out.
  assert (Lobby.gameState lobby = Some (gameOf lobby)) as Hgs
    by (vm_compute; reflexivity).
  assert (getCurrentRound (gameOf lobby) = Some (roundOf lobby)) as Hrd
    by (vm_compute; reflexivity).
  assert (calculateRoundResults (World.store w) lobby
          = Ok (out.1.1, out.1.2, out.2)) as Hcalc
    by (vm_compute; reflexivity).
  assert (findPlayer (World.store w) (Lobby.players lobby) "p-2" = None) as Hun
    by (vm_compute; reflexivity).
  split_and!; [exact Hgs|exact Hrd|exact Hcalc|exact Hun
              |vm_compute; reflexivity|..];
    destruct (C10_orphan_votes_and_authors_skipped (World.store w) lobby
                (gameOf lobby) (roundOf lobby) out.1.1 out.1.2 out.2
                Hgs Hrd Hcalc) as (_ & Hkeys & _);
    destruct (Hkeys "p-2"%string Hun) as (Hv & Hp & Hc);
    [exact Hv|exact Hp|exact Hc].
Defined.

(* ================================================================== *)
(** ** The further properties on the sample session *)

Lemma sample_rnd_range : ∀ k, (0 <= sample_rnd k)%Q ∧ (sample_rnd k < 1)%Q.
Proof. intros k. split; vm_compute; [discriminate|reflexivity]. Qed.

(** A draw of one half on an array of three. *)
Lemma getRandomElement_member_witness :
  (0 <= 1 # 2)%Q ∧ (1 # 2 < 1)%Q
  ∧ ∀ x, getRandomElement (1 # 2) [10; 20; 30] = Some x → x ∈ [10; 20; 30].
Proof.
  assert (0 <= 1 # 2)%Q as H0 by (vm_compute; discriminate).
  assert (1 # 2 < 1)%Q as H1 by (vm_compute; reflexivity).
  split; [exact H0|]. split; [exact H1|].
  exact (proj2 (getRandomElement_member (1 # 2) [10; 20; 30] H0 H1)).
Defined.

(** Ten characters cut to eight. *)
Lemma truncate_length_witness :
  3 ≤ 8
  ∧ Z.of_nat (String.length (truncate "Hola mundo" 8)) ≤ 8.
Proof.
  assert (3 ≤ 8) as H3 by (vm_compute; discriminate).
  split; [exact H3|].
  exact (proj1 (truncate_length "Hola mundo" 8 H3)).
Defined.

(** The code generated from the sample draws. *)
Lemma generateLobbyCode_valid_witness :
  (∀ k, (0 <= sample_rnd k)%Q ∧ (sample_rnd k < 1)%Q)
  ∧ isValidLobbyCode (generateLobbyCode sample_rnd 0) = true.
Proof.
  split; [exact sample_rnd_range|].
  exact (generateLobbyCode_valid sample_rnd 0 sample_rnd_range).
Defined.

(** The first selection of the sample game. *)
Lemma selectPlayersForRound_selected_witness :
  let w := sample_started in
  let out :=
    selectPlayersForRound (World.playerSelector w) (World.store w)
      [0%nat] [1%nat] (Some "host-0"%string) sample_rnd in
  out = (out.1, Ok (0%nat, 1%nat))
  ∧ 0%nat ∈ [0%nat] ∧ 1%nat ∈ [1%nat].
Proof.
  intros w out.
  assert (out = (out.1, Ok (0%nat, 1%nat))) as Hsel
    by (vm_compute; reflexivity).
  split; [exact Hsel|].
  destruct (selectPlayersForRound_selected (World.playerSelector w)
              (World.store w) [0%nat] [1%nat] "host-0" sample_rnd out.1
              0%nat 1%nat Hsel) as (Hb & Hr & _).
  split; [exact Hb|exact Hr].
Defined.

(** The records of the first selection of the sample game: Beto has
    played once, in round 1. *)
Lemma selectPlayersForRound_participation_witness :
  let w := sample_started in
  let s := World.playerSelector w in
  let out :=
    selectPlayersForRound s (World.store w) [0%nat] [1%nat]
      (Some "host-0"%string) sample_rnd in
  out = (out.1, Ok (0%nat, 1%nat))
  ∧ Player.id (World.store w 0%nat) ≠ Player.id (World.store w 1%nat)
  ∧ match obj_get (PlayerSelector.participationHistory s) "p-1" with
    | Some p =>
        ∃ p',
          obj_get (PlayerSelector.participationHistory out.1) "p-1" = Some p'
          ∧ PlayerParticipation.playerId p' = PlayerParticipation.playerId p
          ∧ if bool_decide ("p-1"%string = Player.id (World.store w 0%nat)
                            ∨ "p-1"%string = Player.id (World.store w 1%nat))
            then PlayerParticipation.lastRoundPlayed p'
                 = PlayerSelector.currentRound s + 1
                 ∧ PlayerParticipation.timesPlayed p'
                   = PlayerParticipation.timesPlayed p + 1
            else PlayerParticipation.lastRoundPlayed p'
                 = PlayerParticipation.lastRoundPlayed p
                 ∧ PlayerParticipation.timesPlayed p'
                   = PlayerParticipation.timesPlayed p
    | None => obj_get (PlayerSelector.participationHistory out.1) "p-1" = None
    end.
Proof.
  intros w s out.
  assert (out = (out.1, Ok (0%nat, 1%nat))) as Hsel
    by (vm_compute; reflexivity).
  assert (Player.id (World.store w 0%nat) ≠ Player.id (World.store w 1%nat))
    as Hne by (vm_compute; discriminate).
  split; [exact Hsel|]. split; [exact Hne|].
  exact (selectPlayersForRound_participation s (World.store w) [0%nat] [1%nat]
           (Some "host-0"%string) sample_rnd out.1 0%nat 1%nat Hsel Hne
           "p-1"%string).
Defined.

(** Round 1 of the sample game. *)
Lemma startRound_opens_round_witness :
  let w := sample_started in
  let lobby := sampleLobby w in
  let out :=
    startRound (World.playerSelector w) (World.store w) lobby 1 sample_rnd in
  let res := unOk (emptyRound, emptyLobby) out.2 in
  Lobby.gameState lobby = Some (gameOf lobby)
  ∧ out = (out.1, Ok (res.1, res.2))
  ∧ BullRound.number res.1 = 1
  ∧ BullRound.playerAnswers res.1 = [].
Proof.
  intros w lobby out res.
  assert (Lobby.gameState lobby = Some (gameOf lobby)) as Hgs
    by (vm_compute; reflexivity).
  assert (out = (out.1, Ok (res.1, res.2))) as Hstart
    by (vm_compute; reflexivity).
  split; [exact Hgs|]. split; [exact Hstart|].
  destruct (startRound_opens_round (World.playerSelector w) (World.store w)
              lobby 1 sample_rnd out.1 res.1 res.2 (gameOf lobby) Hgs Hstart)
    as (_ & Hnum & Hans & _).
  split; [exact Hnum|exact Hans].
Defined.

(** Beto votes for the first option and tries to vote again. *)
Lemma submitVote_once_witness :
  let lobby := sampleLobby sample_voting in
  let lobby' := unOk emptyLobby (submitVote lobby "p-1" "o-0") in
  submitVote lobby "p-1" "o-0" = Ok lobby'
  ∧ "o-0"%string ≠ ""%string
  ∧ ∃ message code,
      submitVote lobby' "p-1" "o-1" = Throw (GameError message code).
Proof.
  intros lobby lobby'.
  assert (submitVote lobby "p-1" "o-0" = Ok lobby') as Hvote
    by (vm_compute; reflexivity).
  assert ("o-0"%string ≠ ""%string) as Hne by discriminate.
  split; [exact Hvote|]. split; [exact Hne|].
  destruct (submitVote_once lobby "p-1" "o-0" lobby' Hvote Hne) as (_ & Hagain).
  destruct (Hagain "o-1"%string) as (message & code & Hthrow & _).
  exists message, code. exact Hthrow.
Defined.

(** Beto answers and marks ready. *)
Lemma markPlayerReady_after_answer_witness :
  let w := sample_round_open in
  let lobby := sampleLobby w in
  let lobby1 :=
    unOk emptyLobby
      (@submitAnswer AsciiStrings (World.store w) lobby "p-1" "  Fabri ") in
  @submitAnswer AsciiStrings (World.store w) lobby "p-1" "  Fabri " = Ok lobby1
  ∧ ∃ lobby2, markPlayerReady (World.store w) lobby1 "p-1" = Ok lobby2.
Proof.
  intros w lobby lobby1.
  assert (@submitAnswer AsciiStrings (World.store w) lobby "p-1" "  Fabri "
          = Ok lobby1) as Hans by (vm_compute; reflexivity).
  split; [exact Hans|].
  destruct (@markPlayerReady_after_answer AsciiStrings (World.store w) lobby
              "p-1" "  Fabri " lobby1 Hans)
    as (_ & lobby2 & gs2 & rd2 & Hready & _).
  exists lobby2. exact Hready.
Defined.

(** Beto and Caro answer in turn. *)
Lemma allAnswersSubmitted_after_two_witness :
  let w := sample_round_open in
  let h := World.store w in
  let lobby := sampleLobby w in
  let lobby1 :=
    unOk emptyLobby (@submitAnswer AsciiStrings h lobby "p-1" "  Fabri ") in
  let lobby2 :=
    unOk emptyLobby (@submitAnswer AsciiStrings h lobby1 "p-2" "Gio") in
  Lobby.gameState lobby = Some (gameOf lobby)
  ∧ getCurrentRound (gameOf lobby) = Some (roundOf lobby)
  ∧ BullRound.playerAnswers (roundOf lobby) = []
  ∧ @submitAnswer AsciiStrings h lobby "p-1" "  Fabri " = Ok lobby1
  ∧ @submitAnswer AsciiStrings h lobby1 "p-2" "Gio" = Ok lobby2
  ∧ allAnswersSubmitted lobby1 = false
  ∧ allAnswersSubmitted lobby2 = true.
Proof.
  intros w h lobby lobby1 lobby2.
  assert (Lobby.gameState lobby = Some (gameOf lobby)) as Hgs
    by (vm_compute; reflexivity).
  assert (getCurrentRound (gameOf lobby) = Some (roundOf lobby)) as Hrd
    by (vm_compute; reflexivity).
  assert (BullRound.playerAnswers (roundOf lobby) = []) as Hnil
    by (vm_compute; reflexivity).
  assert (@submitAnswer AsciiStrings h lobby "p-1" "  Fabri " = Ok lobby1)
    as H1 by (vm_compute; reflexivity).
  assert (@submitAnswer AsciiStrings h lobby1 "p-2" "Gio" = Ok lobby2)
    as H2 by (vm_compute; reflexivity).
  split_and!; [exact Hgs|exact Hrd|exact Hnil|exact H1|exact H2|..];
    destruct (@allAnswersSubmitted_after_two AsciiStrings h lobby
                (gameOf lobby) (roundOf lobby) "p-1" "  Fabri " lobby1
                "p-2" "Gio" lobby2 Hgs Hrd Hnil H1 H2)
      as (_ & Hone & Htwo & _);
    [exact Hone|exact Htwo].
Defined.

(** Beto and Caro have answered and mark ready in turn. *)
Lemma allPlayersReady_after_both_witness :
  let w := sample_answered in
  let h := World.store w in
  let lobby := sampleLobby w in
  let lobby1 := unOk emptyLobby (markPlayerReady h lobby "p-1") in
  let lobby2 := unOk emptyLobby (markPlayerReady h lobby1 "p-2") in
  Lobby.gameState lobby = Some (gameOf lobby)
  ∧ getCurrentRound (gameOf lobby) = Some (roundOf lobby)
  ∧ "p-1"%string
    = Player.id (h (BullRound.selectedPlayers_blue (roundOf lobby)))
  ∧ "p-2"%string
    = Player.id (h (BullRound.selectedPlayers_red (roundOf lobby)))
  ∧ markPlayerReady h lobby "p-1" = Ok lobby1
  ∧ markPlayerReady h lobby1 "p-2" = Ok lobby2
  ∧ allPlayersReady h lobby2 = true.
Proof.
  intros w h lobby lobby1 lobby2.
  assert (Lobby.gameState lobby = Some (gameOf lobby)) as Hgs
    by (vm_compute; reflexivity).
  assert (getCurrentRound (gameOf lobby) = Some (roundOf lobby)) as Hrd
    by (vm_compute; reflexivity).
  assert ("p-1"%string
          = Player.id (h (BullRound.selectedPlayers_blue (roundOf lobby))))
    as Hb by (vm_compute; reflexivity).
  assert ("p-2"%string
          = Player.id (h (BullRound.selectedPlayers_red (roundOf lobby))))
    as Hr by (vm_compute; reflexivity).
  assert (markPlayerReady h lobby "p-1" = Ok lobby1) as H1
    by (vm_compute; reflexivity).
  assert (markPlayerReady h lobby1 "p-2" = Ok lobby2) as H2
    by (vm_compute; reflexivity).
  split_and!; [exact Hgs|exact Hrd|exact Hb|exact Hr|exact H1|exact H2|].
  exact (proj1 (allPlayersReady_after_both h lobby (gameOf lobby)
                  (roundOf lobby) "p-1" "p-2" lobby1 lobby2 Hgs Hrd
                  (or_introl (conj Hb Hr)) H1 H2)).
Defined.

(** The options of the sample round, then its results. *)
Lemma calculateRoundResults_after_prepare_witness :
  let w := sample_writing in
  let lobby := sampleLobby w in
  let out :=
    unOk ([], emptyLobby) (prepareVotingOptions sample_uuid sample_rnd lobby) in
  prepareVotingOptions sample_uuid sample_rnd lobby = Ok (out.1, out.2)
  ∧ ∃ res h' lobby2,
      calculateRoundResults (World.store w) out.2 = Ok (res, h', lobby2)
      ∧ RoundResult.correctOptionId res = sample_uuid 0%nat.
Proof.
  intros w lobby out.
  assert (prepareVotingOptions sample_uuid sample_rnd lobby = Ok (out.1, out.2))
    as Hprep by (vm_compute; reflexivity).
  split; [exact Hprep|].
  destruct (calculateRoundResults_after_prepare sample_uuid sample_rnd
              (World.store w) lobby out.1 out.2 Hprep)
    as (res & h' & lobby2 & gs2 & rd2 & Hcalc & Hid & _).
  exists res, h', lobby2. split; [exact Hcalc|exact Hid].
Defined.

(** The blue total of the sample round, where Beto found the correct
    answer and confused Caro. *)
Lemma calculateRoundResults_scores_grow_witness :
  let w := sample_voted "o-0" "o-2" in
  let lobby := sampleLobby w in
  let out := sampleResults w in
  Lobby.gameState lobby = Some (gameOf lobby)
  ∧ getCurrentRound (gameOf lobby) = Some (roundOf lobby)
  ∧ calculateRoundResults (World.store w) lobby = Ok (out.1.1, out.1.2, out.2)
  ∧ 0 ≤ GameSettings.pointsCorrectAnswer (Lobby.settings lobby)
  ∧ 0 ≤ GameSettings.pointsConfuseOpponent (Lobby.settings lobby)
  ∧ Scores.get (BullGameState.scores (gameOf lobby)) Team.blue
    ≤ Scores.get (RoundResult.newScores out.1.1) Team.blue.
Proof.
  intros w lobby out.
  assert (Lobby.gameState lobby = Some (gameOf lobby)) as Hgs
    by (vm_compute; reflexivity).
  assert (getCurrentRound (gameOf lobby) = Some (roundOf lobby)) as Hrd
    by (vm_compute; reflexivity).
  assert (calculateRoundResults (World.store w) lobby
          = Ok (out.1.1, out.1.2, out.2)) as Hcalc
    by (vm_compute; reflexivity).
  assert (0 ≤ GameSettings.pointsCorrectAnswer (Lobby.settings lobby)) as Hpc
    by (vm_compute; discriminate).
  assert (0 ≤ GameSettings.pointsConfuseOpponent (Lobby.settings lobby)) as Hpo
    by (vm_compute; discriminate).
  split_and!; [exact Hgs|exact Hrd|exact Hcalc|exact Hpc|exact Hpo|].
  exact (proj1 (calculateRoundResults_scores_grow (World.store w) lobby
                  (gameOf lobby) (roundOf lobby) out.1.1 out.1.2 out.2
                  Team.blue Hgs Hrd Hcalc Hpc Hpo)).
Defined.

(** The started sample game is reset. *)
Lemma resetGame_clears_witness :
  let w := sample_started in
  obj_get (World.lobbies w) "ABC123" = Some (sampleLobby w)
  ∧ canStartGame (@perform AsciiStrings w (ResetGame "ABC123")) "ABC123"
    = false.
Proof.
  intros w.
  assert (obj_get (World.lobbies w) "ABC123" = Some (sampleLobby w)) as Hl
    by (vm_compute; reflexivity).
  split; [exact Hl|].
  destruct (@resetGame_clears AsciiStrings w "ABC123" (sampleLobby w) Hl)
    as (lobby' & _ & _ & _ & _ & _ & _ & _ & _ & Hcan).
  exact Hcan.
Defined.

(** Ana starts the sample game. *)
Lemma handleStartGame_starts_witness :
  let w := sample_ready in
  let w' := handleStartGame w "ABC123" "host-0" None in
  obj_get (World.lobbies w) "ABC123" = Some (sampleLobby w)
  ∧ Lobby.hostId (sampleLobby w) = "host-0"%string
  ∧ canStartGame w "ABC123" = true
  ∧ ∃ lobby',
      obj_get (World.lobbies w') "ABC123" = Some lobby'
      ∧ Lobby.status lobby' = LobbyPlaying.
Proof.
  intros w w'.
  assert (obj_get (World.lobbies w) "ABC123" = Some (sampleLobby w)) as Hl
    by (vm_compute; reflexivity).
  assert (Lobby.hostId (sampleLobby w) = "host-0"%string) as Hhost
    by (vm_compute; reflexivity).
  assert (canStartGame w "ABC123" = true) as Hcan
    by (vm_compute; reflexivity).
  split; [exact Hl|]. split; [exact Hhost|]. split; [exact Hcan|].
  destruct (proj2 (handleStartGame_starts w "ABC123" "host-0" None
                     (sampleLobby w) Hl) Hhost Hcan)
    as (lobby' & gs & Hl' & Hst & _).
  exists lobby'. split; [exact Hl'|exact Hst].
Defined.

(** The host's first [next_phase] in the started sample game. *)
Lemma startNextRound_outcome_witness :
  let w := sample_started in
  let lobby := sampleLobby w in
  let w' := startNextRound w "ABC123" sample_rnd in
  obj_get (World.lobbies w) "ABC123" = Some lobby
  ∧ Lobby.gameState lobby = Some (gameOf lobby)
  ∧ ∃ lobby' gs',
      obj_get (World.lobbies w') "ABC123" = Some lobby'
      ∧ Lobby.gameState lobby' = Some gs'
      ∧ BullGameState.currentRound gs' = nextRoundNumber (gameOf lobby).
Proof.
  intros w lobby w'.
  assert (obj_get (World.lobbies w) "ABC123" = Some lobby) as Hl
    by (vm_compute; reflexivity).
  assert (Lobby.gameState lobby = Some (gameOf lobby)) as Hgs
    by (vm_compute; reflexivity).
  split; [exact Hl|]. split; [exact Hgs|].
  destruct (startNextRound_outcome w "ABC123" sample_rnd lobby (gameOf lobby)
              Hl Hgs) as (lobby' & gs' & Hl' & Hgs' & Hn & _).
  exists lobby', gs'. split; [exact Hl'|]. split; [exact Hgs'|exact Hn].
Defined.

(** Ana starts the sample game with a single round and asks for the next
    phase. *)
Lemma single_round_game_plays_no_round_witness :
  let w := sample_ready in
  let lobby := sampleLobby w in
  let w1 := handleStartGame w "ABC123" (Lobby.hostId lobby)
              (Some sample_one_round) in
  let w2 := progressGamePhase w1 "ABC123" sample_uuid sample_rnd in
  obj_get (World.lobbies w) "ABC123" = Some lobby
  ∧ canStartGame w "ABC123" = true
  ∧ GameSettings.maxRounds
      (PartialSettings.merge (Lobby.settings lobby) sample_one_round) ≤ 1
  ∧ ∃ lobby2 gs2,
      obj_get (World.lobbies w2) "ABC123" = Some lobby2
      ∧ Lobby.status lobby2 = LobbyFinished
      ∧ Lobby.gameState lobby2 = Some gs2
      ∧ BullGameState.rounds gs2 = [].
Proof.
  intros w lobby w1 w2.
  assert (obj_get (World.lobbies w) "ABC123" = Some lobby) as Hl
    by (vm_compute; reflexivity).
  assert (canStartGame w "ABC123" = true) as Hcan
    by (vm_compute; reflexivity).
  assert (GameSettings.maxRounds
            (PartialSettings.merge (Lobby.settings lobby) sample_one_round) ≤ 1)
    as Hmax by (vm_compute; discriminate).
  split; [exact Hl|]. split; [exact Hcan|]. split; [exact Hmax|].
  destruct (single_round_game_plays_no_round w "ABC123" (Some sample_one_round)
              sample_uuid sample_rnd lobby Hl Hcan Hmax)
    as (lobby2 & gs2 & Hl2 & Hst & Hgs2 & _ & Hrounds & _).
  exists lobby2, gs2.
  split; [exact Hl2|]. split; [exact Hst|]. split; [exact Hgs2|exact Hrounds].
Defined.

(** Beto has joined; a second Beto, in capitals, is refused. *)
Lemma joinLobby_name_taken_witness :
  let w := sample_created in
  let out :=
    unOk (emptyLobby, ""%string, w)
      (@joinLobby AsciiStrings w "abc123" "Beto" "s1" "p-1") in
  @joinLobby AsciiStrings w "abc123" "Beto" "s1" "p-1"
  = Ok (out.1.1, out.1.2, out.2)
  ∧ @normalizeLobbyCode AsciiStrings "ABC123"
    = @normalizeLobbyCode AsciiStrings "abc123"
  ∧ @toLowerCase AsciiStrings "BETO" = @toLowerCase AsciiStrings "Beto"
  ∧ ∃ message errorCode statusCode,
      @joinLobby AsciiStrings out.2 "ABC123" "BETO" "s9" "p-9"
      = Throw (LobbyError message errorCode statusCode).
Proof.
  intros w out.
  assert (@joinLobby AsciiStrings w "abc123" "Beto" "s1" "p-1"
          = Ok (out.1.1, out.1.2, out.2)) as Hjoin
    by (vm_compute; reflexivity).
  assert (@normalizeLobbyCode AsciiStrings "ABC123"
          = @normalizeLobbyCode AsciiStrings "abc123") as Hcode
    by (vm_compute; reflexivity).
  assert (@toLowerCase AsciiStrings "BETO" = @toLowerCase AsciiStrings "Beto")
    as Hname by (vm_compute; reflexivity).
  split; [exact Hjoin|]. split; [exact Hcode|]. split; [exact Hname|].
  destruct (@joinLobby_name_taken AsciiStrings w "abc123" "Beto" "s1" "p-1"
              out.1.1 out.1.2 out.2 Hjoin "ABC123"%string "BETO"%string
              "s9"%string "p-9"%string Hcode Hname)
    as (message & errorCode & statusCode & Hthrow & _).
  exists message, errorCode, statusCode. exact Hthrow.
Defined.


(** The sample lobby is within the limits. *)
Lemma run_roster_bounded_witness :
  let w := @run AsciiStrings sample_lobby_actions in
  obj_get (World.lobbies w) "ABC123" = Some (sampleLobby w)
  ∧ (length (Lobby.players (sampleLobby w)) ≤ 8)%nat.
Proof.
  intros w.
  assert (obj_get (World.lobbies w) "ABC123" = Some (sampleLobby w)) as Hl
    by (vm_compute; reflexivity).
  split; [exact Hl|].
  exact (proj1 (@run_roster_bounded AsciiStrings sample_lobby_actions "ABC123"
                  (sampleLobby w) Hl)).
Defined.
